(** * Nodal analysis engine of [circuit_analysis_pro.tsx]

    A shallow embedding of the numerical core of the program: the unit
    normaliser [convertToOhms], the dense solver [Matrix.solve] (Gaussian
    elimination with partial pivoting and a step trace) and the modified
    nodal analysis [analyzeNodalMethod], followed by the properties of
    the specification that concern them.

    The source computes on JavaScript numbers.  The embedding is written
    once over an interface [Number] of the operations the source uses and
    is run on two instances: [float_Number], IEEE 754 binary64 as the
    program really computes, and [Q_Number], exact rational arithmetic,
    on which the algebraic statements of the specification are read.

    The constructor of the [Matrix] class and its methods [get],
    [toArray] and [solve] are also modelled on a heap of arrays, and the
    page [CircuitAnalysisPro] as its state with its handlers and the
    report it exports.  The properties after those of
    the specification cover the pivot search of the solver, the
    structure of the assembled system, what the analysis returns and
    when it raises, and the page. *)

From Stdlib Require Import ZArith QArith Qabs Qround Qreduction Lqa Lia.
From Stdlib Require Import PrimFloat FloatOps SpecFloat FloatAxioms.
From stdpp Require Import gmap strings list fin_maps pretty.

Local Open Scope string_scope.
Local Open Scope list_scope.

(** ** Text

    Template literals, [Array.prototype.join] and [String.prototype.padStart]
    as the source uses them. *)

Definition nl : string := String (Ascii.ascii_of_nat 10) "".

Fixpoint join (sep : string) (l : list string) : string :=
  match l with
  | [] => ""
  | [s] => s
  | s :: rest => s +:+ sep +:+ join sep rest
  end.

Definition spaces (n : nat) : string := String.concat "" (replicate n " ").
Definition zeros (n : nat) : string := String.concat "" (replicate n "0").

(** [s.padStart(n)] pads with spaces on the left up to [n] characters. *)
Definition padStart (n : nat) (s : string) : string :=
  spaces (n - String.length s) +:+ s.

(** ** Decimal rendering of an exact value

    [Number.prototype.toFixed] and the number-to-string conversion are
    defined by ECMAScript on the mathematical value of the number, so they
    are written once on rationals. *)

Definition pow10 (n : Z) : Q :=
  match n with
  | Z0 => 1
  | Zpos p => inject_Z (Z.pow_pos 10 p)
  | Zneg p => 1 # (Pos.pow 10 p)
  end.

Definition Qltb (x y : Q) : bool := negb (Qle_bool y x).

(** The [f] fraction digits of a non-negative [x]: the integer [n] nearest
    to [x * 10^f], the larger one on a tie, written with a decimal point. *)
Definition toFixed_digits (x : Q) (f : nat) : string :=
  let n := Qfloor (x * pow10 (Z.of_nat f) + (1 # 2)) in
  let m : string := pretty n in
  if (f =? 0)%nat then m
  else
    let m' := if (String.length m <=? f)%nat
              then zeros (f + 1 - String.length m) +:+ m else m in
    let k := String.length m' in
    String.substring 0 (k - f) m' +:+ "." +:+ String.substring (k - f) f m'.

(** The digits [s] (with [k] of them) and the decimal exponent [n] of a
    value [s * 10^(n-k)], laid out as Number::toString does. *)
Definition layout (s : Z) (n : Z) : string :=
  let d : string := pretty s in
  let k := Z.of_nat (String.length d) in
  if ((k <=? n) && (n <=? 21))%Z then d +:+ zeros (Z.to_nat (n - k))
  else if ((0 <? n) && (n <=? 21))%Z then
    String.substring 0 (Z.to_nat n) d +:+ "." +:+ String.substring (Z.to_nat n) (Z.to_nat (k - n)) d
  else if ((-6 <? n) && (n <=? 0))%Z then "0." +:+ zeros (Z.to_nat (- n)) +:+ d
  else
    let e := (n - 1)%Z in
    let ex := (if (0 <=? e)%Z then "+" else "-") +:+ pretty (Z.abs e) in
    if (k =? 1)%Z then d +:+ "e" +:+ ex
    else String.substring 0 1 d +:+ "." +:+ String.substring 1 (Z.to_nat (k - 1)) d +:+ "e" +:+ ex.

(** The decimal exponent [n] of a positive [v]: [10^(n-1) <= v < 10^n]. *)
Fixpoint decExp_from (fuel : nat) (v : Q) (n : Z) : Z :=
  match fuel with
  | O => n
  | S fuel' =>
      if Qltb v (pow10 (n - 1)) then decExp_from fuel' v (n - 1)
      else if Qle_bool (pow10 n) v then decExp_from fuel' v (n + 1)
      else n
  end.

Definition decExp (v : Q) : Z :=
  let est := ((Z.log2 (Qnum v) - Z.log2 (Zpos (Qden v))) * 3 / 10)%Z in
  decExp_from 700 v est.

(** A [k]-digit decimal [s * 10^(n-k)] inside the interval [lo, hi] around
    [v] (bounds included when [incl]), the nearest to [v] if there are two. *)
Definition inside (lo hi : Q) (incl : bool) (q : Q) : bool :=
  if incl then Qle_bool lo q && Qle_bool q hi else Qltb lo q && Qltb q hi.

Definition candidate (v lo hi : Q) (incl : bool) (k n : Z) : option Z :=
  let unit := pow10 (n - k) in
  let sc := (v / unit)%Q in
  let s1 := Qfloor sc in
  let s2 := (s1 + 1)%Z in
  let ok (s : Z) :=
    Qle_bool (pow10 (k - 1)) (inject_Z s) && Qltb (inject_Z s) (pow10 k)
    && inside lo hi incl (inject_Z s * unit) in
  match ok s1, ok s2 with
  | true, true =>
      Some (if Qle_bool (sc - inject_Z s1) (inject_Z s2 - sc) then s1 else s2)
  | true, false => Some s1
  | false, true => Some s2
  | false, false => None
  end.

(** The shortest decimal in the interval: the least [k] from [k0] on. *)
Fixpoint shortest_from (fuel : nat) (v lo hi : Q) (incl : bool) (k n : Z)
  : option (Z * Z) :=
  match fuel with
  | O => None
  | S fuel' =>
      match candidate v lo hi incl k n with
      | Some s => Some (s, n)
      | None =>
          match candidate v lo hi incl k (n + 1) with
          | Some s => Some (s, (n + 1)%Z)
          | None => shortest_from fuel' v lo hi incl (k + 1) n
          end
      end
  end.

(** Number::toString of a positive value that every decimal of the
    interval [lo, hi] denotes; 17 digits always suffice for a binary64. *)
Definition shortest_string (v lo hi : Q) (incl : bool) : string :=
  let n := decExp v in
  match shortest_from 17 v lo hi incl 1 n with
  | Some (s, n') => layout s n'
  | None => layout (Qfloor (v / pow10 (n - 17) + (1 # 2))) n
  end.

(** [x.toFixed(f)] for a finite [x] below [10^21]. *)
Definition toFixed_exact (x : Q) (f : nat) : string :=
  if Qltb x 0 then "-" +:+ toFixed_digits (- x) f else toFixed_digits x f.

(** ** Numbers

    The operations of JavaScript's [number] that the engine uses.  [ofZ]
    reads an integer literal, [tol] is the literal [1e-10] and [milli] the
    literal [0.001]; [nan] is what arithmetic on [undefined] yields;
    [nlt a b] is [a < b] (and [a > b] is [nlt b a]); [toFixed] is
    [Number.prototype.toFixed] and [toStr] the conversion of a number
    inside a template literal. *)
Class Number (num : Type) := {
  ofZ : Z -> num;
  tol : num;
  milli : num;
  nan : num;
  nadd : num -> num -> num;
  nsub : num -> num -> num;
  nmul : num -> num -> num;
  ndiv : num -> num -> num;
  nneg : num -> num;
  nabs : num -> num;
  nlt : num -> num -> bool;
  toFixed : num -> nat -> string;
  toStr : num -> string
}.

Declare Scope num_scope.
Delimit Scope num_scope with num.
Infix "+" := nadd : num_scope.
Infix "-" := nsub : num_scope.
Infix "*" := nmul : num_scope.
Infix "/" := ndiv : num_scope.
Notation "- x" := (nneg x) : num_scope.
Infix "<?" := nlt : num_scope.
Notation "a >? b" := (nlt b a) : num_scope.

(** *** Exact rationals

    Every operation is the rational one, reduced to lowest terms.  The
    rationals have no infinity and no NaN: here [x / 0] is [0] and [nan]
    is [0], where a binary64 gives an infinity or NaN.  The engine divides
    by a resistance, or by a pivot that passed the tolerance test, and
    meets [undefined] only at a component terminal that is not a node; the
    statements read on this instance exclude zero resistances and such
    terminals. *)
Definition Q_toStr (x : Q) : string :=
  if Qeq_bool x 0 then "0"
  else if Qltb x 0 then "-" +:+ shortest_string (- x) (- x) (- x) true
  else shortest_string x x x true.

Definition Q_toFixed (x : Q) (f : nat) : string :=
  if Qle_bool (pow10 21) (Qabs x) then Q_toStr x else toFixed_exact x f.

#[export] Instance Q_Number : Number Q := {|
  ofZ := inject_Z;
  tol := 1 # 10000000000;
  milli := 1 # 1000;
  nan := 0%Q;
  nadd x y := Qred (x + y);
  nsub x y := Qred (x - y);
  nmul x y := Qred (x * y);
  ndiv x y := Qred (x / y);
  nneg x := Qred (- x);
  nabs x := Qred (Qabs x);
  nlt := Qltb;
  toFixed := Q_toFixed;
  toStr := Q_toStr
|}.

(** *** IEEE 754 binary64

    The primitive floats of the kernel; their exact value is read off the
    mantissa and exponent that [Prim2SF] returns. *)
Definition pow2 (e : Z) : Q :=
  match e with
  | Z0 => 1
  | Zpos p => inject_Z (Z.pow_pos 2 p)
  | Zneg p => 1 # (Pos.pow 2 p)
  end.

Definition float_ofZ (z : Z) : float :=
  match z with
  | Z0 => PrimFloat.zero
  | Zpos p => PrimFloat.of_uint63 (Uint63Axioms.of_Z (Zpos p))
  | Zneg p => PrimFloat.opp (PrimFloat.of_uint63 (Uint63Axioms.of_Z (Zpos p)))
  end.

(** The decimals that round to the binary64 [m * 2^e] lie between the
    midpoints to its two neighbours; the lower neighbour is half as far
    when [m] is the least mantissa of its binade. *)
Definition float_toStr_pos (m : positive) (e : Z) : string :=
  let v := (inject_Z (Zpos m) * pow2 e)%Q in
  let hi := (inject_Z (2 * Zpos m + 1) * pow2 (e - 1))%Q in
  let lo := if ((Zpos m =? 2 ^ 52) && (-1074 <? e))%Z
            then (inject_Z (4 * Zpos m - 1) * pow2 (e - 2))%Q
            else (inject_Z (2 * Zpos m - 1) * pow2 (e - 1))%Q in
  shortest_string v lo hi (Z.even (Zpos m)).

Definition float_toStr (x : float) : string :=
  match Prim2SF x with
  | S754_nan => "NaN"
  | S754_zero _ => "0"
  | S754_infinity s => if s then "-Infinity" else "Infinity"
  | S754_finite s m e =>
      (if s then "-" else "") +:+ float_toStr_pos m e
  end.

Definition float_toFixed (x : float) (f : nat) : string :=
  match Prim2SF x with
  | S754_finite s m e =>
      let v := (inject_Z (Zpos m) * pow2 e)%Q in
      if Qle_bool (pow10 21) v then float_toStr x
      else (if s then "-" else "") +:+ toFixed_digits v f
  | S754_zero _ => toFixed_digits 0 f
  | _ => float_toStr x
  end.

(** A binary64 that is neither an infinity nor NaN. *)
Definition finite (x : float) : bool :=
  match Prim2SF x with
  | S754_zero _ | S754_finite _ _ _ => true
  | _ => false
  end.

#[export] Instance float_Number : Number float := {|
  ofZ := float_ofZ;
  tol := 0x1.b7cdfd9d7bdbbp-34%float;
  milli := 0x1.0624dd2f1a9fcp-10%float;
  nan := PrimFloat.nan;
  nadd := PrimFloat.add;
  nsub := PrimFloat.sub;
  nmul := PrimFloat.mul;
  ndiv := PrimFloat.div;
  nneg := PrimFloat.opp;
  nabs := PrimFloat.abs;
  nlt := PrimFloat.ltb;
  toFixed := float_toFixed;
  toStr := float_toStr
|}.

(** ** Arrays

    Reading past the end of a JavaScript array gives [undefined], and
    arithmetic on [undefined] gives NaN.  Writing past the end grows the
    array; the engine never does, so a write returns [None] there and the
    totality of the assembly ([assemble_total]) shows it is not reached. *)
Definition writeAt {A : Type} (l : list A) (i : nat) (x : A) : option (list A) :=
  if decide (i < length l) then Some (<[i := x]> l) else None.

Fixpoint foldM {A B : Type} (f : A -> B -> option A) (a : A) (l : list B)
  : option A :=
  match l with
  | [] => Some a
  | x :: l' => a' ← f a x; foldM f a' l'
  end.

(** [l.forEach((x, i) => ...)] visits the elements with their indices. *)
Fixpoint indexedFrom {A : Type} (k : nat) (l : list A) : list (nat * A) :=
  match l with
  | [] => []
  | x :: l' => (k, x) :: indexedFrom (S k) l'
  end.

Definition indexed {A : Type} (l : list A) : list (nat * A) := indexedFrom 0 l.

(** ** The dense matrix and its solver *)
Module Matrix.
Section WithNumber.
Context {num : Type} `{Number num}.
Local Open Scope num_scope.

Record t := { data : list (list num); rows : nat; cols : nat }.

Definition new (rows cols : nat) (initialValue : num) : t :=
  {| data := replicate rows (replicate cols initialValue);
     rows := rows; cols := cols |}.

(** [this.data[row][col] = value].  [None] when the row or the column does
    not exist (the source raises a TypeError on a missing row and grows
    the row on a missing column). *)
Definition set (m : t) (row col : nat) (value : num) : option t :=
  r ← data m !! row;
  r' ← writeAt r col value;
  Some {| data := <[row := r']> (data m); rows := rows m; cols := cols m |}.

Definition get (m : t) (row col : nat) : option num :=
  r ← data m !! row; r !! col.

(** [this.data[row][col] += value]. *)
Definition add (m : t) (row col : nat) (value : num) : option t :=
  r ← data m !! row;
  old ← r !! col;
  r' ← writeAt r col (old + value);
  Some {| data := <[row := r']> (data m); rows := rows m; cols := cols m |}.

Definition toArray (m : t) : list (list num) := data m.

(** An entry of the augmented matrix, inside a numeric expression. *)
Definition cell (aug : list (list num)) (r c : nat) : num :=
  default nan (aug !! r ≫= (.!! c)).

Definition setCell (aug : list (list num)) (r c : nat) (v : num)
  : list (list num) :=
  match aug !! r with
  | Some row => <[r := <[c := v]> row]> aug
  | None => aug
  end.

Definition formatAugmented (aug : list (list num)) : string :=
  join nl
    (map (fun row =>
            "[" +:+ join " " (map (fun v => padStart 10 (toFixed v 4)) (removelast row))
            +:+ " | " +:+ padStart 10 (toFixed (List.last row nan) 4) +:+ "]")
         aug).

(** The pivot search of stage [i]: the first row of largest absolute
    value in column [i], from row [i] down. *)
Definition findPivot (aug : list (list num)) (i n : nat) : nat :=
  fold_left
    (fun maxRow k => if nabs (cell aug k i) >? nabs (cell aug maxRow i)
                     then k else maxRow)
    (seq (i + 1) (n - (i + 1))) i.

(** [[augmented[i], augmented[maxRow]] = [augmented[maxRow], augmented[i]]]. *)
Definition swapRows (aug : list (list num)) (i maxRow : nat) : list (list num) :=
  let ri := default [] (aug !! i) in
  let rm := default [] (aug !! maxRow) in
  <[maxRow := ri]> (<[i := rm]> aug).

(** [for (j = i; j <= n; j++) augmented[k][j] -= factor * augmented[i][j]]. *)
Definition eliminateRow (aug : list (list num)) (i k n : nat) (factor : num)
  : list (list num) :=
  fold_left
    (fun a j => setCell a k j (cell a k j - factor * cell a i j))
    (seq i (n + 1 - i)) aug.

Definition swapStep (aug : list (list num)) (i maxRow : nat) : string * string :=
  ("Paso " +:+ pretty (i + 1)%nat +:+ "a: Intercambiar fila " +:+ pretty (i + 1)%nat
     +:+ " con fila " +:+ pretty (maxRow + 1)%nat,
   formatAugmented aug).

Definition eliminationStep (aug : list (list num)) (i k : nat) (factor : num)
  : string * string :=
  ("Paso " +:+ pretty (i + 1)%nat +:+ "b: F" +:+ pretty (k + 1)%nat +:+ " = F"
     +:+ pretty (k + 1)%nat +:+ " - (" +:+ toFixed factor 4 +:+ ") × F"
     +:+ pretty (i + 1)%nat,
   formatAugmented aug).

(** The elimination of column [i] from the rows below row [i]. *)
Definition eliminate (i n : nat) (st : list (list num) * list (string * string))
  : list (list num) * list (string * string) :=
  fold_left
    (fun '(aug, steps) k =>
       let factor := cell aug k i / cell aug i i in
       if nabs factor >? tol then
         let aug' := eliminateRow aug i k n factor in
         (aug', steps ++ [eliminationStep aug' i k factor])
       else (aug, steps))
    (seq (i + 1) (n - (i + 1))) st.

(** The pivoting of stage [i]: the search and, when it moves, the swap. *)
Definition pivot (i n : nat) (st : list (list num) * list (string * string))
  : list (list num) * list (string * string) :=
  let '(aug, steps) := st in
  let maxRow := findPivot aug i n in
  if decide (maxRow <> i) then
    let aug' := swapRows aug i maxRow in
    (aug', steps ++ [swapStep aug' i maxRow])
  else (aug, steps).

(** Forward elimination over the given stages.  [inr steps] is the early
    [return { solution: null, steps }] of a stage whose pivot is below the
    tolerance. *)
Fixpoint forward (stages : list nat) (n : nat)
    (st : list (list num) * list (string * string))
  : list (list num) * list (string * string) + list (string * string) :=
  match stages with
  | [] => inl st
  | i :: rest =>
      let '(aug, steps) := pivot i n st in
      if nabs (cell aug i i) <? tol then inr steps
      else forward rest n (eliminate i n (aug, steps))
  end.

Definition xval (x : list num) (i : nat) : num := default nan (x !! i).

(** Row [i] of the back substitution. *)
Definition backRow (aug : list (list num)) (n : nat) (x : list num) (i : nat)
  : list num :=
  let x1 := <[i := cell aug i n]> x in
  let x2 := fold_left
              (fun x j => <[i := xval x i - cell aug i j * xval x j]> x)
              (seq (i + 1) (n - (i + 1))) x1 in
  <[i := xval x2 i / cell aug i i]> x2.

Definition backSubstitution (aug : list (list num)) (n : nat) : list num :=
  fold_left (backRow aug n) (rev (seq 0 n)) (replicate n (ofZ 0)).

Definition augment (m : t) (b : list num) : list (list num) :=
  imap (fun i row => row ++ [default nan (b !! i)]) (data m).

(** [solve(b)]: the solution or [null], and the trace of the elimination
    as pairs of a title and a content. *)
Definition solve (m : t) (b : list num)
  : option (list num) * list (string * string) :=
  let n := rows m in
  let augmented := augment m b in
  let steps := [("Matriz aumentada inicial:", formatAugmented augmented)] in
  match forward (seq 0 n) n (augmented, steps) with
  | inr steps => (None, steps)
  | inl (augmented, steps) =>
      let steps := steps ++ [("Matriz escalonada:", formatAugmented augmented)] in
      let x := backSubstitution augmented n in
      let steps :=
        steps ++ [("Sustitución hacia atrás:",
                   join nl (imap (fun idx val =>
                                    "x" +:+ pretty (idx + 1)%nat +:+ " = "
                                    +:+ toFixed val 6) x))] in
      (Some x, steps)
  end.

End WithNumber.
Arguments t num : clear implicits.
End Matrix.

(** ** The circuit description *)

Record Node := { n_id : string; n_name : string }.

Inductive ComponentType := Resistor | VoltageSource | CurrentSource.

#[export] Instance ComponentType_eq_dec : EqDecision ComponentType.
Proof. solve_decision. Defined.

Inductive Method := nodal | mesh.

Record Step := {
  title : string;
  description : string;
  equations : option (list string);
  matrix : option (list (list string));
  result : option string
}.

Definition groundNode : string := "gnd".

(** The property names every object literal inherits from
    [Object.prototype]: looked up in the table of [convertToOhms] they
    yield a function or an object, not [undefined]. *)
Definition inheritedKeys : list string :=
  ["constructor"; "hasOwnProperty"; "isPrototypeOf"; "propertyIsEnumerable";
   "toLocaleString"; "toString"; "valueOf"; "__defineGetter__";
   "__defineSetter__"; "__lookupGetter__"; "__lookupSetter__"; "__proto__"].

Section Engine.
Context {num : Type} `{Number num}.
Local Open Scope num_scope.

Record Component := {
  c_id : string;
  c_type : ComponentType;
  c_nodes : string * string;
  c_value : num;
  c_unit : string
}.

Record Circuit := {
  name : string;
  nodes : list Node;
  components : list Component;
  method : Method
}.

(** [value * (conversions[unit] || 1)]: the four units of the table scale,
    a key the object does not have reads [undefined] and scales by 1, and
    a key inherited from [Object.prototype] multiplies by a function or an
    object, which is NaN. *)
Definition convertToOhms (value : num) (unit : string) : num :=
  if decide (unit = "Ω") then value * ofZ 1
  else if decide (unit = "kΩ") then value * ofZ 1000
  else if decide (unit = "MΩ") then value * ofZ 1000000
  else if decide (unit = "mΩ") then value * milli
  else if decide (unit ∈ inheritedKeys) then nan
  else value * ofZ 1.

(** [{ ...r, R, G }]. *)
Record Conductance := { g_comp : Component; g_R : num; g_G : num }.

(** [{ ...comp, voltage, current, power }]. *)
Record ComponentResult := {
  r_comp : Component;
  voltage : num;
  current : num;
  power : num
}.

Inductive Result :=
| Success (voltages : gmap string num) (componentResults : list ComponentResult)
          (steps : list Step) (method : string)
| Failure (error : string) (steps : list Step)
| TypeError.

Definition unknownNodes (circuit : Circuit) : list Node :=
  filter (fun n => n_id n <> groundNode) (nodes circuit).

(** [new Map(nodes.map((n, i) => [n.id, i]))]: a later entry replaces an
    earlier one of the same key. *)
Definition nodeMapOf (ns : list Node) : gmap string nat :=
  fold_left (fun m '(i, n) => <[n_id n := i]> m) (indexed ns) ∅.

Definition voltageSourcesOf (circuit : Circuit) : list Component :=
  filter (fun c => c_type c = VoltageSource) (components circuit).

Definition resistorsOf (circuit : Circuit) : list Component :=
  filter (fun c => c_type c = Resistor) (components circuit).

Definition conductancesOf (circuit : Circuit) : list Conductance :=
  map (fun r => let R := convertToOhms (c_value r) (c_unit r) in
                {| g_comp := r; g_R := R; g_G := ofZ 1 / R |})
      (resistorsOf circuit).

(** [V${i + 1}] for an index that may be [undefined]. *)
Definition indexLabel (i : option nat) : string :=
  match i with Some i => pretty (i + 1)%nat | None => "NaN" end.

(** *** Assembly: the rows of the nodes *)

(** The body of [conductances.forEach] for the node [node] of index [idx]. *)
Definition stampConductance (nodeMap : gmap string nat) (node : Node) (idx : nat)
    (st : Matrix.t num * list string) (c : Conductance)
  : option (Matrix.t num * list string) :=
  let '(A, terms) := st in
  let '(nodeA, nodeB) := c_nodes (g_comp c) in
  if decide (nodeA = n_id node \/ nodeB = n_id node) then
    let otherNode := if decide (nodeA = n_id node) then nodeB else nodeA in
    if decide (otherNode = groundNode) then
      let terms := terms ++ ["G" +:+ c_id (g_comp c) +:+ "·V" +:+ pretty (idx + 1)%nat] in
      A ← Matrix.add A idx idx (g_G c);
      Some (A, terms)
    else
      let otherIdx := nodeMap !! otherNode in
      let terms := terms ++ ["G" +:+ c_id (g_comp c) +:+ "·(V" +:+ pretty (idx + 1)%nat
                               +:+ " - V" +:+ indexLabel otherIdx +:+ ")"] in
      A ← Matrix.add A idx idx (g_G c);
      A ← match otherIdx with
          | Some otherIdx => Matrix.add A idx otherIdx (- g_G c)
          | None => Some A
          end;
      Some (A, terms)
  else Some st.

(** The body of [voltageSources.forEach] inside the row of a node. *)
Definition stampSourceColumn (numNodes : nat) (node : Node) (idx : nat)
    (st : Matrix.t num * list string) (v : nat * Component)
  : option (Matrix.t num * list string) :=
  let '(A, terms) := st in
  let '(vsIdx, vs) := v in
  let '(posNode, negNode) := c_nodes vs in
  if decide (posNode = n_id node) then
    let terms := terms ++ ["+I" +:+ pretty (vsIdx + 1)%nat] in
    A ← Matrix.set A idx (numNodes + vsIdx) (ofZ 1);
    Some (A, terms)
  else if decide (negNode = n_id node) then
    let terms := terms ++ ["-I" +:+ pretty (vsIdx + 1)%nat] in
    A ← Matrix.set A idx (numNodes + vsIdx) (ofZ (-1));
    Some (A, terms)
  else Some st.

(** The body of [nodes.forEach]. *)
Definition stampNode (nodeMap : gmap string nat) (numNodes : nat)
    (conductances : list Conductance) (voltageSources : list Component)
    (st : Matrix.t num * list string) (n : nat * Node)
  : option (Matrix.t num * list string) :=
  let '(A, nodeEquations) := st in
  let '(idx, node) := n in
  '(A, terms) ← foldM (stampConductance nodeMap node idx) (A, []) conductances;
  '(A, terms) ← foldM (stampSourceColumn numNodes node idx) (A, terms)
                      (indexed voltageSources);
  Some (A, nodeEquations ++ ["Nodo " +:+ n_id node +:+ ": " +:+ join " " terms +:+ " = 0"]).

(** *** Assembly: the rows of the voltage sources *)

(** [posNode === groundNode ? -1 : nodeMap.get(posNode)!], kept with the
    test [>= 0] that follows it: ground and a missing node both fail it. *)
Definition terminalIndex (nodeMap : gmap string nat) (node : string) : option nat :=
  if decide (node = groundNode) then None else nodeMap !! node.

(** The body of the second [voltageSources.forEach]. *)
Definition stampSourceRow (nodeMap : gmap string nat) (numNodes : nat)
    (st : Matrix.t num * list num * list string) (v : nat * Component)
  : option (Matrix.t num * list num * list string) :=
  let '(A, b, nodeEquations) := st in
  let '(i, vs) := v in
  let '(posNode, negNode) := c_nodes vs in
  let equation := "Fuente " +:+ c_id vs +:+ ": " in
  '(A, equation) ←
    match terminalIndex nodeMap posNode, terminalIndex nodeMap negNode with
    | Some posIdx, Some negIdx =>
        A ← Matrix.set A (numNodes + i) posIdx (ofZ 1);
        A ← Matrix.set A (numNodes + i) negIdx (ofZ (-1));
        Some (A, equation +:+ "V" +:+ pretty (posIdx + 1)%nat +:+ " - V"
                   +:+ pretty (negIdx + 1)%nat +:+ " = " +:+ toStr (c_value vs) +:+ " V")
    | Some posIdx, None =>
        A ← Matrix.set A (numNodes + i) posIdx (ofZ 1);
        Some (A, equation +:+ "V" +:+ pretty (posIdx + 1)%nat +:+ " = "
                   +:+ toStr (c_value vs) +:+ " V")
    | None, Some negIdx =>
        A ← Matrix.set A (numNodes + i) negIdx (ofZ (-1));
        Some (A, equation +:+ "-V" +:+ pretty (negIdx + 1)%nat +:+ " = "
                   +:+ toStr (c_value vs) +:+ " V")
    | None, None => Some (A, equation)
    end;
  b ← writeAt b (numNodes + i) (c_value vs);
  Some (A, b, nodeEquations ++ [equation]).

(** The linear system of a circuit with the equations of its trace:
    step 3 of the source up to the push of its record. *)
Definition assemble (circuit : Circuit)
  : option (Matrix.t num * list num * list string) :=
  let nodes := unknownNodes circuit in
  let nodeMap := nodeMapOf nodes in
  let numNodes := length nodes in
  let voltageSources := voltageSourcesOf circuit in
  let matrixSize := (numNodes + length voltageSources)%nat in
  let A := Matrix.new matrixSize matrixSize (ofZ 0) in
  let b := replicate matrixSize (ofZ 0) in
  '(A, nodeEquations) ←
    foldM (stampNode nodeMap numNodes (conductancesOf circuit) voltageSources)
          (A, []) (indexed nodes);
  foldM (stampSourceRow nodeMap numNodes) (A, b, nodeEquations)
        (indexed voltageSources).

(** *** The eight steps of the analysis *)

Definition mkStep (title description : string) (equations : option (list string))
    (matrix : option (list (list string))) : Step :=
  {| title := title; description := description; equations := equations;
     matrix := matrix; result := None |}.

Definition step1 (circuit : Circuit) : Step :=
  let totalNodes := length (nodes circuit) in
  let nodes := unknownNodes circuit in
  let voltageSources := voltageSourcesOf circuit in
  mkStep "1. IDENTIFICACIÓN Y ANÁLISIS DEL CIRCUITO"
    ("Método: Análisis Nodal Modificado (MNA)" +:+ nl +:+
     "Nodos totales: " +:+ pretty totalNodes +:+ nl +:+
     "Nodos incógnita: " +:+ pretty (length nodes) +:+ " (excluyendo tierra)" +:+ nl +:+
     "Fuentes de voltaje: " +:+ pretty (length voltageSources) +:+ nl +:+
     "Resistencias: " +:+ pretty (length (resistorsOf circuit)) +:+ nl +:+
     nl +:+
     "Variables a resolver:" +:+ nl +:+
     join nl (imap (fun i n => "  V" +:+ pretty (i + 1)%nat +:+ " (voltaje en nodo "
                               +:+ n_id n +:+ ")") nodes) +:+ nl +:+
     join nl (imap (fun i vs => "  I" +:+ pretty (i + 1)%nat +:+ " (corriente en "
                                +:+ c_id vs +:+ ")") voltageSources))
    (Some []) None.

Definition step2 (circuit : Circuit) : Step :=
  mkStep "2. CONVERSIÓN A CONDUCTANCIAS"
    "Convertimos las resistencias a conductancias (G = 1/R):"
    (Some (map (fun c => c_id (g_comp c) +:+ ": R = " +:+ toStr (c_value (g_comp c))
                         +:+ " " +:+ c_unit (g_comp c) +:+ " = " +:+ toFixed (g_R c) 4
                         +:+ " Ω  →  G = " +:+ toFixed (g_G c) 8 +:+ " S")
               (conductancesOf circuit)))
    None.

Definition step3 (nodeEquations : list string) : Step :=
  mkStep "3. PLANTEAMIENTO DE ECUACIONES NODALES"
    "Aplicando la Ley de Corrientes de Kirchhoff (KCL):"
    (Some nodeEquations) None.

Definition step4 (A : Matrix.t num) (b : list num) : Step :=
  let matrixDisplay :=
    imap (fun i row =>
            "[" +:+ join " " (map (fun v => padStart 10 (toFixed v 4)) row)
            +:+ "] [x" +:+ pretty (i + 1)%nat +:+ "] = ["
            +:+ toFixed (default nan (b !! i)) 4 +:+ "]")
         (Matrix.toArray A) in
  mkStep "4. SISTEMA MATRICIAL [A][x] = [b]"
    "Representación matricial del sistema de ecuaciones:"
    None (Some [matrixDisplay]).

Definition step5 (solutionSteps : list (string * string)) : Step :=
  mkStep "5. RESOLUCIÓN POR ELIMINACIÓN GAUSSIANA"
    "Aplicando eliminación Gaussiana con pivoteo parcial:"
    (Some (map (fun '(title, content) => title +:+ nl +:+ content) solutionSteps))
    None.

(** [solution[i]]; the solution has one entry per unknown, so the engine
    reads inside it. *)
Definition solutionAt (solution : list num) (i : nat) : num :=
  default nan (solution !! i).

(** [voltages.set(groundNode, 0)] and then one [set] per unknown node. *)
Definition voltagesOf (ns : list Node) (solution : list num) : gmap string num :=
  fold_left (fun m '(i, n) => <[n_id n := solutionAt solution i]> m)
            (indexed ns) (<[groundNode := ofZ 0]> ∅).

Definition step6 (circuit : Circuit) (solution : list num) : Step :=
  let nodes := unknownNodes circuit in
  let numNodes := length nodes in
  let voltageSources := voltageSourcesOf circuit in
  let voltageResults :=
    "Voltaje en tierra (referencia): 0.0000 V"
    :: imap (fun i n => "Voltaje en " +:+ n_id n +:+ ": V" +:+ pretty (i + 1)%nat
                        +:+ " = " +:+ toFixed (solutionAt solution i) 4 +:+ " V")
            nodes in
  let voltageResults :=
    if decide (0 < length voltageSources) then
      voltageResults
      ++ (nl +:+ "Corrientes en fuentes de voltaje:")
      :: imap (fun i vs =>
                 "Corriente en " +:+ c_id vs +:+ ": I" +:+ pretty (i + 1)%nat +:+ " = "
                 +:+ toFixed (solutionAt solution (numNodes + i)) 4 +:+ " A = "
                 +:+ toFixed (solutionAt solution (numNodes + i) * ofZ 1000) 4 +:+ " mA")
              voltageSources
    else voltageResults in
  mkStep "6. INTERPRETACIÓN DE RESULTADOS"
    "Valores de voltajes y corrientes obtenidos:"
    (Some voltageResults) None.

(** [vA - vB] for two values read from the map, either of which may be
    [undefined]. *)
Definition difference (vA vB : option num) : num :=
  match vA, vB with
  | Some a, Some b => a - b
  | _, _ => nan
  end.

(** [voltageSources.findIndex(vs => vs.id === comp.id)]. *)
Fixpoint findIndex (id : string) (l : list Component) : option nat :=
  match l with
  | [] => None
  | vs :: rest => if decide (c_id vs = id) then Some O else S <$> findIndex id rest
  end.

(** The body of [circuit.components.map] of step 7. *)
Definition componentResult (circuit : Circuit) (voltages : gmap string num)
    (solution : list num) (comp : Component) : ComponentResult :=
  let '(nA, nB) := c_nodes comp in
  let voltage := difference (voltages !! nA) (voltages !! nB) in
  let current :=
    match c_type comp with
    | Resistor => voltage / convertToOhms (c_value comp) (c_unit comp)
    | VoltageSource =>
        match findIndex (c_id comp) (voltageSourcesOf circuit) with
        | Some vsIdx => solutionAt solution (length (unknownNodes circuit) + vsIdx)
        | None => ofZ 0
        end
    | CurrentSource => ofZ 0
    end in
  {| r_comp := comp; voltage := voltage; current := current;
     power := nabs (voltage * current) |}.

(** The text of one component in step 7.  For a resistor it prints the two
    terminal potentials, and [toFixed] of an [undefined] one raises a
    TypeError. *)
Definition componentCalc (voltages : gmap string num) (comp : ComponentResult)
  : option string :=
  match c_type (r_comp comp) with
  | Resistor =>
      let '(nA, nB) := c_nodes (r_comp comp) in
      vA ← voltages !! nA;
      vB ← voltages !! nB;
      let R := convertToOhms (c_value (r_comp comp)) (c_unit (r_comp comp)) in
      Some (c_id (r_comp comp) +:+ " (" +:+ nA +:+ " → " +:+ nB +:+ "):" +:+ nl +:+
            "  V = V(" +:+ nA +:+ ") - V(" +:+ nB +:+ ") = " +:+ toFixed vA 4 +:+ " - "
              +:+ toFixed vB 4 +:+ " = " +:+ toFixed (voltage comp) 4 +:+ " V" +:+ nl +:+
            "  I = V/R = " +:+ toFixed (voltage comp) 4 +:+ " / " +:+ toFixed R 4
              +:+ " = " +:+ toFixed (current comp) 6 +:+ " A = "
              +:+ toFixed (current comp * ofZ 1000) 4 +:+ " mA" +:+ nl +:+
            "  P = V × I = " +:+ toFixed (voltage comp) 4 +:+ " × "
              +:+ toFixed (current comp) 6 +:+ " = " +:+ toFixed (power comp) 6 +:+ " W")
  | _ =>
      Some (c_id (r_comp comp) +:+ ":" +:+ nl +:+
            "  V = " +:+ toFixed (voltage comp) 4 +:+ " V" +:+ nl +:+
            "  I = " +:+ toFixed (current comp) 6 +:+ " A = "
              +:+ toFixed (current comp * ofZ 1000) 4 +:+ " mA" +:+ nl +:+
            "  P = " +:+ toFixed (power comp) 6 +:+ " W")
  end.

Definition step7 (componentCalcs : list string) : Step :=
  mkStep "7. CÁLCULO DE CORRIENTES Y POTENCIAS"
    "Usando la Ley de Ohm (I = V/R) y P = V × I:"
    (Some componentCalcs) None.

(** [componentResults.filter(c => c.type === ty).reduce((sum, c) => sum + c.power, 0)]. *)
Definition totalPower (ty : ComponentType) (componentResults : list ComponentResult)
  : num :=
  fold_left (fun sum c => sum + power c)
            (filter (fun c => c_type (r_comp c) = ty) componentResults) (ofZ 0).

Definition balanceOk : string := "✓ Balance de energía verificado".
Definition balanceFail : string := "⚠ Revisar balance de energía".

(** The last line of the verification: the marker of the energy balance. *)
Definition balanceMarker (totalPowerSupplied totalPowerDissipated : num) : string :=
  if totalPowerSupplied - totalPowerDissipated <? milli
  then balanceOk else balanceFail.

Definition step8 (componentResults : list ComponentResult) : Step :=
  let totalPowerDissipated := totalPower Resistor componentResults in
  let totalPowerSupplied := totalPower VoltageSource componentResults in
  let line c := "  " +:+ c_id (r_comp c) +:+ ": " +:+ toFixed (power c) 6 +:+ " W" in
  let verificationEquations :=
    "Potencia total disipada en resistencias:"
    :: map line (filter (fun c => c_type (r_comp c) = Resistor) componentResults)
    ++ ("  TOTAL DISIPADO: " +:+ toFixed totalPowerDissipated 6 +:+ " W")
    :: ""
    :: "Potencia total suministrada por fuentes:"
    :: map line (filter (fun c => c_type (r_comp c) = VoltageSource) componentResults)
    ++ ("  TOTAL SUMINISTRADO: " +:+ toFixed totalPowerSupplied 6 +:+ " W")
    :: ""
    :: ("Diferencia: "
        +:+ toFixed (nabs (totalPowerSupplied - totalPowerDissipated)) 6 +:+ " W")
    :: [balanceMarker totalPowerSupplied totalPowerDissipated] in
  mkStep "8. VERIFICACIÓN DE RESULTADOS"
    "Verificación del balance de energía (Conservación de la energía):"
    (Some verificationEquations) None.

Definition singularMessage : string := "El sistema no tiene solución única".

Definition analyzeNodalMethod (circuit : Circuit) : Result :=
  match assemble circuit with
  | None => TypeError
  | Some (A, b, nodeEquations) =>
      let steps := [step1 circuit; step2 circuit; step3 nodeEquations; step4 A b] in
      match Matrix.solve A b with
      | (None, solutionSteps) => Failure singularMessage steps
      | (Some solution, solutionSteps) =>
          let steps := steps ++ [step5 solutionSteps] in
          let voltages := voltagesOf (unknownNodes circuit) solution in
          let steps := steps ++ [step6 circuit solution] in
          let componentResults :=
            map (componentResult circuit voltages solution) (components circuit) in
          match mapM (componentCalc voltages) componentResults with
          | None => TypeError
          | Some componentCalcs =>
              let steps := steps ++ [step7 componentCalcs] in
              let steps := steps ++ [step8 componentResults] in
              Success voltages componentResults steps "Nodal"
          end
      end
  end.

End Engine.

Arguments Component num : clear implicits.
Arguments Circuit num : clear implicits.
Arguments Conductance num : clear implicits.
Arguments ComponentResult num : clear implicits.
Arguments Result num : clear implicits.

(** ** The matrix as an object in the heap

    [Matrix.solve] above works on values.  Whether [solve] leaves the
    matrix of its caller alone is a question about arrays that are shared
    or copied, so the class is modelled a second time with its arrays in a
    heap: [this.data] is the address of an array of row addresses, and a
    row is an array of numbers.  [MatrixObj.solve] follows the same source
    lines as [Matrix.solve], reading and writing through addresses. *)
Module MatrixObj.
Section WithNumber.
Context {num : Type} `{Number num}.
Local Open Scope num_scope.

(** The arrays of numbers and the arrays of rows, each by address; [new]
    arrays are appended. *)
Record Heap := { numArrays : list (list num); rowArrays : list (list nat) }.

Record t := { data : nat; rows : nat; cols : nat }.

Definition allocNums (h : Heap) (a : list num) : nat * Heap :=
  (length (numArrays h),
   {| numArrays := numArrays h ++ [a]; rowArrays := rowArrays h |}).

Definition allocRows (h : Heap) (a : list nat) : nat * Heap :=
  (length (rowArrays h),
   {| numArrays := numArrays h; rowArrays := rowArrays h ++ [a] |}).

Definition rowsAt (h : Heap) (a : nat) : list nat := default [] (rowArrays h !! a).
Definition numsAt (h : Heap) (l : nat) : list num := default [] (numArrays h !! l).

(** [m[r][c]] for the array of rows at address [a]. *)
Definition cell (h : Heap) (a r c : nat) : num :=
  default nan (l ← rowsAt h a !! r; numsAt h l !! c).

(** [m[r][c] = v]: a write into the row object that [m[r]] refers to. *)
Definition setCell (h : Heap) (a r c : nat) (v : num) : Heap :=
  match rowsAt h a !! r with
  | Some l => {| numArrays := <[l := <[c := v]> (numsAt h l)]> (numArrays h);
                 rowArrays := rowArrays h |}
  | None => h
  end.

(** [[m[i], m[maxRow]] = [m[maxRow], m[i]]]: the two references trade
    places in the array of rows; no row object changes. *)
Definition swapRows (h : Heap) (a i maxRow : nat) : Heap :=
  let rs := rowsAt h a in
  match rs !! i, rs !! maxRow with
  | Some li, Some lm =>
      {| numArrays := numArrays h;
         rowArrays := <[a := <[maxRow := li]> (<[i := lm]> rs)]> (rowArrays h) |}
  | _, _ => h
  end.

(** The rows that the array at [a] refers to, as values. *)
Definition snapshot (h : Heap) (a : nat) : list (list num) :=
  map (numsAt h) (rowsAt h a).

Definition get (h : Heap) (m : t) (row col : nat) : option num :=
  l ← rowsAt h (data m) !! row; numsAt h l !! col.

(** [this.data.map((row, i) => [...row, b[i]])]: one new row object per
    row, then the new array of them. *)
Definition augment (h : Heap) (m : t) (b : list num) : nat * Heap :=
  let '(ls, h) :=
    fold_left
      (fun '(ls, h) '(i, l) =>
         let '(l', h) := allocNums h (numsAt h l ++ [default nan (b !! i)]) in
         (ls ++ [l'], h))
      (indexed (rowsAt h (data m))) ([], h) in
  allocRows h ls.

(** [new Matrix(rows, cols, initialValue)]:
    [Array(rows).fill(0).map(() => Array(cols).fill(initialValue))] fills
    an array of [rows] zeros and maps it to one new row per element. *)
Definition new (h : Heap) (rows cols : nat) (initialValue : num)
  : t * Heap :=
  let '(_, h) := allocNums h (replicate rows (ofZ 0)) in
  let '(ls, h) :=
    fold_left
      (fun '(ls, h) (_ : num) =>
         let '(l, h) := allocNums h (replicate cols initialValue) in
         (ls ++ [l], h))
      (replicate rows (ofZ 0)) ([], h) in
  let '(a, h) := allocRows h ls in
  ({| data := a; rows := rows; cols := cols |}, h).

(** [this.data.map(row => [...row])]: a new array of new rows. *)
Definition toArray (h : Heap) (m : t) : nat * Heap :=
  let '(ls, h) :=
    fold_left
      (fun '(ls, h) l =>
         let '(l', h) := allocNums h (numsAt h l) in
         (ls ++ [l'], h))
      (rowsAt h (data m)) ([], h) in
  allocRows h ls.

Definition findPivot (h : Heap) (a i n : nat) : nat :=
  fold_left
    (fun maxRow k => if nabs (cell h a k i) >? nabs (cell h a maxRow i)
                     then k else maxRow)
    (seq (i + 1) (n - (i + 1))) i.

Definition eliminateRow (h : Heap) (a i k n : nat) (factor : num) : Heap :=
  fold_left
    (fun h j => setCell h a k j (cell h a k j - factor * cell h a i j))
    (seq i (n + 1 - i)) h.

Definition eliminate (a i n : nat) (st : Heap * list (string * string))
  : Heap * list (string * string) :=
  fold_left
    (fun '(h, steps) k =>
       let factor := cell h a k i / cell h a i i in
       if nabs factor >? tol then
         let h' := eliminateRow h a i k n factor in
         (h', steps ++ [Matrix.eliminationStep (snapshot h' a) i k factor])
       else (h, steps))
    (seq (i + 1) (n - (i + 1))) st.

Definition pivot (a i n : nat) (st : Heap * list (string * string))
  : Heap * list (string * string) :=
  let '(h, steps) := st in
  let maxRow := findPivot h a i n in
  if decide (maxRow <> i) then
    let h' := swapRows h a i maxRow in
    (h', steps ++ [Matrix.swapStep (snapshot h' a) i maxRow])
  else (h, steps).

Fixpoint forward (a : nat) (stages : list nat) (n : nat)
    (st : Heap * list (string * string))
  : Heap * list (string * string) + Heap * list (string * string) :=
  match stages with
  | [] => inl st
  | i :: rest =>
      let '(h, steps) := pivot a i n st in
      if nabs (cell h a i i) <? tol then inr (h, steps)
      else forward a rest n (eliminate a i n (h, steps))
  end.

(** The solution vector [x] is a new array that only [solve] holds until
    it returns it; it is kept as a value. *)
Definition backRow (h : Heap) (a n : nat) (x : list num) (i : nat) : list num :=
  let x1 := <[i := cell h a i n]> x in
  let x2 := fold_left
              (fun x j => <[i := Matrix.xval x i - cell h a i j * Matrix.xval x j]> x)
              (seq (i + 1) (n - (i + 1))) x1 in
  <[i := Matrix.xval x2 i / cell h a i i]> x2.

Definition backSubstitution (h : Heap) (a n : nat) : list num :=
  fold_left (backRow h a n) (rev (seq 0 n)) (replicate n (ofZ 0)).

(** [solve(b)] run in the heap [h]: its result and the heap it leaves. *)
Definition solve (h : Heap) (m : t) (b : list num)
  : (option (list num) * list (string * string)) * Heap :=
  let n := rows m in
  let '(augmented, h) := augment h m b in
  let steps := [("Matriz aumentada inicial:",
                 Matrix.formatAugmented (snapshot h augmented))] in
  match forward augmented (seq 0 n) n (h, steps) with
  | inr (h, steps) => ((None, steps), h)
  | inl (h, steps) =>
      let steps := steps ++ [("Matriz escalonada:",
                              Matrix.formatAugmented (snapshot h augmented))] in
      let x := backSubstitution h augmented n in
      let steps :=
        steps ++ [("Sustitución hacia atrás:",
                   join nl (imap (fun idx val =>
                                    "x" +:+ pretty (idx + 1)%nat +:+ " = "
                                    +:+ toFixed val 6) x))] in
      ((Some x, steps), h)
  end.

(** The matrix that the object [m] holds in the heap [h], as a value. *)
Definition load (h : Heap) (m : t) : Matrix.t num :=
  {| Matrix.data := snapshot h (data m); Matrix.rows := rows m; Matrix.cols := cols m |}.

(** [h'] holds every array of [h], unchanged, at its address. *)
Definition extends (h h' : Heap) : Prop :=
  numArrays h `prefix_of` numArrays h' /\ rowArrays h `prefix_of` rowArrays h'.

(** The object [m] exists in [h]: its array of rows and its rows do. *)
Definition allocated (h : Heap) (m : t) : Prop :=
  (data m < length (rowArrays h))%nat
  /\ Forall (fun l => (l < length (numArrays h))%nat) (rowsAt h (data m)).

(** The array of rows at [a] holds distinct, existing rows whose values
    are the rows of [aug]. *)
Definition represents (h : Heap) (a : nat) (aug : list (list num)) : Prop :=
  snapshot h a = aug
  /\ NoDup (rowsAt h a)
  /\ (a < length (rowArrays h))%nat
  /\ Forall (fun l => (l < length (numArrays h))%nat) (rowsAt h a).

(** Two states of the solver, in the heap and on values, that agree. *)
Definition agree (a : nat) (st : Heap * list (string * string))
    (st' : list (list num) * list (string * string)) : Prop :=
  represents st.1 a st'.1 /\ st.2 = st'.2.

(** The array of rows at [a] and the rows it refers to were all created
    after the heap [h0], which [h] extends. *)
Definition fresh (h0 : Heap) (a : nat) (h : Heap) : Prop :=
  extends h0 h
  /\ (length (rowArrays h0) <= a)%nat
  /\ Forall (fun l => (length (numArrays h0) <= l)%nat) (rowsAt h a).

End WithNumber.
Arguments Heap num : clear implicits.
End MatrixObj.

(** ** Vocabulary of the statements *)

(** The map [m] after one entry per node of [ns] is set, in the order of
    the list, the node of index [i] (counted from [k]) to [f i]: the shape
    of [nodeMapOf] and [voltagesOf]. *)
Definition insertNodes {V : Type} (f : nat -> V) (k : nat) (ns : list Node)
    (m : gmap string V) : gmap string V :=
  fold_left (fun m '(i, n) => <[n_id n := f i]> m) (indexedFrom k ns) m.

Section Vocabulary.
Context {num : Type} `{Number num}.
Local Open Scope num_scope.

(** The entry [A[r][c]] of a matrix, as a number. *)
Definition entry (m : Matrix.t num) (r c : nat) : num :=
  Matrix.cell (Matrix.data m) r c.

(** An [N] by [N] matrix, as [new Matrix(N, N)] builds it. *)
Definition square (N : nat) (m : Matrix.t num) : Prop :=
  Matrix.rows m = N /\ Matrix.cols m = N /\ length (Matrix.data m) = N
  /\ Forall (fun r => length r = N) (Matrix.data m).

(** What [stampConductance] does to the entry of column [col] in the row
    [idx] of the node [node], [acc] being the entry before. *)
Definition conductanceStamp (nodeMap : gmap string nat) (node : Node)
    (idx col : nat) (acc : num) (c : Conductance num) : num :=
  let '(nodeA, nodeB) := c_nodes (g_comp c) in
  if decide (nodeA = n_id node \/ nodeB = n_id node) then
    let otherNode := if decide (nodeA = n_id node) then nodeB else nodeA in
    let acc := if decide (col = idx) then acc + g_G c else acc in
    if decide (otherNode = groundNode) then acc
    else match nodeMap !! otherNode with
         | Some otherIdx => if decide (col = otherIdx) then acc + - g_G c else acc
         | None => acc
         end
  else acc.

(** The resistor of [c] lies between the nodes [a] and [b], either way
    round; it has a terminal at [a]. *)
Definition joins (c : Conductance num) (a b : string) : Prop :=
  c_nodes (g_comp c) = (a, b) \/ c_nodes (g_comp c) = (b, a).

Definition touches (c : Conductance num) (a : string) : Prop :=
  (c_nodes (g_comp c)).1 = a \/ (c_nodes (g_comp c)).2 = a.

(** The conductance of a resistor: one over its resistance in ohms. *)
Definition conductance (r : Component num) : num :=
  ofZ 1 / convertToOhms (c_value r) (c_unit r).

(** A resistor of the circuit between the nodes [a] and [b], either way
    round; a resistor with a terminal at [a]. *)
Definition resistorBetween (r : Component num) (a b : string) : Prop :=
  c_type r = Resistor /\ (c_nodes r = (a, b) \/ c_nodes r = (b, a)).

Definition resistorAt (r : Component num) (a : string) : Prop :=
  c_type r = Resistor /\ ((c_nodes r).1 = a \/ (c_nodes r).2 = a).

(** The mutual term of two nodes: [-G] added for each resistor of the
    circuit between them, in the order of the component list. *)
Definition mutualStamps (circuit : Circuit num) (a b : string) : num :=
  fold_left
    (fun acc r => if decide (resistorBetween r a b) then acc + - conductance r else acc)
    (components circuit) (ofZ 0).

(** The self term of a node: [+G] added for each resistor of the circuit
    with a terminal at it (a resistor from the node to itself then also
    adds [-G]). *)
Definition selfStamps (circuit : Circuit num) (a : string) : num :=
  fold_left
    (fun acc r =>
       if decide (resistorAt r a) then
         if decide (c_nodes r = (a, a)) then acc + conductance r + - conductance r
         else acc + conductance r
       else acc)
    (components circuit) (ofZ 0).

(** The titles of the eight phases, in the order of the analysis. *)
Definition phaseTitles : list string :=
  ["1. IDENTIFICACIÓN Y ANÁLISIS DEL CIRCUITO";
   "2. CONVERSIÓN A CONDUCTANCIAS";
   "3. PLANTEAMIENTO DE ECUACIONES NODALES";
   "4. SISTEMA MATRICIAL [A][x] = [b]";
   "5. RESOLUCIÓN POR ELIMINACIÓN GAUSSIANA";
   "6. INTERPRETACIÓN DE RESULTADOS";
   "7. CÁLCULO DE CORRIENTES Y POTENCIAS";
   "8. VERIFICACIÓN DE RESULTADOS"].

(** The solver reaches stage [i] and finds, after its pivoting, a pivot
    below the tolerance; [trace] is the trace of the solver at that point. *)
Definition singularAtStage (A : Matrix.t num) (b : list num) (i : nat)
    (trace : list (string * string)) : Prop :=
  (i < Matrix.rows A)%nat
  /\ exists st aug,
      Matrix.forward (seq 0 i) (Matrix.rows A)
        (Matrix.augment A b,
         [("Matriz aumentada inicial:", Matrix.formatAugmented (Matrix.augment A b))])
      = inl st
      /\ Matrix.pivot i (Matrix.rows A) st = (aug, trace)
      /\ (nabs (Matrix.cell aug i i) <? tol) = true.

(** A record of the solver as step 5 of a successful analysis shows it. *)
Definition renderRecord (rec : string * string) : string :=
  rec.1 +:+ nl +:+ rec.2.

Definition recorded (steps : list Step) (rec : string * string) : bool :=
  existsb (fun st => match equations st with
                     | Some eqs => bool_decide (renderRecord rec ∈ eqs)
                     | None => false
                     end) steps.

(** The circuit without its current sources. *)
Definition withoutCurrentSources (circuit : Circuit num) : Circuit num :=
  {| name := name circuit; nodes := nodes circuit;
     components := filter (fun c => c_type c <> CurrentSource) (components circuit);
     method := method circuit |}.

(** The marker that closes the verification step of a result. *)
Definition verificationMarker (r : Result num) : option string :=
  match r with
  | Success _ _ steps _ => st ← last steps; eqs ← equations st; last eqs
  | _ => None
  end.

(** Readers of a result. *)
Definition succeeded (r : Result num) : bool :=
  match r with Success _ _ _ _ => true | _ => false end.

Definition potentialAt (r : Result num) (node : string) : option num :=
  match r with Success v _ _ _ => v !! node | _ => None end.

Definition resultsOf (r : Result num) : list (ComponentResult num) :=
  match r with Success _ cr _ _ => cr | _ => [] end.

Definition stepsOf (r : Result num) : list Step :=
  match r with
  | Success _ _ s _ => s
  | Failure _ s => s
  | TypeError => []
  end.

(** The current reported for the component of identifier [id]. *)
Definition currentOf (r : Result num) (id : string) : option num :=
  current <$> head (filter (fun cr => c_id (r_comp cr) = id) (resultsOf r)).

(** *** Circuits of the statements *)

Definition node (id name : string) : Node := {| n_id := id; n_name := name |}.

Definition component (id : string) (ty : ComponentType) (a b : string)
    (value : num) (unit : string) : Component num :=
  {| c_id := id; c_type := ty; c_nodes := (a, b); c_value := value; c_unit := unit |}.

(** Exercise 2 of the program: a 10 V source, 2 kΩ in series with 3 kΩ
    and 2 kΩ in parallel. *)
Definition exercise2 : Circuit num :=
  {| name := "Ejercicio 2: Circuito con fuente y tres resistencias";
     method := nodal;
     nodes := [node "n1" "Nodo 1"; node "n2" "Nodo 2"; node "gnd" "Tierra"];
     components :=
       [component "V1" VoltageSource "n1" "gnd" (ofZ 10) "V";
        component "R1" Resistor "n1" "n2" (ofZ 2) "kΩ";
        component "R2" Resistor "n2" "gnd" (ofZ 3) "kΩ";
        component "R3" Resistor "n2" "gnd" (ofZ 2) "kΩ"] |}.

(** The same components with a node [n3] listed that nothing connects
    to: the three-node ladder of the specification. *)
Definition ladder : Circuit num :=
  {| name := "Ejemplo 2"; method := nodal;
     nodes := [node "n1" "Nodo 1"; node "n2" "Nodo 2"; node "n3" "Nodo 3";
               node "gnd" "Tierra"];
     components := components exercise2 |}.

(** A source of [volts] across one resistor of [value] [unit], between
    [n1] and ground. *)
Definition divider (n1 : string) (volts value : num) (unit : string) : Circuit num :=
  {| name := "Ejemplo 1"; method := nodal;
     nodes := [node n1 "Nodo 1"; node "gnd" "Tierra"];
     components :=
       [component "V1" VoltageSource n1 "gnd" volts "V";
        component "R1" Resistor n1 "gnd" value unit] |}.

(** Exercise 2 with a 1 A current source added across the 3 kΩ. *)
Definition withCurrentSource : Circuit num :=
  {| name := "Ejercicio 2 con fuente de corriente"; method := nodal;
     nodes := nodes exercise2;
     components :=
       components exercise2 ++ [component "I1" CurrentSource "n2" "gnd" (ofZ 1) "A"] |}.

(** A divider whose node list does not name the ground. *)
Definition groundUnlisted : Circuit num :=
  {| name := "Sin tierra"; method := nodal;
     nodes := [node "n1" "Nodo 1"; node "0" "Referencia"];
     components :=
       [component "V1" VoltageSource "n1" "gnd" (ofZ 12) "V";
        component "R1" Resistor "n1" "0" (ofZ 100) "Ω";
        component "R2" Resistor "0" "gnd" (ofZ 200) "Ω"] |}.

(** A circuit of a ground node and one other node [n1], with one voltage
    source [vs] and one resistor [r], both from [n1] to ground; the nodes
    and the components are listed in either order. *)
Definition isDivider (c : Circuit num) (n1 : string) (vs r : Component num) : Prop :=
  n1 <> groundNode
  /\ (map n_id (nodes c) = [n1; groundNode] \/ map n_id (nodes c) = [groundNode; n1])
  /\ (components c = [vs; r] \/ components c = [r; vs])
  /\ c_type vs = VoltageSource /\ c_nodes vs = (n1, groundNode)
  /\ c_type r = Resistor /\ c_nodes r = (n1, groundNode).

(** The matrix of such a circuit for the conductance [G] of its resistor. *)
Definition dividerMatrix (G : num) : Matrix.t num :=
  {| Matrix.data := [[ofZ 0 + G; ofZ 1]; [ofZ 1; ofZ 0]];
     Matrix.rows := 2; Matrix.cols := 2 |}.

(** The two unknowns of such a circuit as the elimination leaves them,
    [G] being the conductance of the resistor and [V] the value of the
    source.  When the pivot search puts the row of the source first, the
    current comes from the row of the resistor less [G/1] times the row of
    the source, and the potential from the row of the source. *)
Definition sourceFirstCurrent (G V : num) : num :=
  (ofZ 0 - (ofZ 0 + G) / ofZ 1 * V) / (ofZ 1 - (ofZ 0 + G) / ofZ 1 * ofZ 0).

Definition sourceFirstPotential (G V : num) : num :=
  (V - ofZ 0 * sourceFirstCurrent G V) / ofZ 1.

(** When the row of the resistor stays first, the current comes from the
    row of the source less [1/G] times the row of the resistor, and the
    potential from the row of the resistor. *)
Definition resistorFirstCurrent (G V : num) : num :=
  (V - ofZ 1 / (ofZ 0 + G) * ofZ 0) / (ofZ 0 - ofZ 1 / (ofZ 0 + G) * ofZ 1).

Definition resistorFirstPotential (G V : num) : num :=
  (ofZ 0 - ofZ 1 * resistorFirstCurrent G V) / (ofZ 0 + G).

(** The tests of the solver on that system: the pivot search moves the
    row of the source up, no pivot is below the tolerance and the factor
    exceeds it; or the row of the resistor stays, likewise. *)
Definition sourceRowFirst (G : num) : bool :=
  (nabs (ofZ 0 + G) <? nabs (ofZ 1))
  && negb (nabs (ofZ 1) <? tol)
  && (tol <? nabs ((ofZ 0 + G) / ofZ 1))
  && negb (nabs (ofZ 1 - (ofZ 0 + G) / ofZ 1 * ofZ 0) <? tol).

Definition resistorRowFirst (G : num) : bool :=
  negb (nabs (ofZ 0 + G) <? nabs (ofZ 1))
  && negb (nabs (ofZ 0 + G) <? tol)
  && (tol <? nabs (ofZ 1 / (ofZ 0 + G)))
  && negb (nabs (ofZ 0 - ofZ 1 / (ofZ 0 + G) * ofZ 1) <? tol).

(** Exercise 2 with a third node behind a resistor of 0 Ω and a current
    source at the node before it. *)
Definition shortedLadder : Circuit num :=
  {| name := "Puente de 0 Ω"; method := nodal;
     nodes := [node "n1" "Nodo 1"; node "n2" "Nodo 2"; node "n3" "Nodo 3";
               node "gnd" "Tierra"];
     components :=
       [component "V1" VoltageSource "n1" "gnd" (ofZ 10) "V";
        component "R1" Resistor "n1" "n2" (ofZ 1) "kΩ";
        component "R2" Resistor "n2" "n3" (ofZ 0) "Ω";
        component "R3" Resistor "n3" "gnd" (ofZ 1) "kΩ";
        component "I1" CurrentSource "n2" "gnd" (ofZ 1) "A"] |}.

(** The trace that the solver returns to the analysis of a circuit. *)
Definition solverTrace (circuit : Circuit num) : list (string * string) :=
  match assemble circuit with
  | Some (A, b, _) => (Matrix.solve A b).2
  | None => []
  end.

(** Two resistances in parallel, and the output of a divider of a source
    [V] over [R1] in series with [Rp]. *)
Definition parallel (Ra Rb : num) : num := Ra * Rb / (Ra + Rb).
Definition dividerFormula (V R1 Rp : num) : num := V * Rp / (R1 + Rp).

(** A matrix object in a heap: the rows [1 1] and [2 3], which the solver
    swaps in its copy. *)
Definition exampleHeap : MatrixObj.Heap num :=
  {| MatrixObj.numArrays := [[ofZ 1; ofZ 1]; [ofZ 2; ofZ 3]];
     MatrixObj.rowArrays := [[0; 1]%nat] |}.

Definition exampleMatrix : MatrixObj.t :=
  {| MatrixObj.data := 0; MatrixObj.rows := 2; MatrixObj.cols := 2 |}.

End Vocabulary.

(** Two sources of the largest binary64, one to each side of the ground,
    and a current source between their nodes. *)
Definition largestSources : Circuit float :=
  {| name := "Dos fuentes"; method := nodal;
     nodes := [node "n1" "Nodo 1"; node "n2" "Nodo 2"; node "gnd" "Tierra"];
     components :=
       [component "V1" VoltageSource "n1" "gnd" 0x1.fffffffffffffp+1023%float "V";
        component "V2" VoltageSource "gnd" "n2" 0x1.fffffffffffffp+1023%float "V";
        component "R1" Resistor "n1" "gnd" (ofZ 1) "kΩ";
        component "R2" Resistor "n2" "gnd" (ofZ 1) "kΩ";
        component "I1" CurrentSource "n1" "n2" (ofZ 1) "A"] |}.

(** ** The page

    [formatValue], the exercises, the state of [CircuitAnalysisPro] with
    its handlers, and the report that [handleExport] writes. *)

(** The length of a string as JavaScript counts it, in UTF-16 code units,
    read off its UTF-8 bytes: a continuation byte adds nothing and the
    lead byte of a four-byte sequence stands for a surrogate pair. *)
Fixpoint utf16Length (s : string) : nat :=
  match s with
  | EmptyString => 0
  | String c s' =>
      let n := Ascii.nat_of_ascii c in
      (if (n <? 128)%nat then 1
       else if (n <? 192)%nat then 0
       else if (n <? 240)%nat then 1 else 2) + utf16Length s'
  end.

(** [s.padEnd(n)] pads with spaces on the right up to [n] code units. *)
Definition padEnd (n : nat) (s : string) : string :=
  s +:+ spaces (n - utf16Length s).

(** [c.repeat(n)]. *)
Definition repeatText (c : string) (n : nat) : string :=
  String.concat "" (replicate n c).

Section Presentation.
Context {num : Type} `{Number num}.
Local Open Scope num_scope.

(** [formatValue]: a value with its unit, a current in milliamperes when
    it is below one. *)
Definition formatValue (value : num) (unit : string) : string :=
  if decide (unit = "V") then toFixed value 4 +:+ " V"
  else if decide (unit = "A" \/ unit = "mA") then
    let inAmperes := if decide (unit = "mA") then value / ofZ 1000 else value in
    if nabs inAmperes <? milli
    then toFixed (inAmperes * ofZ 1000) 4 +:+ " mA"
    else toFixed inAmperes 4 +:+ " A"
  else if decide (unit = "W") then toFixed value 4 +:+ " W"
  else toFixed value 4 +:+ " " +:+ unit.

(** *** The exercises of the program

    The value 1.5 of exercise 5 is written [3 / 2], which is that number
    exactly, in binary64 as in the rationals. *)
Definition exercise1 : Circuit num :=
  {| name := "Ejercicio 1: Circuito con resistencias en serie y paralelo";
     method := nodal;
     nodes := [node "n1" "Nodo 1"; node "n2" "Nodo 2"; node "n3" "Nodo 3";
               node "gnd" "Tierra"];
     components :=
       [component "V1" VoltageSource "n1" "gnd" (ofZ 50) "V";
        component "R1" Resistor "n1" "n2" (ofZ 100) "Ω";
        component "R2" Resistor "n2" "gnd" (ofZ 60) "Ω";
        component "R3" Resistor "n2" "n3" (ofZ 120) "Ω";
        component "R4" Resistor "n3" "gnd" (ofZ 400) "Ω"] |}.

Definition exercise3 : Circuit num :=
  {| name := "Ejercicio 3: Circuito mixto serie-paralelo";
     method := nodal;
     nodes := [node "n1" "Nodo 1"; node "n2" "Nodo 2"; node "n3" "Nodo 3";
               node "gnd" "Tierra"];
     components :=
       [component "V1" VoltageSource "n1" "gnd" (ofZ 24) "V";
        component "R1" Resistor "n1" "n2" (ofZ 5) "kΩ";
        component "R2" Resistor "n2" "n3" (ofZ 4) "kΩ";
        component "R3" Resistor "n3" "gnd" (ofZ 2) "kΩ";
        component "R4" Resistor "n2" "gnd" (ofZ 6) "kΩ";
        component "R5" Resistor "n3" "gnd" (ofZ 4) "kΩ";
        component "R6" Resistor "n3" "gnd" (ofZ 2) "kΩ"] |}.

Definition exercise4 : Circuit num :=
  {| name := "Ejercicio 4: Circuito con múltiples ramas";
     method := nodal;
     nodes := [node "n1" "Nodo 1"; node "n2" "Nodo 2"; node "n3" "Nodo 3";
               node "gnd" "Tierra"];
     components :=
       [component "V1" VoltageSource "n1" "gnd" (ofZ 70) "V";
        component "R1" Resistor "n1" "n2" (ofZ 10) "Ω";
        component "R2" Resistor "n2" "gnd" (ofZ 30) "Ω";
        component "R3" Resistor "n2" "n3" (ofZ 40) "Ω";
        component "R4" Resistor "n3" "gnd" (ofZ 16) "Ω";
        component "R5" Resistor "n3" "gnd" (ofZ 6) "Ω"] |}.

Definition exercise5 : Circuit num :=
  {| name := "Ejercicio 5: Circuito con 12V (Ejercicio específico)";
     method := nodal;
     nodes := [node "n1" "Nodo 1"; node "n2" "Nodo 2"; node "n3" "Nodo 3";
               node "gnd" "Tierra"];
     components :=
       [component "V1" VoltageSource "n1" "gnd" (ofZ 12) "V";
        component "R1" Resistor "n1" "n2" (ofZ 220) "Ω";
        component "R2" Resistor "n2" "gnd" (ofZ 380) "Ω";
        component "R3" Resistor "n2" "n3" (ofZ 1) "kΩ";
        component "R4" Resistor "n3" "gnd" (ofZ 3 / ofZ 2) "kΩ"] |}.

Definition exercises : list (Circuit num) :=
  [exercise1; exercise2; exercise3; exercise4; exercise5].

(** *** The state of the component

    [selectedExercise], [results] and [showSteps] of [CircuitAnalysisPro];
    [results] is [null] or what [analyzeNodalMethod] returned. *)
Record AppState := {
  selectedExercise : nat;
  results : option (Result num);
  showSteps : bool
}.

Definition initialState : AppState :=
  {| selectedExercise := 5; results := None; showSteps := true |}.

(** [exercises[selectedExercise - 1]], [undefined] outside the list. *)
Definition currentCircuit (s : AppState) : option (Circuit num) :=
  if decide (1 <= selectedExercise s)%nat
  then exercises !! (selectedExercise s - 1)%nat else None.

(** [handleAnalyze].  An exception of the analysis leaves the handler
    before [setResults], and the state as it was. *)
Definition handleAnalyze (s : AppState) : AppState :=
  match currentCircuit s with
  | Some circuit =>
      match analyzeNodalMethod circuit with
      | TypeError => s
      | analysisResults =>
          {| selectedExercise := selectedExercise s;
             results := Some analysisResults;
             showSteps := showSteps s |}
      end
  | None => s
  end.

(** The button of the exercise of index [idx]. *)
Definition selectExercise (s : AppState) (idx : nat) : AppState :=
  {| selectedExercise := idx + 1; results := None; showSteps := showSteps s |}.

Definition toggleSteps (s : AppState) : AppState :=
  {| selectedExercise := selectedExercise s; results := results s;
     showSteps := negb (showSteps s) |}.

(** [results && !results.error]: the results of an analysis that did not
    fail. *)
Definition resultsShown (s : AppState) : bool :=
  match results s with
  | Some (Success _ _ _ _) => true
  | _ => false
  end.

(** *** The report of [handleExport] *)

Definition doubleRule : string := repeatText "═" 67.
Definition singleRule : string := repeatText "─" 67.

Definition typeName (ty : ComponentType) : string :=
  match ty with
  | Resistor => "Resistor"
  | VoltageSource => "VoltageSource"
  | CurrentSource => "CurrentSource"
  end.

(** [results.method] inside the template: a failure has none. *)
Definition methodText (r : Result num) : string :=
  match r with
  | Success _ _ _ m => m
  | _ => "undefined"
  end.

Definition reportHeader (circuitName method date : string) : string :=
  doubleRule +:+ nl +:+
  "           ANÁLISIS COMPLETO DE CIRCUITO ELÉCTRICO" +:+ nl +:+
  doubleRule +:+ nl +:+
  nl +:+
  "Ejercicio: " +:+ circuitName +:+ nl +:+
  "Método: Análisis " +:+ method +:+ nl +:+
  "Estudiante: [Tu Nombre]" +:+ nl +:+
  "Fecha: " +:+ date +:+ nl +:+
  "Curso: Fundamentos de Electrónica - ITLA" +:+ nl +:+
  nl +:+
  doubleRule +:+ nl +:+
  "                        DESARROLLO COMPLETO" +:+ nl +:+
  doubleRule +:+ nl +:+
  nl.

(** The body of [results.steps.forEach]. *)
Definition reportStep (step : Step) : string :=
  nl +:+ title step +:+ nl +:+
  singleRule +:+ nl +:+ nl +:+
  description step +:+ nl +:+ nl +:+
  match equations step with
  | Some (eq :: eqs) =>
      String.concat "" (map (fun eq => eq +:+ nl) (eq :: eqs)) +:+ nl
  | _ => ""
  end +:+
  match matrix step with
  | Some (mat :: mats) =>
      String.concat ""
        (map (fun mat => String.concat "" (map (fun line => line +:+ nl) mat))
             (mat :: mats)) +:+ nl
  | _ => ""
  end.

Definition tableTitle : string :=
  nl +:+ doubleRule +:+ nl +:+
  "                         TABLA DE RESULTADOS FINALES" +:+ nl +:+
  doubleRule +:+ nl +:+
  nl.

Definition tableHeader : string :=
  "ID      Tipo              Voltaje         Corriente       Potencia".

(** The body of [results.componentResults.forEach]. *)
Definition reportRow (comp : ComponentResult num) : string :=
  padEnd 8 (c_id (r_comp comp)) +:+
  padEnd 18 (typeName (c_type (r_comp comp))) +:+
  padEnd 16 (formatValue (voltage comp) "V") +:+
  padEnd 16 (formatValue (current comp) "A") +:+
  formatValue (power comp) "W" +:+ nl.

Definition conclusion : string :=
  nl +:+ doubleRule +:+ nl +:+
  "               CONCLUSIÓN Y VERIFICACIÓN DE RESULTADOS" +:+ nl +:+
  doubleRule +:+ nl +:+
  nl +:+
  "✓ Los resultados obtenidos cumplen con las Leyes de Kirchhoff" +:+ nl +:+
  "✓ El balance de energía del circuito es correcto" +:+ nl +:+
  "✓ Los valores son físicamente realizables y verificables" +:+ nl +:+
  "✓ Se pueden comprobar en simuladores como Livewire o Multisim" +:+ nl +:+
  nl +:+
  "Este análisis fue realizado siguiendo el método estándar de Análisis" +:+ nl +:+
  "Nodal Modificado (MNA), ampliamente utilizado en ingeniería eléctrica" +:+ nl +:+
  "y electrónica." +:+ nl +:+
  nl +:+
  doubleRule.

Definition report (circuit : Circuit num) (r : Result num) (date : string) : string :=
  reportHeader (name circuit) (methodText r) date +:+
  String.concat "" (map reportStep (stepsOf r)) +:+
  tableTitle +:+
  match r with
  | Success _ componentResults _ _ =>
      tableHeader +:+ nl +:+ singleRule +:+ nl +:+
      String.concat "" (map reportRow componentResults)
  | _ => ""
  end +:+
  conclusion.

(** [handleExport]: nothing without results; otherwise the name and the
    text of the file to download, [date] being what
    [new Date().toLocaleString('es-DO')] gives. *)
Definition handleExport (s : AppState) (date : string) : option (string * string) :=
  match results s with
  | None => None
  | Some r =>
      circuit ← currentCircuit s;
      Some ("Ejercicio_" +:+ pretty (selectedExercise s) +:+ "_Desarrollo_Completo.txt",
            report circuit r date)
  end.

(** *** The events of the page

    The buttons that the render offers, and what a click on each does. *)
Inductive Event :=
| ClickExercise (idx : nat)
| ClickAnalyze
| ClickToggleSteps
| ClickExport.

Definition offered (s : AppState) (e : Event) : bool :=
  match e with
  | ClickExercise idx => bool_decide (idx < length exercises)%nat
  | ClickAnalyze => true
  | ClickToggleSteps => resultsShown s
  | ClickExport => resultsShown s
  end.

Definition click (s : AppState) (e : Event) : AppState :=
  match e with
  | ClickExercise idx => selectExercise s idx
  | ClickAnalyze => handleAnalyze s
  | ClickToggleSteps => toggleSteps s
  | ClickExport => s
  end.

Inductive reachable : AppState -> Prop :=
| reachable_initial : reachable initialState
| reachable_click (s : AppState) (e : Event) :
    reachable s -> offered s e = true -> reachable (click s e).

End Presentation.

Arguments AppState num : clear implicits.

Section ReportVocabulary.
Context {num : Type} `{Number num}.

(** The fields of a row of the table and of its header, and the column at
    which the field of index [k] starts. *)
Definition rowFields (comp : ComponentResult num) : list string :=
  [padEnd 8 (c_id (r_comp comp));
   padEnd 18 (typeName (c_type (r_comp comp)));
   padEnd 16 (formatValue (voltage comp) "V");
   padEnd 16 (formatValue (current comp) "A");
   formatValue (power comp) "W"].

Definition headerFields : list string :=
  ["ID      "; "Tipo              "; "Voltaje         "; "Corriente       ";
   "Potencia"].

Definition columnOf (k : nat) (fields : list string) : nat :=
  utf16Length (String.concat "" (take k fields)).

End ReportVocabulary.

(** ** Vocabulary of the further properties *)

(** *** The solver *)

Section SolverVocabulary.
Context {num : Type} `{Number num}.
Local Open Scope num_scope.

(** The augmented matrix of [n] equations: [n] rows of [n + 1] entries. *)
Definition augmentedShape (n : nat) (aug : list (list num)) : Prop :=
  length aug = n /\ Forall (fun row => length row = S n) aug.

(** The factor of row [k] at stage [i], and whether the elimination
    applies it. *)
Definition factorOf (aug : list (list num)) (i k : nat) : num :=
  Matrix.cell aug k i / Matrix.cell aug i i.

Definition applies (aug : list (list num)) (i k : nat) : bool :=
  nabs (factorOf aug i k) >? tol.

(** The rows [i] and [m] trade places. *)
Definition swapped (i m r : nat) : nat :=
  if decide (r = i) then m else if decide (r = m) then i else r.

(** The elimination of column [i] from the rows [ks]: the loop of
    [Matrix.eliminate] over any list of rows. *)
Definition eliminateRows (i n : nat) (ks : list nat)
    (st : list (list num) * list (string * string))
  : list (list num) * list (string * string) :=
  fold_left
    (fun '(aug, steps) k =>
       let factor := Matrix.cell aug k i / Matrix.cell aug i i in
       if nabs factor >? tol then
         let aug' := Matrix.eliminateRow aug i k n factor in
         (aug', steps ++ [Matrix.eliminationStep aug' i k factor])
       else (aug, steps))
    ks st.

(** What the pivoting of stage [i] leaves: the rows [i] and [findPivot]
    exchanged, no entry below the pivot that compares larger than it in
    absolute value, and, when the rows moved, a pivot that compares
    larger than the entry it replaced. *)
Definition largestPivot (n i : nat) (aug aug1 : list (list num)) : Prop :=
  (forall r c,
     Matrix.cell aug1 r c = Matrix.cell aug (swapped i (Matrix.findPivot aug i n) r) c)
  /\ (forall k, (i < k < n)%nat ->
        (nabs (Matrix.cell aug1 k i) >? nabs (Matrix.cell aug1 i i)) = false)
  /\ (Matrix.findPivot aug i n <> i ->
        (nabs (Matrix.cell aug1 i i) >? nabs (Matrix.cell aug i i)) = true).

End SolverVocabulary.

(** *** The analysis *)

Section AnalysisVocabulary.
Context {num : Type} `{Number num}.
Local Open Scope num_scope.

(** An identifier that the potentials know: the ground or a listed node. *)
Definition known (circuit : Circuit num) (id : string) : Prop :=
  id = groundNode \/ id ∈ map n_id (nodes circuit).

(** A resistor with a terminal that is neither the ground nor a listed
    node. *)
Definition dangling (circuit : Circuit num) (comp : Component num) : Prop :=
  c_type comp = Resistor
  /\ ~ (known circuit (c_nodes comp).1 /\ known circuit (c_nodes comp).2).

(** The solution that the solver returns for the system of a circuit. *)
Definition solutionOf (circuit : Circuit num) : option (list num) :=
  match assemble circuit with
  | Some (A, b, _) => (Matrix.solve A b).1
  | None => None
  end.

(** A source across a resistor whose second terminal is at no node of the
    list. *)
Definition unlistedTerminal : Circuit num :=
  {| name := "Terminal sin nodo"; method := nodal;
     nodes := [node "n1" "Nodo 1"; node "gnd" "Tierra"];
     components :=
       [component "V1" VoltageSource "n1" "gnd" (ofZ 12) "V";
        component "R1" Resistor "n1" "n2" (ofZ 100) "Ω"] |}.

(** A circuit of the ground alone. *)
Definition groundOnly : Circuit num :=
  {| name := "Solo tierra"; method := nodal;
     nodes := [node "gnd" "Tierra"];
     components := [component "I1" CurrentSource "gnd" "gnd" (ofZ 1) "A"] |}.

End AnalysisVocabulary.

(** A source across a resistor, its negative terminal at no node of the
    list. *)
Definition unlistedSourceTerminal : Circuit float :=
  {| name := "Fuente sin nodo"; method := nodal;
     nodes := [node "n1" "Nodo 1"; node "gnd" "Tierra"];
     components :=
       [component "V1" VoltageSource "n1" "n9" (ofZ 12) "V";
        component "R1" Resistor "n1" "gnd" (ofZ 100) "Ω"] |}.

Section SourceVocabulary.
Context {num : Type} `{Number num}.
Local Open Scope num_scope.

(** The entry that the row of a voltage source from [p] to [q] gets in
    the column [col]: the [-1] of the negative terminal is set last. *)
Definition sourceRowEntry (nodeMap : gmap string nat) (p q : string) (col : nat)
    (before : num) : num :=
  if decide (terminalIndex nodeMap q = Some col) then ofZ (-1)
  else if decide (terminalIndex nodeMap p = Some col) then ofZ 1
  else before.

(** The entry that the row of the node [id] gets in the column of the
    voltage source [vs]. *)
Definition sourceColumnEntry (id : string) (vs : Component num) (before : num) : num :=
  if decide ((c_nodes vs).1 = id) then ofZ 1
  else if decide ((c_nodes vs).2 = id) then ofZ (-1)
  else before.

End SourceVocabulary.

Section IsolatedVocabulary.
Context {num : Type} `{Number num}.

(** A listed node, not the ground, that no resistor and no voltage source
    has a terminal at. *)
Definition isolated (circuit : Circuit num) (id : string) : Prop :=
  id <> groundNode /\ id ∈ map n_id (nodes circuit)
  /\ forall comp, comp ∈ components circuit -> c_type comp <> CurrentSource ->
       (c_nodes comp).1 <> id /\ (c_nodes comp).2 <> id.

(** Row [z] of the augmented matrix is zero, right-hand side included. *)
Definition zeroRow (n : nat) (aug : list (list num)) (z : nat) : Prop :=
  forall c, (c <= n)%nat -> Matrix.cell aug z c = ofZ 0.

End IsolatedVocabulary.

(** * Properties *)

(** ** Lists with indices and monadic folds *)

Lemma indexedFrom_length {A : Type} (k : nat) (l : list A) :
  length (indexedFrom k l) = length l.
Proof. revert k. induction l as [|x l IH]; intros k; simpl; [done | by rewrite IH]. Qed.

Lemma indexedFrom_lookup {A : Type} (k : nat) (l : list A) (j : nat) (i : nat) (x : A) :
  indexedFrom k l !! j = Some (i, x) <-> i = (k + j)%nat /\ l !! j = Some x.
Proof.
  revert k j. induction l as [|y l IH]; intros k j; simpl.
  - split; [done | intros [_ ?]; done].
  - destruct j as [|j]; simpl.
    + split; [intros [= -> ->]; split; [lia | done] | intros [-> [= ->]]; do 2 f_equal; lia].
    + rewrite IH. split; intros [-> ?]; split; (lia || done).
Qed.

Lemma indexedFrom_elem {A : Type} (k : nat) (l : list A) (i : nat) (x : A) :
  (i, x) ∈ indexedFrom k l -> (k <= i < k + length l)%nat /\ l !! (i - k)%nat = Some x.
Proof.
  intros [j Hj]%list_elem_of_lookup.
  apply indexedFrom_lookup in Hj as [-> Hx].
  apply lookup_lt_Some in Hx as Hlt.
  replace (k + j - k)%nat with j by lia. split; [lia | done].
Qed.

(** An invariant of a monadic fold whose steps all succeed under it. *)
Lemma foldM_invariant {A B : Type} (P : A -> Prop) (f : A -> B -> option A)
    (l : list B) (a : A) :
  P a ->
  (forall a x, x ∈ l -> P a -> exists a', f a x = Some a' /\ P a') ->
  exists a', foldM f a l = Some a' /\ P a'.
Proof.
  revert a. induction l as [|x l IH]; intros a Ha Hstep; simpl.
  - eauto.
  - destruct (Hstep a x) as (a' & -> & Ha'); [left | done |]. simpl.
    apply IH; [done |]. intros a0 y Hy. apply Hstep. by right.
Qed.

(** A property that every successful step carries over. *)
Lemma foldM_preserves {A B : Type} (P : A -> Prop) (f : A -> B -> option A)
    (l : list B) (a a' : A) :
  P a ->
  (forall a x a', x ∈ l -> P a -> f a x = Some a' -> P a') ->
  foldM f a l = Some a' -> P a'.
Proof.
  revert a. induction l as [|x l IH]; intros a Ha Hstep; simpl.
  - by intros [= <-].
  - destruct (f a x) as [a1|] eqn:E; simpl; [| done].
    apply IH; [eapply Hstep; [left | done | done] |].
    intros a0 y a0' Hy. apply Hstep. by right.
Qed.

(** ** The matrix operations *)

Section MatrixFacts.
Context {num : Type} `{Number num}.
Local Open Scope num_scope.

Lemma writeAt_Some {A : Type} (l : list A) (i : nat) (x : A) (l' : list A) :
  writeAt l i x = Some l' <-> (i < length l)%nat /\ l' = <[i := x]> l.
Proof.
  unfold writeAt. case_decide; split.
  - by intros [= <-].
  - by intros [_ ->].
  - done.
  - intros [? _]; lia.
Qed.

Lemma cell_insert_row (aug : list (list num)) (row : nat) (r' : list num) (r c : nat) :
  (row < length aug)%nat ->
  Matrix.cell (<[row := r']> aug) r c
  = if decide (r = row) then default nan (r' !! c) else Matrix.cell aug r c.
Proof.
  intros Hlt. unfold Matrix.cell. case_decide as E.
  - subst. by rewrite list_lookup_insert_eq.
  - by rewrite list_lookup_insert_ne.
Qed.

Lemma set_entry (m m' : Matrix.t num) (row col : nat) (v : num) :
  Matrix.set m row col v = Some m' ->
  forall r c, entry m' r c = if decide (r = row /\ c = col) then v else entry m r c.
Proof.
  unfold Matrix.set. destruct (Matrix.data m !! row) as [rw|] eqn:Hrow; simpl; [| done].
  destruct (writeAt rw col v) as [rw'|] eqn:Hw; simpl; [| done].
  intros [= <-] r c. apply writeAt_Some in Hw as [Hcol ->].
  unfold entry. simpl. rewrite cell_insert_row by (by eapply lookup_lt_Some).
  destruct (decide (r = row)) as [->|Hr].
  - destruct (decide (c = col)) as [->|Hc].
    + rewrite list_lookup_insert_eq by done. by rewrite decide_True.
    + rewrite list_lookup_insert_ne by done. rewrite decide_False by tauto.
      unfold Matrix.cell. by rewrite Hrow.
  - rewrite decide_False by tauto. done.
Qed.

Lemma add_entry (m m' : Matrix.t num) (row col : nat) (v : num) :
  Matrix.add m row col v = Some m' ->
  forall r c, entry m' r c
              = if decide (r = row /\ c = col) then entry m r c + v else entry m r c.
Proof.
  unfold Matrix.add. destruct (Matrix.data m !! row) as [rw|] eqn:Hrow; simpl; [| done].
  destruct (rw !! col) as [old|] eqn:Hold; simpl; [| done].
  destruct (writeAt rw col (old + v)) as [rw'|] eqn:Hw; simpl; [| done].
  intros [= <-] r c. apply writeAt_Some in Hw as [Hcol ->].
  unfold entry. simpl. rewrite cell_insert_row by (by eapply lookup_lt_Some).
  destruct (decide (r = row)) as [->|Hr].
  - destruct (decide (c = col)) as [->|Hc].
    + rewrite list_lookup_insert_eq by done. rewrite decide_True by done.
      unfold Matrix.cell. rewrite Hrow. simpl. by rewrite Hold.
    + rewrite list_lookup_insert_ne by done. rewrite decide_False by tauto.
      unfold Matrix.cell. by rewrite Hrow.
  - rewrite decide_False by tauto. done.
Qed.

Lemma new_square (N : nat) (v : num) : square N (Matrix.new N N v).
Proof.
  unfold square, Matrix.new. simpl. rewrite length_replicate.
  repeat split. apply Forall_replicate. by rewrite length_replicate.
Qed.

Lemma square_insert (N : nat) (m : Matrix.t num) (row : nat) (rw : list num) :
  square N m -> length rw = N ->
  square N {| Matrix.data := <[row := rw]> (Matrix.data m);
              Matrix.rows := Matrix.rows m; Matrix.cols := Matrix.cols m |}.
Proof.
  intros (Hr & Hc & Hl & Hall) Hrw. unfold square. simpl.
  rewrite length_insert. repeat split; try done.
  apply Forall_insert; done.
Qed.

Lemma set_square (N : nat) (m : Matrix.t num) (row col : nat) (v : num) :
  square N m -> (row < N)%nat -> (col < N)%nat ->
  exists m', Matrix.set m row col v = Some m' /\ square N m'.
Proof.
  intros Hsq Hrow Hcol. pose proof Hsq as (Hr & Hc & Hl & Hall).
  destruct (lookup_lt_is_Some_2 (Matrix.data m) row) as [rw Hrw]; [lia |].
  assert (length rw = N) as Hlen.
  { rewrite Forall_lookup in Hall. by eapply Hall. }
  unfold Matrix.set. rewrite Hrw. simpl.
  unfold writeAt. rewrite decide_True by lia. simpl.
  eexists; split; [done |]. apply square_insert; [done |]. by rewrite length_insert.
Qed.

Lemma add_square (N : nat) (m : Matrix.t num) (row col : nat) (v : num) :
  square N m -> (row < N)%nat -> (col < N)%nat ->
  exists m', Matrix.add m row col v = Some m' /\ square N m'.
Proof.
  intros Hsq Hrow Hcol. pose proof Hsq as (Hr & Hc & Hl & Hall).
  destruct (lookup_lt_is_Some_2 (Matrix.data m) row) as [rw Hrw]; [lia |].
  assert (length rw = N) as Hlen.
  { rewrite Forall_lookup in Hall. by eapply Hall. }
  destruct (lookup_lt_is_Some_2 rw col) as [old Hold]; [lia |].
  unfold Matrix.add. rewrite Hrw. simpl. rewrite Hold. simpl.
  unfold writeAt. rewrite decide_True by lia. simpl.
  eexists; split; [done |]. apply square_insert; [done |]. by rewrite length_insert.
Qed.

End MatrixFacts.

(** ** Maps filled from a list of nodes

    [nodeMapOf] and [voltagesOf] both insert one entry per node, in the
    order of the list, the value being a function of the index. *)

Section NodeMaps.
Context {V : Type} (f : nat -> V).
Implicit Types (m : gmap string V).

Lemma insertNodes_absent (k : nat) (ns : list Node) (m : gmap string V) (key : string) :
  key ∉ map n_id ns -> insertNodes f k ns m !! key = m !! key.
Proof.
  revert k m. induction ns as [|x ns IH]; intros k m Hnot; [done |].
  unfold insertNodes. simpl. fold (insertNodes f (S k) ns (<[n_id x := f k]> m)).
  simpl in Hnot. apply not_elem_of_cons in Hnot as [Hne Hnot].
  rewrite IH by done. by apply lookup_insert_ne.
Qed.

(** A key of the list is bound to the value of one of its indices. *)
Lemma insertNodes_present (k : nat) (ns : list Node) (m : gmap string V) (key : string) :
  key ∈ map n_id ns ->
  exists j n, ns !! j = Some n /\ n_id n = key
              /\ insertNodes f k ns m !! key = Some (f (k + j)%nat).
Proof.
  revert k m. induction ns as [|x ns IH]; intros k m Hin; [by apply elem_of_nil in Hin |].
  unfold insertNodes. simpl. fold (insertNodes f (S k) ns (<[n_id x := f k]> m)).
  destruct (decide (key ∈ map n_id ns)) as [Hlater|Hnot].
  - destruct (IH (S k) (<[n_id x := f k]> m) Hlater) as (j & n & Hj & Hid & Hlk).
    exists (S j), n. repeat split; try done.
    rewrite Hlk. do 2 f_equal. lia.
  - exists 0%nat, x. simpl in Hin.
    assert (n_id x = key) as Hx.
    { apply elem_of_cons in Hin as [->|Hin]; [done | by destruct Hnot]. }
    repeat split; try done.
    rewrite insertNodes_absent by done. rewrite <- Hx, lookup_insert_eq.
    do 2 f_equal. lia.
Qed.

(** What a key is bound to comes from the list or was there before. *)
Lemma insertNodes_Some (k : nat) (ns : list Node) (m : gmap string V)
    (key : string) (v : V) :
  insertNodes f k ns m !! key = Some v ->
  m !! key = Some v \/ exists j n, ns !! j = Some n /\ n_id n = key /\ v = f (k + j)%nat.
Proof.
  destruct (decide (key ∈ map n_id ns)) as [Hin|Hnot].
  - destruct (insertNodes_present k ns m key Hin) as (j & n & Hj & Hid & ->).
    intros [= <-]. right. eauto.
  - rewrite insertNodes_absent by done. auto.
Qed.

End NodeMaps.

Section AssemblyFacts.
Context {num : Type} `{Number num}.
Local Open Scope num_scope.

Lemma nodeMapOf_insertNodes (ns : list Node) :
  nodeMapOf ns = insertNodes (fun i => i) 0 ns ∅.
Proof. done. Qed.

Lemma voltagesOf_insertNodes (ns : list Node) (solution : list num) :
  voltagesOf ns solution
  = insertNodes (solutionAt solution) 0 ns (<[groundNode := ofZ 0]> ∅).
Proof. done. Qed.

(** An index of the node map is the index of a node with that identifier. *)
Lemma nodeMapOf_Some (ns : list Node) (key : string) (i : nat) :
  nodeMapOf ns !! key = Some i -> exists n, ns !! i = Some n /\ n_id n = key.
Proof.
  rewrite nodeMapOf_insertNodes. intros Hlk.
  apply insertNodes_Some in Hlk as [Hempty | (j & n & Hj & Hid & ->)].
  - by rewrite lookup_empty in Hempty.
  - eauto.
Qed.

Lemma nodeMapOf_lt (ns : list Node) (key : string) (i : nat) :
  nodeMapOf ns !! key = Some i -> (i < length ns)%nat.
Proof. intros (n & Hn & _)%nodeMapOf_Some. by eapply lookup_lt_Some. Qed.

Lemma unknownNodes_not_ground (circuit : Circuit num) :
  groundNode ∉ map n_id (unknownNodes circuit).
Proof.
  unfold unknownNodes. intros (n & Hid & Hn)%list_elem_of_fmap.
  apply list_elem_of_filter in Hn as [Hne _]. by rewrite Hid in Hne.
Qed.

End AssemblyFacts.

Arguments stampConductance : simpl never.
Arguments stampSourceColumn : simpl never.
Arguments stampSourceRow : simpl never.
Arguments stampNode : simpl never.
Arguments conductanceStamp : simpl never.

Section StampFacts.
Context {num : Type} `{Number num}.
Local Open Scope num_scope.

Lemma stampConductance_square (N : nat) (nodeMap : gmap string nat) (node : Node)
    (idx : nat) (A : Matrix.t num) (terms : list string) (c : Conductance num) :
  square N A -> (idx < N)%nat ->
  (forall k i, nodeMap !! k = Some i -> (i < N)%nat) ->
  exists A' terms',
    stampConductance nodeMap node idx (A, terms) c = Some (A', terms') /\ square N A'.
Proof.
  intros Hsq Hidx Hmap. unfold stampConductance.
  destruct (c_nodes (g_comp c)) as [nodeA nodeB].
  case_decide; [| eauto].
  destruct (add_square N A idx idx (g_G c) Hsq Hidx Hidx) as (A1 & HA1 & Hsq1).
  case_decide.
  - rewrite HA1. simpl. eauto.
  - rewrite HA1. simpl.
    destruct (nodeMap !! _) as [otherIdx|] eqn:Hother; simpl; [| eauto].
    destruct (add_square N A1 idx otherIdx (- g_G c) Hsq1 Hidx) as (A2 & HA2 & Hsq2);
      [by eapply Hmap |].
    rewrite HA2. simpl. eauto.
Qed.

Lemma stampConductance_entry (nodeMap : gmap string nat) (node : Node) (idx : nat)
    (A A' : Matrix.t num) (terms terms' : list string) (c : Conductance num) :
  stampConductance nodeMap node idx (A, terms) c = Some (A', terms') ->
  forall r col,
    entry A' r col
    = if decide (r = idx)
      then conductanceStamp nodeMap node idx col (entry A idx col) c
      else entry A r col.
Proof.
  unfold stampConductance, conductanceStamp.
  destruct (c_nodes (g_comp c)) as [nodeA nodeB].
  case_decide as Htouch.
  - destruct (Matrix.add A idx idx (g_G c)) as [A1|] eqn:HA1; simpl.
    2: { by case_decide. }
    pose proof (add_entry _ _ _ _ _ HA1) as E1.
    case_decide as Hgnd; simpl.
    + intros [= <- <-] r col. rewrite E1.
      destruct (decide (r = idx)) as [->|Hr].
      * destruct (decide (col = idx)) as [->|Hc];
          [by rewrite decide_True | by rewrite decide_False by tauto].
      * by rewrite decide_False by tauto.
    + destruct (nodeMap !! _) as [otherIdx|] eqn:Hother; simpl.
      * destruct (Matrix.add A1 idx otherIdx (- g_G c)) as [A2|] eqn:HA2; simpl; [| done].
        pose proof (add_entry _ _ _ _ _ HA2) as E2.
        intros [= <- <-] r col. rewrite E2, !E1.
        destruct (decide (r = idx)) as [->|Hr].
        -- destruct (decide (col = otherIdx)) as [->|Hc].
           ++ rewrite (decide_True (P := idx = idx /\ otherIdx = otherIdx)) by done.
              destruct (decide (otherIdx = idx)) as [->|Hd];
                [by rewrite decide_True | by rewrite decide_False by tauto].
           ++ rewrite (decide_False (P := idx = idx /\ col = otherIdx)) by tauto.
              destruct (decide (col = idx)) as [->|Hd];
                [by rewrite decide_True | by rewrite decide_False by tauto].
        -- by rewrite !decide_False by tauto.
      * intros [= <- <-] r col. rewrite E1.
        destruct (decide (r = idx)) as [->|Hr].
        -- destruct (decide (col = idx)) as [->|Hc];
             [by rewrite decide_True | by rewrite decide_False by tauto].
        -- by rewrite decide_False by tauto.
  - intros [= <- <-] r col. by case_decide; subst.
Qed.

Lemma stampSourceColumn_square (N numNodes : nat) (node : Node) (idx : nat)
    (A : Matrix.t num) (terms : list string) (vsIdx : nat) (vs : Component num) :
  square N A -> (idx < N)%nat -> (numNodes + vsIdx < N)%nat ->
  exists A' terms',
    stampSourceColumn numNodes node idx (A, terms) (vsIdx, vs) = Some (A', terms')
    /\ square N A'.
Proof.
  intros Hsq Hidx Hcol. unfold stampSourceColumn.
  destruct (c_nodes vs) as [posNode negNode].
  case_decide.
  - destruct (set_square N A idx (numNodes + vsIdx) (ofZ 1) Hsq Hidx Hcol)
      as (A1 & -> & Hsq1). simpl. eauto.
  - case_decide; [| eauto].
    destruct (set_square N A idx (numNodes + vsIdx) (ofZ (-1)) Hsq Hidx Hcol)
      as (A1 & -> & Hsq1). simpl. eauto.
Qed.

(** The column of a source lies right of the node columns, which it
    leaves as they are, as it leaves every other row. *)
Lemma stampSourceColumn_entry (numNodes : nat) (node : Node) (idx : nat)
    (A A' : Matrix.t num) (terms terms' : list string) (v : nat * Component num) :
  stampSourceColumn numNodes node idx (A, terms) v = Some (A', terms') ->
  forall r col, r <> idx \/ (col < numNodes)%nat -> entry A' r col = entry A r col.
Proof.
  unfold stampSourceColumn. destruct v as [vsIdx vs].
  destruct (c_nodes vs) as [posNode negNode].
  case_decide.
  - destruct (Matrix.set A idx _ _) as [A1|] eqn:HA1; simpl; [| done].
    intros [= <- <-] r col Hrc. rewrite (set_entry _ _ _ _ _ HA1).
    rewrite decide_False; [done | lia].
  - case_decide.
    + destruct (Matrix.set A idx _ _) as [A1|] eqn:HA1; simpl; [| done].
      intros [= <- <-] r col Hrc. rewrite (set_entry _ _ _ _ _ HA1).
      rewrite decide_False; [done | lia].
    + by intros [= <- <-].
Qed.

Lemma stampConductances_entry (nodeMap : gmap string nat) (node : Node) (idx : nat)
    (cs : list (Conductance num)) (A A' : Matrix.t num) (terms terms' : list string) :
  foldM (stampConductance nodeMap node idx) (A, terms) cs = Some (A', terms') ->
  forall r col,
    entry A' r col
    = if decide (r = idx)
      then fold_left (conductanceStamp nodeMap node idx col) cs (entry A idx col)
      else entry A r col.
Proof.
  revert A terms. induction cs as [|c cs IH]; intros A terms; simpl.
  - intros [= <- <-] r col. by case_decide; subst.
  - destruct (stampConductance nodeMap node idx (A, terms) c) as [[A1 terms1]|] eqn:E1;
      simpl; [| done].
    intros Hrest r col. rewrite (IH _ _ Hrest).
    rewrite !(stampConductance_entry _ _ _ _ _ _ _ _ E1).
    rewrite (decide_True (P := idx = idx)) by done.
    by destruct (decide (r = idx)).
Qed.

Lemma stampSourceColumns_entry (numNodes : nat) (node : Node) (idx : nat)
    (l : list (nat * Component num)) (A A' : Matrix.t num) (terms terms' : list string) :
  foldM (stampSourceColumn numNodes node idx) (A, terms) l = Some (A', terms') ->
  forall r col, r <> idx \/ (col < numNodes)%nat -> entry A' r col = entry A r col.
Proof.
  intros Hfold r col Hrc.
  refine (foldM_preserves (fun st => entry st.1 r col = entry A r col)
            _ l (A, terms) (A', terms') eq_refl _ Hfold).
  intros [A1 t1] v [A2 t2] _ HP Hstep. simpl in *.
  by rewrite (stampSourceColumn_entry _ _ _ _ _ _ _ _ Hstep).
Qed.

Section Bounds.
Variables (N numNodes : nat) (nodeMap : gmap string nat).
Variable voltageSources : list (Component num).
Hypothesis size : (numNodes + length voltageSources <= N)%nat.
Hypothesis nodeMap_bound : forall k i, nodeMap !! k = Some i -> (i < numNodes)%nat.

Lemma stampNode_square (cs : list (Conductance num)) (A : Matrix.t num)
    (eqs : list string) (idx : nat) (node : Node) :
  square N A -> (idx < numNodes)%nat ->
  exists A' eqs',
    stampNode nodeMap numNodes cs voltageSources (A, eqs) (idx, node) = Some (A', eqs')
    /\ square N A'.
Proof.
  intros Hsq Hidx. unfold stampNode.
  destruct (foldM_invariant (fun st => square N st.1)
              (stampConductance nodeMap node idx) cs (A, [])) as ([A1 t1] & -> & Hsq1);
    [done | |].
  { intros [A0 t0] c _ Hsq0.
    destruct (stampConductance_square N nodeMap node idx A0 t0 c) as (A' & t' & ? & ?);
      [done | lia | intros k i Hk; apply nodeMap_bound in Hk; lia |].
    by exists (A', t'). }
  simpl.
  destruct (foldM_invariant (fun st => square N st.1)
              (stampSourceColumn numNodes node idx) (indexed voltageSources) (A1, t1))
    as ([A2 t2] & -> & Hsq2); [done | |].
  { intros [A0 t0] [vsIdx vs] Hin Hsq0.
    apply indexedFrom_elem in Hin as [Hlt _].
    destruct (stampSourceColumn_square N numNodes node idx A0 t0 vsIdx vs)
      as (A' & t' & ? & ?); [done | lia | lia |].
    by exists (A', t'). }
  simpl. eauto.
Qed.

Lemma stampSourceRow_square (A : Matrix.t num) (b : list num) (eqs : list string)
    (i : nat) (vs : Component num) :
  square N A -> length b = N -> (i < length voltageSources)%nat ->
  exists A' b' eqs',
    stampSourceRow nodeMap numNodes (A, b, eqs) (i, vs) = Some (A', b', eqs')
    /\ square N A' /\ length b' = N.
Proof.
  intros Hsq Hb Hi. unfold stampSourceRow.
  destruct (c_nodes vs) as [posNode negNode].
  assert (forall node j, terminalIndex nodeMap node = Some j -> (j < N)%nat) as Hterm.
  { intros node j. unfold terminalIndex. case_decide; [done |].
    intros Hj%nodeMap_bound. lia. }
  assert (exists A1 eq1,
             match terminalIndex nodeMap posNode, terminalIndex nodeMap negNode with
             | Some posIdx, Some negIdx =>
                 A ← Matrix.set A (numNodes + i) posIdx (ofZ 1);
                 A ← Matrix.set A (numNodes + i) negIdx (ofZ (-1));
                 Some (A, ("Fuente " +:+ c_id vs +:+ ": ") +:+ "V" +:+ pretty (posIdx + 1)%nat +:+ " - V"
                            +:+ pretty (negIdx + 1)%nat +:+ " = " +:+ toStr (c_value vs) +:+ " V")
             | Some posIdx, None =>
                 A ← Matrix.set A (numNodes + i) posIdx (ofZ 1);
                 Some (A, ("Fuente " +:+ c_id vs +:+ ": ") +:+ "V" +:+ pretty (posIdx + 1)%nat +:+ " = "
                            +:+ toStr (c_value vs) +:+ " V")
             | None, Some negIdx =>
                 A ← Matrix.set A (numNodes + i) negIdx (ofZ (-1));
                 Some (A, ("Fuente " +:+ c_id vs +:+ ": ") +:+ "-V" +:+ pretty (negIdx + 1)%nat +:+ " = "
                            +:+ toStr (c_value vs) +:+ " V")
             | None, None => Some (A, "Fuente " +:+ c_id vs +:+ ": ")
             end = Some (A1, eq1) /\ square N A1) as (A1 & eq1 & -> & Hsq1).
  { destruct (terminalIndex nodeMap posNode) as [posIdx|] eqn:Hp,
             (terminalIndex nodeMap negNode) as [negIdx|] eqn:Hn.
    - destruct (set_square N A (numNodes + i) posIdx (ofZ 1)) as (A1 & -> & Hsq1);
        [done | lia | by eapply Hterm |]. simpl.
      destruct (set_square N A1 (numNodes + i) negIdx (ofZ (-1))) as (A2 & -> & Hsq2);
        [done | lia | by eapply Hterm |]. simpl. eauto.
    - destruct (set_square N A (numNodes + i) posIdx (ofZ 1)) as (A1 & -> & Hsq1);
        [done | lia | by eapply Hterm |]. simpl. eauto.
    - destruct (set_square N A (numNodes + i) negIdx (ofZ (-1))) as (A1 & -> & Hsq1);
        [done | lia | by eapply Hterm |]. simpl. eauto.
    - eauto. }
  simpl. unfold writeAt. rewrite decide_True by lia. simpl.
  do 3 eexists. split; [done |]. split; [done |]. by rewrite length_insert.
Qed.

End Bounds.

(** A source row lies below the node rows and leaves them as they are. *)
Lemma stampSourceRow_entry (nodeMap : gmap string nat) (numNodes : nat)
    (A A' : Matrix.t num) (b b' : list num) (eqs eqs' : list string)
    (v : nat * Component num) :
  stampSourceRow nodeMap numNodes (A, b, eqs) v = Some (A', b', eqs') ->
  forall r col, (r < numNodes)%nat -> entry A' r col = entry A r col.
Proof.
  unfold stampSourceRow. destruct v as [i vs].
  destruct (c_nodes vs) as [posNode negNode].
  destruct (terminalIndex nodeMap posNode) as [posIdx|],
           (terminalIndex nodeMap negNode) as [negIdx|]; simpl.
  - destruct (Matrix.set A _ posIdx _) as [A1|] eqn:E1; simpl; [| done].
    destruct (Matrix.set A1 _ negIdx _) as [A2|] eqn:E2; simpl; [| done].
    destruct (writeAt b _ _); simpl; [| done].
    intros [= <- <- <-] r col Hr.
    rewrite (set_entry _ _ _ _ _ E2), (set_entry _ _ _ _ _ E1).
    rewrite !decide_False by lia. done.
  - destruct (Matrix.set A _ posIdx _) as [A1|] eqn:E1; simpl; [| done].
    destruct (writeAt b _ _); simpl; [| done].
    intros [= <- <- <-] r col Hr.
    rewrite (set_entry _ _ _ _ _ E1). rewrite !decide_False by lia. done.
  - destruct (Matrix.set A _ negIdx _) as [A1|] eqn:E1; simpl; [| done].
    destruct (writeAt b _ _); simpl; [| done].
    intros [= <- <- <-] r col Hr.
    rewrite (set_entry _ _ _ _ _ E1). rewrite !decide_False by lia. done.
  - destruct (writeAt b _ _); simpl; [| done].
    by intros [= <- <- <-].
Qed.

Lemma stampNode_entry (nodeMap : gmap string nat) (numNodes : nat)
    (cs : list (Conductance num)) (vss : list (Component num))
    (A A' : Matrix.t num) (eqs eqs' : list string) (idx : nat) (node : Node) :
  stampNode nodeMap numNodes cs vss (A, eqs) (idx, node) = Some (A', eqs') ->
  forall r col,
    (r <> idx -> entry A' r col = entry A r col)
    /\ ((col < numNodes)%nat ->
        entry A' idx col
        = fold_left (conductanceStamp nodeMap node idx col) cs (entry A idx col)).
Proof.
  unfold stampNode.
  destruct (foldM (stampConductance nodeMap node idx) (A, []) cs)
    as [[A1 t1]|] eqn:E1; simpl; [| done].
  destruct (foldM (stampSourceColumn numNodes node idx) (A1, t1) (indexed vss))
    as [[A2 t2]|] eqn:E2; simpl; [| done].
  intros [= <- <-] r col. split.
  - intros Hr. rewrite (stampSourceColumns_entry _ _ _ _ _ _ _ _ E2) by auto.
    rewrite (stampConductances_entry _ _ _ _ _ _ _ _ E1). by rewrite decide_False.
  - intros Hcol. rewrite (stampSourceColumns_entry _ _ _ _ _ _ _ _ E2) by auto.
    rewrite (stampConductances_entry _ _ _ _ _ _ _ _ E1). by rewrite decide_True.
Qed.

(** After the rows of the nodes [ns], numbered from [k], are stamped: the
    other rows are as before, and the row of a node holds the stamps of
    its conductances in its node columns. *)
Lemma stampNodes_entry (nodeMap : gmap string nat) (numNodes : nat)
    (cs : list (Conductance num)) (vss : list (Component num))
    (ns : list Node) (k : nat) (A A' : Matrix.t num) (eqs eqs' : list string) :
  foldM (stampNode nodeMap numNodes cs vss) (A, eqs) (indexedFrom k ns) = Some (A', eqs') ->
  forall r col,
    ((r < k \/ k + length ns <= r)%nat -> entry A' r col = entry A r col)
    /\ (forall node, ns !! (r - k)%nat = Some node -> (k <= r)%nat ->
        (col < numNodes)%nat ->
        entry A' r col
        = fold_left (conductanceStamp nodeMap node r col) cs (entry A r col)).
Proof.
  revert k A eqs. induction ns as [|x ns IH]; intros k A eqs; simpl.
  - intros [= <- <-] r col. split; [done |]. intros node Hnode. done.
  - destruct (stampNode nodeMap numNodes cs vss (A, eqs) (k, x))
      as [[A1 eqs1]|] eqn:E1; simpl; [| done].
    intros Hrest r col.
    destruct (IH _ _ _ Hrest r col) as [IH1 IH2].
    destruct (stampNode_entry _ _ _ _ _ _ _ _ _ _ E1 r col) as [S1 _].
    destruct (stampNode_entry _ _ _ _ _ _ _ _ _ _ E1 k col) as [_ S2].
    split.
    + intros Hr. rewrite IH1 by lia. apply S1. lia.
    + intros node Hnode Hk Hcol.
      destruct (decide (r = k)) as [->|Hne].
      * rewrite Nat.sub_diag in Hnode. injection Hnode as ->.
        rewrite IH1 by lia. by apply S2.
      * replace (r - k)%nat with (S (r - S k)) in Hnode by lia. simpl in Hnode.
        rewrite (IH2 node) by (done || lia). rewrite S1 by done. done.
Qed.

Lemma entry_new (N : nat) (v : num) (r c : nat) :
  (r < N)%nat -> (c < N)%nat -> entry (Matrix.new N N v) r c = v.
Proof.
  intros Hr Hc. unfold entry, Matrix.new, Matrix.cell. simpl.
  rewrite lookup_replicate_2 by done. simpl. by rewrite lookup_replicate_2.
Qed.

(** The assembly never indexes outside the matrix: it yields a system for
    every circuit, square and of the size of the unknowns. *)
Lemma assemble_total (circuit : Circuit num) :
  exists A b eqs,
    assemble circuit = Some (A, b, eqs)
    /\ square (length (unknownNodes circuit) + length (voltageSourcesOf circuit)) A
    /\ length b = (length (unknownNodes circuit) + length (voltageSourcesOf circuit))%nat.
Proof.
  unfold assemble.
  set (ns := unknownNodes circuit). set (vss := voltageSourcesOf circuit).
  set (N := (length ns + length vss)%nat).
  assert (forall k i, nodeMapOf ns !! k = Some i -> (i < length ns)%nat) as Hmap
      by apply nodeMapOf_lt.
  destruct (foldM_invariant (fun st => square N st.1)
              (stampNode (nodeMapOf ns) (length ns) (conductancesOf circuit) vss)
              (indexed ns) (Matrix.new N N (ofZ 0), []))
    as ([A1 eqs1] & -> & Hsq1); [apply new_square | |].
  { intros [A0 e0] [idx node] Hin Hsq0.
    apply indexedFrom_elem in Hin as [Hlt _].
    destruct (stampNode_square N (length ns) (nodeMapOf ns) vss ltac:(done) Hmap
                (conductancesOf circuit) A0 e0 idx node) as (A' & e' & ? & ?);
      [done | lia |].
    by exists (A', e'). }
  simpl.
  destruct (foldM_invariant (fun st => square N st.1.1 /\ length st.1.2 = N)
              (stampSourceRow (nodeMapOf ns) (length ns))
              (indexed vss) (A1, replicate N (ofZ 0), eqs1))
    as ([[A2 b2] eqs2] & -> & Hsq2 & Hb2).
  { split; [done | simpl; by rewrite length_replicate]. }
  { intros [[A0 b0] e0] [i vs] Hin [Hsq0 Hb0].
    apply indexedFrom_elem in Hin as [Hlt _].
    destruct (stampSourceRow_square N (length ns) (nodeMapOf ns) vss ltac:(done) Hmap
                A0 b0 e0 i vs) as (A' & b' & e' & ? & ? & ?); [done | done | lia |].
    by exists (A', b', e'). }
  eauto 10.
Qed.

(** The row of a node in the assembled matrix, over the node columns. *)
Lemma assemble_node_entry (circuit : Circuit num) (A : Matrix.t num) (b : list num)
    (eqs : list string) (i col : nat) (node : Node) :
  assemble circuit = Some (A, b, eqs) ->
  unknownNodes circuit !! i = Some node ->
  (col < length (unknownNodes circuit))%nat ->
  entry A i col
  = fold_left (conductanceStamp (nodeMapOf (unknownNodes circuit)) node i col)
              (conductancesOf circuit) (ofZ 0).
Proof.
  unfold assemble.
  set (ns := unknownNodes circuit). set (vss := voltageSourcesOf circuit).
  set (N := (length ns + length vss)%nat).
  destruct (foldM _ (Matrix.new N N (ofZ 0), []) (indexed ns))
    as [[A1 eqs1]|] eqn:E1; simpl; [| done].
  intros Hrows Hnode Hcol.
  apply lookup_lt_Some in Hnode as Hi.
  assert (entry A i col = entry A1 i col) as ->.
  { refine (foldM_preserves (fun st => entry st.1.1 i col = entry A1 i col)
              _ (indexed vss) (A1, replicate N (ofZ 0), eqs1) (A, b, eqs)
              eq_refl _ Hrows).
    intros [[A0 b0] e0] v [[A' b'] e'] _ HP Hstep. simpl in *.
    by rewrite (stampSourceRow_entry _ _ _ _ _ _ _ _ _ Hstep). }
  destruct (stampNodes_entry _ _ _ _ _ _ _ _ _ _ E1 i col) as [_ Hrow].
  rewrite (Hrow node); [| by rewrite Nat.sub_0_r | lia | done].
  rewrite entry_new by lia. done.
Qed.

End StampFacts.

(** ** Stamping *)

Section Stamping.
Context {num : Type} `{Number num}.
Local Open Scope num_scope.

Lemma fold_left_pointwise {A B : Type} (f g : A -> B -> A) (l : list B) (a : A) :
  (forall a x, f a x = g a x) -> fold_left f l a = fold_left g l a.
Proof.
  intros Hfg. revert a. induction l as [|x l IH]; intros a; simpl; [done |].
  by rewrite Hfg, IH.
Qed.

Lemma mutual_stamp (nodeMap : gmap string nat) (na : Node) (a b : string)
    (ia ib : nat) (acc : num) (c : Conductance num) :
  n_id na = a -> a <> b -> ia <> ib -> b <> groundNode ->
  (forall o, nodeMap !! o = Some ib <-> o = b) ->
  conductanceStamp nodeMap na ia ib acc c
  = if decide (joins c a b) then acc + - g_G c else acc.
Proof.
  intros Hna Hab Hi Hgnd Hlk. unfold conductanceStamp, joins.
  destruct (c_nodes (g_comp c)) as [x y]. rewrite Hna.
  rewrite (decide_False (P := ib = ia)) by done.
  destruct (decide (x = a \/ y = a)) as [Ht|Ht].
  - destruct (decide (x = a)) as [->|Hx].
    + destruct (decide (y = groundNode)) as [->|Hy].
      * rewrite decide_False; [done | intros [[= ?]|[= ? ?]]; congruence].
      * destruct (nodeMap !! y) as [o|] eqn:Ho.
        -- destruct (decide (ib = o)) as [<-|Hne].
           ++ apply Hlk in Ho as ->. by rewrite decide_True by auto.
           ++ rewrite decide_False; [done |].
              intros [[= ->]|[= ? ?]]; [| congruence].
              assert (nodeMap !! b = Some ib) as Hb by by apply Hlk. congruence.
        -- rewrite decide_False; [done |].
           intros [[= ->]|[= ? ?]]; [| congruence].
           assert (nodeMap !! b = Some ib) as Hb by by apply Hlk. congruence.
    + assert (y = a) as -> by tauto.
      destruct (decide (x = groundNode)) as [->|Hg].
      * rewrite decide_False; [done | intros [[= ? ?]|[= ?]]; congruence].
      * destruct (nodeMap !! x) as [o|] eqn:Ho.
        -- destruct (decide (ib = o)) as [<-|Hne].
           ++ apply Hlk in Ho as ->. by rewrite decide_True by auto.
           ++ rewrite decide_False; [done |].
              intros [[= ? ?]|[= ->]]; [congruence |].
              assert (nodeMap !! b = Some ib) as Hb by by apply Hlk. congruence.
        -- rewrite decide_False; [done |].
           intros [[= ? ?]|[= ->]]; [congruence |].
           assert (nodeMap !! b = Some ib) as Hb by by apply Hlk. congruence.
  - rewrite decide_False; [done |]. intros [[= -> ->]|[= -> ->]]; tauto.
Qed.

Lemma self_stamp (nodeMap : gmap string nat) (na : Node) (a : string)
    (ia : nat) (acc : num) (c : Conductance num) :
  n_id na = a -> a <> groundNode ->
  (forall o, nodeMap !! o = Some ia <-> o = a) ->
  conductanceStamp nodeMap na ia ia acc c
  = if decide (touches c a) then
      if decide (c_nodes (g_comp c) = (a, a)) then acc + g_G c + - g_G c
      else acc + g_G c
    else acc.
Proof.
  intros Hna Hgnd Hlk. unfold conductanceStamp, touches.
  destruct (c_nodes (g_comp c)) as [x y]. rewrite Hna. simpl.
  rewrite (decide_True (P := ia = ia)) by done.
  destruct (decide (x = a \/ y = a)) as [Ht|Ht]; [| done].
  destruct (decide (x = a)) as [->|Hx].
  - destruct (decide (y = groundNode)) as [->|Hy].
    + rewrite decide_False; [done | intros [= ?]; congruence].
    + destruct (nodeMap !! y) as [o|] eqn:Ho.
      * destruct (decide (ia = o)) as [<-|Hne].
        -- apply Hlk in Ho as ->. by rewrite decide_True.
        -- rewrite decide_False; [done |]. intros [= ->].
           assert (nodeMap !! a = Some ia) as Ha by by apply Hlk. congruence.
      * rewrite decide_False; [done |]. intros [= ->].
        assert (nodeMap !! a = Some ia) as Ha by by apply Hlk. congruence.
  - assert (y = a) as -> by tauto.
    rewrite (decide_False (P := (x, a) = (a, a))) by (intros [= ?]; done).
    destruct (decide (x = groundNode)) as [->|Hg]; [done |].
    destruct (nodeMap !! x) as [o|] eqn:Ho; [| done].
    rewrite decide_False; [done |]. intros <-. apply Hlk in Ho. done.
Qed.

(** An index of the node map stands for one identifier only. *)
Lemma nodeMapOf_index (ns : list Node) (a : string) (ia : nat) :
  nodeMapOf ns !! a = Some ia -> forall o, nodeMapOf ns !! o = Some ia <-> o = a.
Proof.
  intros Ha o. split; [| by intros ->].
  intros Ho. apply nodeMapOf_Some in Ha as (n & Hn & <-).
  apply nodeMapOf_Some in Ho as (n' & Hn' & <-). congruence.
Qed.

(** A fold over the conductances is a fold over the components that
    looks at the resistors only, each with one over its resistance. *)
Lemma fold_conductances (f : num -> Conductance num -> num) (circuit : Circuit num)
    (acc : num) :
  fold_left f (conductancesOf circuit) acc
  = fold_left
      (fun acc r =>
         if decide (c_type r = Resistor) then
           f acc {| g_comp := r;
                    g_R := convertToOhms (c_value r) (c_unit r);
                    g_G := conductance r |}
         else acc)
      (components circuit) acc.
Proof.
  unfold conductancesOf, resistorsOf. revert acc.
  induction (components circuit) as [|r l IH]; intros acc; [done |].
  rewrite filter_cons. cbn [fold_left].
  destruct (decide (c_type r = Resistor)); [cbn [map fold_left] |]; apply IH.
Qed.

(** C5. Stamping symmetry.  For two distinct non-ground nodes [a] and [b]
    of a circuit, with their indices [ia] and [ib] in the node map, the
    assembled matrix has [A[ia][ib] = A[ib][ia]], both being [-G] summed
    over the resistors of the circuit between [a] and [b], and either
    diagonal entry is [+G] summed over the resistors of the circuit with a
    terminal at that node, [G] being one over the resistance in ohms; the
    ohms of the four units are the value times 1, 1000, 1000000 and
    0.001. *)
Theorem stamping_symmetry (circuit : Circuit num) (a b : string) (ia ib : nat)
    (A : Matrix.t num) (bv : list num) (eqs : list string) :
  a <> b ->
  nodeMapOf (unknownNodes circuit) !! a = Some ia ->
  nodeMapOf (unknownNodes circuit) !! b = Some ib ->
  assemble circuit = Some (A, bv, eqs) ->
  entry A ia ib = mutualStamps circuit a b
  /\ entry A ib ia = mutualStamps circuit a b
  /\ entry A ia ia = selfStamps circuit a
  /\ entry A ib ib = selfStamps circuit b
  /\ forall value : num,
       convertToOhms value "Ω" = value * ofZ 1
       /\ convertToOhms value "kΩ" = value * ofZ 1000
       /\ convertToOhms value "MΩ" = value * ofZ 1000000
       /\ convertToOhms value "mΩ" = value * milli.
Proof.
  intros Hab Ha Hb Hasm.
  destruct (nodeMapOf_Some _ _ _ Ha) as (na & Hna & Hida).
  destruct (nodeMapOf_Some _ _ _ Hb) as (nb & Hnb & Hidb).
  pose proof (lookup_lt_Some _ _ _ Hna) as Hia.
  pose proof (lookup_lt_Some _ _ _ Hnb) as Hib.
  assert (ia <> ib) as Hi by (intros ->; congruence).
  assert (forall x n, unknownNodes circuit !! x = Some n -> n_id n <> groundNode) as Hg.
  { intros x n Hx Hid. apply (unknownNodes_not_ground circuit).
    rewrite <- Hid. apply list_elem_of_fmap. exists n. split; [done |].
    by eapply list_elem_of_lookup_2. }
  assert (a <> groundNode) as Hga by (rewrite <- Hida; by eapply Hg).
  assert (b <> groundNode) as Hgb by (rewrite <- Hidb; by eapply Hg).
  pose proof (nodeMapOf_index _ _ _ Ha) as Hla.
  pose proof (nodeMapOf_index _ _ _ Hb) as Hlb.
  rewrite (assemble_node_entry _ _ _ _ ia ib na Hasm Hna Hib).
  rewrite (assemble_node_entry _ _ _ _ ib ia nb Hasm Hnb Hia).
  rewrite (assemble_node_entry _ _ _ _ ia ia na Hasm Hna Hia).
  rewrite (assemble_node_entry _ _ _ _ ib ib nb Hasm Hnb Hib).
  rewrite !fold_conductances.
  unfold mutualStamps, selfStamps.
  split; [| split; [| split; [| split]]].
  - apply fold_left_pointwise. intros acc r.
    rewrite (mutual_stamp _ na a b ia ib) by done.
    unfold joins, resistorBetween. cbn [g_comp g_G].
    repeat case_decide; tauto.
  - apply fold_left_pointwise. intros acc r.
    rewrite (mutual_stamp _ nb b a ib ia) by done.
    unfold joins, resistorBetween. cbn [g_comp g_G].
    repeat case_decide; tauto.
  - apply fold_left_pointwise. intros acc r.
    rewrite (self_stamp _ na a ia) by done.
    unfold touches, resistorAt. cbn [g_comp g_G].
    repeat case_decide; tauto.
  - apply fold_left_pointwise. intros acc r.
    rewrite (self_stamp _ nb b ib) by done.
    unfold touches, resistorAt. cbn [g_comp g_G].
    repeat case_decide; tauto.
  - intros value. unfold convertToOhms. repeat split; by repeat case_decide.
Qed.

End Stamping.

(** ** The analysis *)

Arguments assemble : simpl never.
Arguments Matrix.solve : simpl never.
Arguments voltagesOf : simpl never.

Section AnalysisFacts.
Context {num : Type} `{Number num}.
Local Open Scope num_scope.

(** What a successful analysis is made of. *)
Lemma analyze_Success (circuit : Circuit num) (v : gmap string num)
    (r : list (ComponentResult num)) (s : list Step) (m : string) :
  analyzeNodalMethod circuit = Success v r s m ->
  exists A b eqs solution trace calcs,
    assemble circuit = Some (A, b, eqs)
    /\ Matrix.solve A b = (Some solution, trace)
    /\ v = voltagesOf (unknownNodes circuit) solution
    /\ r = map (componentResult circuit v solution) (components circuit)
    /\ mapM (componentCalc v) r = Some calcs
    /\ s = [step1 circuit; step2 circuit; step3 eqs; step4 A b; step5 trace;
            step6 circuit solution; step7 calcs; step8 r]
    /\ m = "Nodal".
Proof.
  unfold analyzeNodalMethod.
  destruct (assemble circuit) as [[[A b] eqs]|] eqn:Hasm; [| done].
  destruct (Matrix.solve A b) as [[solution|] trace] eqn:Hsolve; [| done].
  destruct (mapM _ _) as [calcs|] eqn:Hcalcs; [| done].
  intros [= <- <- <- <-]. by exists A, b, eqs, solution, trace, calcs.
Qed.

Lemma backRow_length (aug : list (list num)) (n : nat) (x : list num) (i : nat) :
  length (Matrix.backRow aug n x i) = length x.
Proof.
  unfold Matrix.backRow. rewrite length_insert.
  transitivity (length (<[i := Matrix.cell aug i n]> x)); [| apply length_insert].
  generalize (<[i := Matrix.cell aug i n]> x) as x1.
  induction (seq (i + 1) (n - (i + 1))) as [|j l IH]; intros x1; simpl; [done |].
  by rewrite IH, length_insert.
Qed.

Lemma backSubstitution_length (aug : list (list num)) (n : nat) :
  length (Matrix.backSubstitution aug n) = n.
Proof.
  unfold Matrix.backSubstitution.
  transitivity (length (replicate n (ofZ 0 : num))); [| apply length_replicate].
  generalize (replicate n (ofZ 0 : num)) as x.
  induction (rev (seq 0 n)) as [|i l IH]; intros x; simpl; [done |].
  by rewrite IH, backRow_length.
Qed.

(** A solution has one entry per row of the matrix. *)
Lemma solve_length (m : Matrix.t num) (b x : list num) (trace : list (string * string)) :
  Matrix.solve m b = (Some x, trace) -> length x = Matrix.rows m.
Proof.
  unfold Matrix.solve.
  destruct (Matrix.forward _ _ _) as [[aug steps]|steps]; [| done].
  intros [= <- _]. apply backSubstitution_length.
Qed.

Lemma forward_app (l1 l2 : list nat) (n : nat)
    (st : list (list num) * list (string * string)) :
  Matrix.forward (l1 ++ l2) n st
  = match Matrix.forward l1 n st with
    | inl st' => Matrix.forward l2 n st'
    | inr steps => inr steps
    end.
Proof.
  revert st. induction l1 as [|i l1 IH]; intros st; simpl; [done |].
  destruct (Matrix.pivot i n st) as [aug steps].
  by destruct (nabs (Matrix.cell aug i i) <? tol).
Qed.

(** The forward elimination stops at the first stage whose pivot is
    below the tolerance, with the trace it has then. *)
Lemma forward_singular (stages : list nat) (n : nat)
    (st : list (list num) * list (string * string)) (trace : list (string * string)) :
  Matrix.forward stages n st = inr trace <->
  exists l1 i l2 st' aug,
    stages = l1 ++ i :: l2
    /\ Matrix.forward l1 n st = inl st'
    /\ Matrix.pivot i n st' = (aug, trace)
    /\ (nabs (Matrix.cell aug i i) <? tol) = true.
Proof.
  split.
  - revert st. induction stages as [|i stages IH]; intros st; simpl; [done |].
    destruct (Matrix.pivot i n st) as [aug steps] eqn:Hp.
    destruct (nabs (Matrix.cell aug i i) <? tol) eqn:Hlt.
    + intros [= <-]. by exists [], i, stages, st, aug.
    + intros (l1 & j & l2 & st' & aug' & -> & Hf & Hp' & Hlt')%IH.
      exists (i :: l1), j, l2, st', aug'. repeat split; try done.
      simpl. by rewrite Hp, Hlt.
  - intros (l1 & i & l2 & st' & aug & -> & Hf & Hp & Hlt).
    rewrite forward_app, Hf. simpl. by rewrite Hp, Hlt.
Qed.

Lemma seq_split_at (n i : nat) :
  (i < n)%nat -> seq 0 n = seq 0 i ++ i :: seq (S i) (n - S i).
Proof.
  intros Hi. replace n with (i + S (n - S i))%nat at 1 by lia.
  by rewrite seq_app.
Qed.

(** The solver returns no solution exactly when some stage is singular,
    and its trace is then the one accumulated up to that stage. *)
Lemma solve_None (A : Matrix.t num) (b : list num) (trace : list (string * string)) :
  Matrix.solve A b = (None, trace) <-> exists i, singularAtStage A b i trace.
Proof.
  unfold Matrix.solve, singularAtStage. split.
  - destruct (Matrix.forward _ _ _) as [[aug steps]|steps] eqn:Hf; [done |].
    intros [= <-].
    apply forward_singular in Hf as (l1 & i & l2 & st' & aug & Hseq & Hf & Hp & Hlt).
    assert (l1 = seq 0 i /\ (i < Matrix.rows A)%nat) as [-> Hi].
    { assert (length l1 = i /\ (i < Matrix.rows A)%nat) as [Hlen Hi].
      { pose proof (f_equal (fun l => l !! length l1) Hseq) as Hi. simpl in Hi.
        rewrite list_lookup_middle in Hi by done.
        apply lookup_seq in Hi. lia. }
      split; [| done].
      rewrite (seq_split_at _ i Hi) in Hseq.
      apply app_inj_1 in Hseq as [Hl _]; [done |]. by rewrite length_seq. }
    exists i. split; [done |]. by exists st', aug.
  - intros (i & Hi & st & aug & Hf & Hp & Hlt).
    rewrite (seq_split_at _ i Hi), forward_app, Hf. simpl. by rewrite Hp, Hlt.
Qed.

(** C4 as the code has it.  When a stage of the elimination finds its best
    pivot below the tolerance, the solver returns no solution together
    with the trace accumulated up to that stage, and the analysis returns
    the singular-system failure whose records are exactly the four of the
    phases before the solver; no back substitution takes place and the
    trace of the solver is not part of the failure. *)
Theorem singular_failure (circuit : Circuit num) (A : Matrix.t num) (b : list num)
    (eqs : list string) (i : nat) (trace : list (string * string)) :
  assemble circuit = Some (A, b, eqs) ->
  singularAtStage A b i trace ->
  Matrix.solve A b = (None, trace)
  /\ analyzeNodalMethod circuit
     = Failure singularMessage [step1 circuit; step2 circuit; step3 eqs; step4 A b].
Proof.
  intros Hasm Hsing.
  assert (Matrix.solve A b = (None, trace)) as Hsolve by (apply solve_None; eauto).
  split; [done |]. unfold analyzeNodalMethod. by rewrite Hasm, Hsolve.
Qed.

(** C8. Trace completeness.  The records of a successful analysis are
    eight, one per phase, in the order of the phases. *)
Theorem trace_complete (circuit : Circuit num) (v : gmap string num)
    (r : list (ComponentResult num)) (s : list Step) (m : string) :
  analyzeNodalMethod circuit = Success v r s m ->
  map title s = phaseTitles.
Proof.
  intros (A & b & eqs & solution & trace & calcs & _ & _ & _ & _ & _ & -> & _)%analyze_Success.
  done.
Qed.

(** No unknown node is called "gnd", so no potential of an unknown
    replaces the 0 that the map is given for the ground first. *)
Lemma voltagesOf_ground (circuit : Circuit num) (solution : list num) :
  voltagesOf (unknownNodes circuit) solution !! groundNode = Some (ofZ 0).
Proof.
  rewrite voltagesOf_insertNodes.
  rewrite insertNodes_absent by apply unknownNodes_not_ground.
  apply lookup_insert_eq.
Qed.

(** C7. Ground invariant.  The potentials of a successful analysis bind
    the ground identifier to 0. *)
Theorem ground_potential_zero (circuit : Circuit num) (v : gmap string num)
    (r : list (ComponentResult num)) (s : list Step) (m : string) :
  analyzeNodalMethod circuit = Success v r s m ->
  v !! groundNode = Some (ofZ 0).
Proof.
  intros (A & b & eqs & solution & trace & calcs & _ & _ & -> & _)%analyze_Success.
  apply voltagesOf_ground.
Qed.

(** C10. The reference node is the identifier "gnd" and nothing else.  A
    successful analysis binds "gnd" to 0 whatever the node list holds, and
    every listed node of another identifier is an unknown of the system:
    it has an index among the unknowns and its potential is the entry of
    the solution at that index. *)
Theorem ground_is_literal (circuit : Circuit num) (v : gmap string num)
    (r : list (ComponentResult num)) (s : list Step) (m : string) :
  analyzeNodalMethod circuit = Success v r s m ->
  v !! "gnd" = Some (ofZ 0)
  /\ exists A b eqs solution trace,
      assemble circuit = Some (A, b, eqs)
      /\ Matrix.solve A b = (Some solution, trace)
      /\ length solution
         = (length (unknownNodes circuit) + length (voltageSourcesOf circuit))%nat
      /\ forall n, n ∈ nodes circuit -> n_id n <> "gnd" ->
           exists i n', unknownNodes circuit !! i = Some n'
                        /\ n_id n' = n_id n
                        /\ solution !! i = v !! n_id n.
Proof.
  intros Hok.
  apply analyze_Success in Hok
    as (A & b & eqs & solution & trace & calcs & Hasm & Hsolve & -> & _).
  split; [apply voltagesOf_ground |].
  exists A, b, eqs, solution, trace. split; [done |]. split; [done |].
  destruct (assemble_total circuit) as (A' & b' & eqs' & Hasm' & Hsq & Hb).
  rewrite Hasm in Hasm'. injection Hasm' as <- <- <-.
  assert (length solution
          = (length (unknownNodes circuit) + length (voltageSourcesOf circuit))%nat)
    as Hlen.
  { rewrite (solve_length _ _ _ _ Hsolve). by destruct Hsq. }
  split; [done |].
  intros n Hn Hid.
  assert (n_id n ∈ map n_id (unknownNodes circuit)) as Hin.
  { apply list_elem_of_fmap. exists n. split; [done |].
    unfold unknownNodes. by apply list_elem_of_filter. }
  rewrite voltagesOf_insertNodes.
  destruct (insertNodes_present (solutionAt solution) 0 (unknownNodes circuit)
              (<[groundNode := ofZ 0]> ∅) (n_id n) Hin) as (j & n' & Hj & Hid' & ->).
  exists j, n'. repeat split; try done.
  apply lookup_lt_Some in Hj as Hlt. simpl. unfold solutionAt.
  destruct (lookup_lt_is_Some_2 solution j) as [x ->]; [lia | done].
Qed.

End AnalysisFacts.

(** ** Current sources *)

Section CurrentSources.
Context {num : Type} `{Number num}.
Local Open Scope num_scope.

Lemma filter_type_without (ty : ComponentType) (l : list (Component num)) :
  ty <> CurrentSource ->
  filter (fun c => c_type c = ty) (filter (fun c => c_type c <> CurrentSource) l)
  = filter (fun c => c_type c = ty) l.
Proof.
  intros Hty. induction l as [|c l IH]; [done |].
  rewrite (filter_cons (fun c => c_type c <> CurrentSource)).
  destruct (decide (c_type c <> CurrentSource)) as [Hc|Hc].
  - rewrite !filter_cons. destruct (decide (c_type c = ty)); by rewrite IH.
  - rewrite filter_cons. rewrite IH. rewrite decide_False; [done |].
    intros Heq. apply Hc. by rewrite Heq.
Qed.

Lemma filter_result_type_without (ty : ComponentType) (l : list (ComponentResult num)) :
  ty <> CurrentSource ->
  filter (fun c => c_type (r_comp c) = ty)
         (filter (fun c => c_type (r_comp c) <> CurrentSource) l)
  = filter (fun c => c_type (r_comp c) = ty) l.
Proof.
  intros Hty. induction l as [|c l IH]; [done |].
  rewrite (filter_cons (fun c => c_type (r_comp c) <> CurrentSource)).
  destruct (decide (c_type (r_comp c) <> CurrentSource)) as [Hc|Hc].
  - rewrite !filter_cons. destruct (decide (c_type (r_comp c) = ty)); by rewrite IH.
  - rewrite filter_cons. rewrite IH. rewrite decide_False; [done |].
    intros Heq. apply Hc. by rewrite Heq.
Qed.

(** The assembly reads the nodes, the resistors and the voltage sources
    of a circuit and nothing else. *)
Lemma assemble_without_current_sources (circuit : Circuit num) :
  assemble circuit = assemble (withoutCurrentSources circuit).
Proof.
  unfold assemble, conductancesOf, resistorsOf, voltageSourcesOf, unknownNodes.
  simpl. by rewrite !filter_type_without.
Qed.

Lemma componentResult_current_source (circuit : Circuit num) (v : gmap string num)
    (solution : list num) (comp : Component num) :
  c_type comp = CurrentSource ->
  current (componentResult circuit v solution comp) = ofZ 0
  /\ power (componentResult circuit v solution comp)
     = nabs (voltage (componentResult circuit v solution comp) * ofZ 0).
Proof.
  intros Hty. unfold componentResult. destruct (c_nodes comp) as [nA nB].
  rewrite Hty. by simpl.
Qed.

Lemma r_comp_componentResult (circuit : Circuit num) (v : gmap string num)
    (solution : list num) (comp : Component num) :
  r_comp (componentResult circuit v solution comp) = comp.
Proof. unfold componentResult. by destruct (c_nodes comp). Qed.

End CurrentSources.

(** In exact arithmetic a product with 0 has absolute value 0. *)
Lemma Q_zero_power (x : Q) : nabs (nmul x (ofZ 0)) = (ofZ 0 : Q).
Proof.
  simpl. assert (Qred (x * inject_Z 0) = 0%Q) as ->; [| done].
  change 0%Q with (Qred 0). apply Qred_complete. ring.
Qed.

(** In binary64 so has the product of a finite number with 0. *)
Lemma float_zero_power (x : float) :
  finite x = true -> nabs (nmul x (ofZ 0)) = (ofZ 0 : float).
Proof.
  unfold finite. simpl. intros Hfin.
  rewrite <- (SF2Prim_Prim2SF (PrimFloat.abs _)).
  rewrite abs_spec, mul_spec.
  destruct (Prim2SF x); try discriminate; reflexivity.
Qed.

(** In binary64 the product of an infinity or of NaN with 0 is NaN. *)
Lemma float_nan_power (x : float) :
  finite x = false -> nabs (nmul x (ofZ 0)) = (nan : float).
Proof.
  unfold finite. simpl. intros Hfin.
  rewrite <- (SF2Prim_Prim2SF (PrimFloat.abs _)).
  rewrite abs_spec, mul_spec.
  destruct (Prim2SF x) as [s|s| |s m e]; try discriminate; try destruct s; reflexivity.
Qed.

(** C9. Current sources take no part in the analysis.  The assembled
    system is that of the circuit without them; a successful analysis
    reports current 0 for each of them and the power [|voltage * 0|],
    which is 0 in exact arithmetic and, in binary64, 0 for a finite
    voltage and NaN for an infinite one or NaN; and the two sums of the
    verification are those of the results without the current sources. *)
Theorem current_sources_ignored :
  (forall (num : Type) (N : Number num) (circuit : Circuit num),
      assemble circuit = assemble (withoutCurrentSources circuit)
      /\ forall v r s m,
          analyzeNodalMethod circuit = Success v r s m ->
          (forall cr, cr ∈ r -> c_type (r_comp cr) = CurrentSource ->
                      current cr = ofZ 0
                      /\ power cr = nabs (nmul (voltage cr) (ofZ 0)))
          /\ totalPower Resistor r
             = totalPower Resistor
                 (filter (fun cr => c_type (r_comp cr) <> CurrentSource) r)
          /\ totalPower VoltageSource r
             = totalPower VoltageSource
                 (filter (fun cr => c_type (r_comp cr) <> CurrentSource) r))
  /\ (forall x : Q, nabs (nmul x (ofZ 0)) = ofZ 0)
  /\ (forall x : float, finite x = true -> nabs (nmul x (ofZ 0)) = ofZ 0)
  /\ (forall x : float, finite x = false -> nabs (nmul x (ofZ 0)) = (nan : float)).
Proof.
  split; [| split; [apply Q_zero_power | split;
                     [apply float_zero_power | apply float_nan_power]]].
  intros num N circuit. split; [apply assemble_without_current_sources |].
  intros v r s m Hok.
  apply analyze_Success in Hok
    as (A & b & eqs & solution & trace & calcs & _ & _ & _ & -> & _).
  split; [| split].
  - intros cr (comp & -> & Hcomp)%list_elem_of_fmap Hty.
    rewrite r_comp_componentResult in Hty.
    by apply componentResult_current_source.
  - unfold totalPower. by rewrite filter_result_type_without.
  - unfold totalPower. by rewrite filter_result_type_without.
Qed.

(** ** The voltage divider *)

Ltac decide_step :=
  match goal with
  | |- context [decide ?P] =>
      first [ rewrite (decide_True (P := P)) by (done || tauto || congruence || lia)
            | rewrite (decide_False (P := P)) by (done || tauto || congruence || lia) ]
  end.

Ltac cell_step :=
  match goal with
  | |- context [Matrix.cell ?a ?r ?c] =>
      let v := eval cbv [Matrix.cell lookup list_lookup mbind option_bind default
                         from_option id] in (Matrix.cell a r c) in
      progress change (Matrix.cell a r c) with v
  | |- context [Matrix.xval ?a ?r] =>
      let v := eval cbv [Matrix.xval lookup list_lookup mbind option_bind default
                         from_option id] in (Matrix.xval a r) in
      progress change (Matrix.xval a r) with v
  end.

(** One step of the solver on a matrix given by its entries. *)
Ltac solver_step :=
  first
    [ decide_step
    | cell_step
    | progress cbn [Matrix.forward Matrix.pivot Matrix.findPivot Matrix.eliminate
                    Matrix.eliminateRow Matrix.swapRows Matrix.setCell
                    Matrix.backSubstitution Matrix.backRow
                    seq rev app fold_left Nat.add Nat.sub replicate
                    lookup list_lookup insert list_insert default from_option id
                    fst snd] ].

Section Divider.
Context {num : Type} `{Number num}.
Local Open Scope num_scope.

(** The solver on the matrix of a divider when the pivot search moves the
    source row up, both pivots pass and the factor is applied. *)
Lemma solve_divider_swap (G V : num) :
  (nabs (ofZ 0 + G) <? nabs (ofZ 1)) = true ->
  (nabs (ofZ 1) <? tol) = false ->
  (tol <? nabs ((ofZ 0 + G) / ofZ 1)) = true ->
  (nabs (ofZ 1 - (ofZ 0 + G) / ofZ 1 * ofZ 0) <? tol) = false ->
  (Matrix.solve (dividerMatrix G) [ofZ 0; V]).1
  = Some [(V - ofZ 0 * ((ofZ 0 - (ofZ 0 + G) / ofZ 1 * V)
                        / (ofZ 1 - (ofZ 0 + G) / ofZ 1 * ofZ 0))) / ofZ 1;
          (ofZ 0 - (ofZ 0 + G) / ofZ 1 * V)
          / (ofZ 1 - (ofZ 0 + G) / ofZ 1 * ofZ 0)].
Proof.
  intros H1 H2 H3 H4. unfold Matrix.solve.
  change (Matrix.augment (dividerMatrix G) [ofZ 0; V])
    with [[ofZ 0 + G; ofZ 1; ofZ 0]; [ofZ 1; ofZ 0; V]].
  change (Matrix.rows (dividerMatrix G)) with 2%nat.
  repeat solver_step.
  rewrite H1. repeat solver_step.
  rewrite H2. repeat solver_step.
  rewrite H3. repeat solver_step.
  rewrite H4. repeat solver_step.
  done.
Qed.

(** The same when the resistor row keeps the first place. *)
Lemma solve_divider_keep (G V : num) :
  (nabs (ofZ 0 + G) <? nabs (ofZ 1)) = false ->
  (nabs (ofZ 0 + G) <? tol) = false ->
  (tol <? nabs (ofZ 1 / (ofZ 0 + G))) = true ->
  (nabs (ofZ 0 - ofZ 1 / (ofZ 0 + G) * ofZ 1) <? tol) = false ->
  (Matrix.solve (dividerMatrix G) [ofZ 0; V]).1
  = Some [(ofZ 0 - ofZ 1 * ((V - ofZ 1 / (ofZ 0 + G) * ofZ 0)
                            / (ofZ 0 - ofZ 1 / (ofZ 0 + G) * ofZ 1))) / (ofZ 0 + G);
          (V - ofZ 1 / (ofZ 0 + G) * ofZ 0)
          / (ofZ 0 - ofZ 1 / (ofZ 0 + G) * ofZ 1)].
Proof.
  intros H1 H2 H3 H4. unfold Matrix.solve.
  change (Matrix.augment (dividerMatrix G) [ofZ 0; V])
    with [[ofZ 0 + G; ofZ 1; ofZ 0]; [ofZ 1; ofZ 0; V]].
  change (Matrix.rows (dividerMatrix G)) with 2%nat.
  repeat solver_step.
  rewrite H1. repeat solver_step.
  rewrite H2. repeat solver_step.
  rewrite H3. repeat solver_step.
  rewrite H4. repeat solver_step.
  done.
Qed.

(** When the factor of the resistor row does not exceed the tolerance the
    row is left as it is, and the current of the source comes out [0/1]. *)
Lemma solve_divider_swap_skip (G V : num) :
  (nabs (ofZ 0 + G) <? nabs (ofZ 1)) = true ->
  (nabs (ofZ 1) <? tol) = false ->
  (tol <? nabs ((ofZ 0 + G) / ofZ 1)) = false ->
  (Matrix.solve (dividerMatrix G) [ofZ 0; V]).1
  = Some [(V - ofZ 0 * (ofZ 0 / ofZ 1)) / ofZ 1; ofZ 0 / ofZ 1].
Proof.
  intros H1 H2 H3. unfold Matrix.solve.
  change (Matrix.augment (dividerMatrix G) [ofZ 0; V])
    with [[ofZ 0 + G; ofZ 1; ofZ 0]; [ofZ 1; ofZ 0; V]].
  change (Matrix.rows (dividerMatrix G)) with 2%nat.
  repeat solver_step.
  rewrite H1. repeat solver_step.
  rewrite H2. repeat solver_step.
  rewrite H3. repeat solver_step.
  rewrite H2. repeat solver_step.
  done.
Qed.

(** When the resistor row keeps the first place and the factor of the
    source row does not exceed the tolerance, the source row keeps its 0
    in the second column and the second stage is singular. *)
Lemma solve_divider_keep_skip (G V : num) :
  (nabs (ofZ 0 + G) <? nabs (ofZ 1)) = false ->
  (nabs (ofZ 0 + G) <? tol) = false ->
  (tol <? nabs (ofZ 1 / (ofZ 0 + G))) = false ->
  (nabs (ofZ 0) <? tol) = true ->
  (Matrix.solve (dividerMatrix G) [ofZ 0; V]).1 = None.
Proof.
  intros H1 H2 H3 H4. unfold Matrix.solve.
  change (Matrix.augment (dividerMatrix G) [ofZ 0; V])
    with [[ofZ 0 + G; ofZ 1; ofZ 0]; [ofZ 1; ofZ 0; V]].
  change (Matrix.rows (dividerMatrix G)) with 2%nat.
  repeat solver_step.
  rewrite H1. repeat solver_step.
  rewrite H2. repeat solver_step.
  rewrite H3. repeat solver_step.
  rewrite H4. done.
Qed.

(** The texts of step 7 exist when the terminals of every resistor have a
    potential in the map. *)
Lemma componentCalcs_total (circuit : Circuit num) (v : gmap string num)
    (solution : list num) (comps : list (Component num)) :
  (forall comp, comp ∈ comps -> c_type comp = Resistor ->
                is_Some (v !! (c_nodes comp).1) /\ is_Some (v !! (c_nodes comp).2)) ->
  exists calcs,
    mapM (componentCalc v) (map (componentResult circuit v solution) comps) = Some calcs.
Proof.
  induction comps as [|comp comps IH]; intros Hall; [by exists [] |].
  destruct IH as [calcs Hcalcs]; [intros c' Hc'; apply Hall; by right |].
  assert (exists calc, componentCalc v (componentResult circuit v solution comp)
                       = Some calc) as [calc Hcalc].
  { unfold componentCalc. rewrite r_comp_componentResult.
    destruct (c_type comp) eqn:Hty; [| eauto | eauto].
    destruct (Hall comp) as [[vA HA] [vB HB]]; [by left | done |].
    destruct (c_nodes comp) as [nA nB]. simpl in HA, HB.
    rewrite HA, HB. simpl. eauto. }
  exists (calc :: calcs). simpl. rewrite Hcalc. simpl.
  change (mapM (componentCalc v) (map (componentResult circuit v solution) comps)
          = Some calcs) in Hcalcs.
  by rewrite Hcalcs.
Qed.

(** A solved system whose resistors all end at nodes gives a result. *)
Lemma analyze_Success_intro (circuit : Circuit num) (A : Matrix.t num) (b : list num)
    (eqs : list string) (solution : list num) (trace : list (string * string)) :
  assemble circuit = Some (A, b, eqs) ->
  Matrix.solve A b = (Some solution, trace) ->
  (forall comp, comp ∈ components circuit -> c_type comp = Resistor ->
                is_Some (voltagesOf (unknownNodes circuit) solution !! (c_nodes comp).1)
                /\ is_Some (voltagesOf (unknownNodes circuit) solution
                             !! (c_nodes comp).2)) ->
  exists s,
    analyzeNodalMethod circuit
    = Success (voltagesOf (unknownNodes circuit) solution)
        (map (componentResult circuit (voltagesOf (unknownNodes circuit) solution)
                solution) (components circuit))
        s "Nodal".
Proof.
  intros Hasm Hsolve Hall.
  destruct (componentCalcs_total circuit _ solution _ Hall) as [calcs Hcalcs].
  unfold analyzeNodalMethod. rewrite Hasm, Hsolve, Hcalcs. eauto.
Qed.

Lemma divider_parts (c : Circuit num) (n1 : string) (vs r : Component num) :
  isDivider c n1 vs r ->
  (exists na, unknownNodes c = [na] /\ n_id na = n1)
  /\ voltageSourcesOf c = [vs]
  /\ resistorsOf c = [r].
Proof.
  intros (Hn1 & Hns & Hcs & Htv & Hnv & Htr & Hnr).
  split; [| split].
  - unfold unknownNodes.
    destruct (nodes c) as [|na [|nb [|]]]; simpl in Hns; try (by destruct Hns).
    destruct Hns as [[= Ha Hb]|[= Ha Hb]].
    + exists na. rewrite !filter_cons, filter_nil. by repeat decide_step.
    + exists nb. rewrite !filter_cons, filter_nil. by repeat decide_step.
  - unfold voltageSourcesOf.
    destruct Hcs as [->| ->]; rewrite !filter_cons, filter_nil; by repeat decide_step.
  - unfold resistorsOf.
    destruct Hcs as [->| ->]; rewrite !filter_cons, filter_nil; by repeat decide_step.
Qed.

(** The system of a divider. *)
Lemma divider_system (c : Circuit num) (n1 : string) (vs r : Component num) :
  isDivider c n1 vs r ->
  exists eqs,
    assemble c
    = Some (dividerMatrix (ofZ 1 / convertToOhms (c_value r) (c_unit r)),
            [ofZ 0; c_value vs], eqs).
Proof.
  intros Hdiv. pose proof Hdiv as (Hn1 & _ & _ & Htv & Hnv & Htr & Hnr).
  destruct (divider_parts c n1 vs r Hdiv) as ((na & Hun & Hna) & Hvs & Hrs).
  unfold assemble, conductancesOf. rewrite Hun, Hvs, Hrs.
  unfold nodeMapOf, indexed.
  cbn [length map Nat.add indexedFrom foldM fold_left].
  unfold stampNode, indexed. cbn [indexedFrom foldM].
  unfold stampConductance, stampSourceColumn, stampSourceRow, terminalIndex.
  cbn [g_comp g_G]. rewrite Hnr, Hnv, Hna.
  rewrite lookup_insert_eq.
  unfold Matrix.add, Matrix.set, Matrix.new, writeAt.
  repeat (first [ decide_step
                | progress cbn [mbind option_bind replicate lookup list_lookup insert
                                list_insert length Matrix.data Matrix.rows Matrix.cols
                                app Nat.add] ]).
  by eexists.
Qed.

(** The result of a divider whose system the solver solves: the potential
    of [n1] is the first unknown and the current of the source the second. *)
Lemma divider_analysis (c : Circuit num) (n1 : string) (vs r : Component num)
    (x0 x1 : num) :
  isDivider c n1 vs r ->
  (Matrix.solve (dividerMatrix (ofZ 1 / convertToOhms (c_value r) (c_unit r)))
                [ofZ 0; c_value vs]).1 = Some [x0; x1] ->
  exists v crs s,
    analyzeNodalMethod c = Success v crs s "Nodal"
    /\ v !! n1 = Some x0
    /\ exists cr, cr ∈ crs /\ r_comp cr = vs /\ current cr = x1.
Proof.
  intros Hdiv Hsol. pose proof Hdiv as (Hn1 & _ & Hcs & Htv & Hnv & Htr & Hnr).
  destruct (divider_system c n1 vs r Hdiv) as [eqs Hasm].
  destruct (divider_parts c n1 vs r Hdiv) as ((na & Hun & Hna) & Hvs & Hrs).
  destruct (Matrix.solve _ _) as [sol trace] eqn:Hsolve. simpl in Hsol. subst sol.
  assert (voltagesOf [na] [x0; x1] !! n1 = Some x0) as Hv1.
  { unfold voltagesOf, indexed. cbn [fold_left indexedFrom]. rewrite Hna.
    by rewrite lookup_insert_eq. }
  assert (voltagesOf [na] [x0; x1] !! groundNode = Some (ofZ 0)) as Hvg.
  { unfold voltagesOf, indexed. cbn [fold_left indexedFrom]. rewrite Hna.
    rewrite lookup_insert_ne by done. by rewrite lookup_insert_eq. }
  destruct (analyze_Success_intro c _ _ _ _ _ Hasm Hsolve) as [s Hs].
  { intros comp Hcomp Hty. rewrite Hun.
    assert (comp = r) as ->.
    { destruct Hcs as [Hc|Hc]; rewrite Hc in Hcomp;
        apply elem_of_cons in Hcomp as [->|Hcomp]; try done; try congruence;
        apply list_elem_of_singleton in Hcomp; congruence. }
    rewrite Hnr. simpl. eauto. }
  rewrite Hun in Hs.
  eexists _, _, s. split; [exact Hs |]. split; [exact Hv1 |].
  exists (componentResult c (voltagesOf [na] [x0; x1]) [x0; x1] vs).
  split; [| split].
  - apply list_elem_of_fmap_2. destruct Hcs as [-> | ->]; [by left | right; by left].
  - apply r_comp_componentResult.
  - unfold componentResult. destruct (c_nodes vs). rewrite Htv, Hvs, Hun.
    cbn [findIndex]. by repeat decide_step.
Qed.

(** A divider whose system the solver finds singular. *)
Lemma divider_failure (c : Circuit num) (n1 : string) (vs r : Component num) :
  isDivider c n1 vs r ->
  (Matrix.solve (dividerMatrix (ofZ 1 / convertToOhms (c_value r) (c_unit r)))
                [ofZ 0; c_value vs]).1 = None ->
  exists s, analyzeNodalMethod c = Failure singularMessage s.
Proof.
  intros Hdiv Hsol. destruct (divider_system c n1 vs r Hdiv) as [eqs Hasm].
  unfold analyzeNodalMethod. rewrite Hasm.
  destruct (Matrix.solve _ _) as [sol trace]. simpl in Hsol. subst sol. eauto.
Qed.

(** The analysis of a divider in any arithmetic: when the solver skips no
    factor and finds no pivot below the tolerance, the analysis succeeds
    and the two unknowns are what the elimination leaves, for either
    order of the rows. *)
Lemma divider_elimination (c : Circuit num) (n1 : string) (vs r : Component num) :
  isDivider c n1 vs r ->
  (sourceRowFirst (conductance r) = true ->
   exists v crs s,
     analyzeNodalMethod c = Success v crs s "Nodal"
     /\ v !! n1 = Some (sourceFirstPotential (conductance r) (c_value vs))
     /\ exists cr, cr ∈ crs /\ r_comp cr = vs
                   /\ current cr = sourceFirstCurrent (conductance r) (c_value vs))
  /\ (resistorRowFirst (conductance r) = true ->
      exists v crs s,
        analyzeNodalMethod c = Success v crs s "Nodal"
        /\ v !! n1 = Some (resistorFirstPotential (conductance r) (c_value vs))
        /\ exists cr, cr ∈ crs /\ r_comp cr = vs
                      /\ current cr = resistorFirstCurrent (conductance r) (c_value vs)).
Proof.
  intros Hdiv. split; intros Hrun.
  - unfold sourceRowFirst in Hrun.
    apply andb_true_iff in Hrun as [Hrun H4]. apply andb_true_iff in Hrun as [Hrun H3].
    apply andb_true_iff in Hrun as [H1 H2].
    apply negb_true_iff in H2, H4.
    apply (divider_analysis c n1 vs r _ _ Hdiv).
    by apply solve_divider_swap.
  - unfold resistorRowFirst in Hrun.
    apply andb_true_iff in Hrun as [Hrun H4]. apply andb_true_iff in Hrun as [Hrun H3].
    apply andb_true_iff in Hrun as [H1 H2].
    apply negb_true_iff in H1, H2, H4.
    apply (divider_analysis c n1 vs r _ _ Hdiv).
    by apply solve_divider_keep.
Qed.

End Divider.

(** *** The divider in exact arithmetic *)

Section ExactDivider.
Local Open Scope Q_scope.

Lemma Qltb_true (x y : Q) : Qltb x y = true <-> x < y.
Proof.
  unfold Qltb. rewrite negb_true_iff. split.
  - intros Hle. apply Qnot_le_lt. intros Hyx. apply Qle_bool_iff in Hyx. congruence.
  - intros Hlt. destruct (Qle_bool y x) eqn:E; [| done].
    apply Qle_bool_iff in E. by apply Qle_not_lt in E.
Qed.

Lemma Qltb_false (x y : Q) : Qltb x y = false <-> y <= x.
Proof. unfold Qltb. rewrite negb_false_iff. apply Qle_bool_iff. Qed.

Lemma inv_bounds (a : Q) :
  (1 # 10000000000) < a -> a < 10000000000 ->
  (1 # 10000000000) < / a /\ / a < 10000000000.
Proof.
  intros Hlo Hhi.
  assert (0 < a) as Hpos by lra.
  assert (a * / a == 1) as Hinv by (apply Qmult_inv_r; lra).
  assert (0 < / a) as Hipos by (by apply Qinv_lt_0_compat).
  split; nra.
Qed.

(** The solver on the system of a divider of resistance [R] and source
    value [V]: whichever row the pivot search puts first, no stage is
    singular and no factor is skipped when [R] lies between the tolerance
    and its inverse, and the solution is [V] and [-V/R]. *)
Lemma solve_divider_exact (R V : Q) :
  (1 # 10000000000) < Qabs R -> Qabs R < 10000000000 ->
  exists x0 x1,
    (Matrix.solve (dividerMatrix (ndiv (ofZ 1) R)) [ofZ 0; V]).1 = Some [x0; x1]
    /\ x0 == V /\ x1 == - V / R.
Proof.
  intros Hlo Hhi.
  assert (~ R == 0) as HR.
  { intros HR. rewrite HR in Hlo. vm_compute in Hlo. discriminate. }
  destruct (inv_bounds (Qabs R) Hlo Hhi) as [Hilo Hihi].
  assert (Qabs (/ R) == / Qabs R) as Habs by apply Qabs_Qinv.
  destruct (nlt (nabs (nadd (ofZ 0) (ndiv (ofZ 1) R))) (nabs (ofZ 1))) eqn:Hcmp.
  - eexists _, _. split; [apply solve_divider_swap; [done | done | |] |].
    + cbn [nlt nabs nadd ndiv ofZ tol Q_Number]. apply Qltb_true.
      rewrite !Qred_correct.
      assert ((0 + 1 / R) / 1 == / R) as -> by (field; done).
      by rewrite Habs.
    + cbn [nlt nabs nadd nmul nsub ndiv ofZ tol Q_Number]. apply Qltb_false.
      rewrite !Qred_correct.
      assert (1 - (0 + 1 / R) / 1 * 0 == 1) as -> by (field; done).
      done.
    + cbn [nlt nabs nadd nmul nsub ndiv ofZ tol Q_Number].
      rewrite !Qred_correct. split; field; done.
  - eexists _, _. split; [apply solve_divider_keep; [done | | |] |].
    + cbn [nlt nabs nadd ndiv ofZ tol Q_Number]. apply Qltb_false.
      rewrite !Qred_correct.
      assert (0 + 1 / R == / R) as -> by (field; done).
      rewrite Habs. lra.
    + cbn [nlt nabs nadd ndiv ofZ tol Q_Number]. apply Qltb_true.
      rewrite !Qred_correct.
      assert (1 / (0 + 1 / R) == R) as -> by (field; done).
      done.
    + cbn [nlt nabs nadd nmul nsub ndiv ofZ tol Q_Number]. apply Qltb_false.
      rewrite !Qred_correct.
      assert (0 - 1 / (0 + 1 / R) * 1 == - R) as -> by (field; done).
      rewrite Qabs_opp. lra.
    + cbn [nlt nabs nadd nmul nsub ndiv ofZ tol Q_Number].
      rewrite !Qred_correct. split; field; done.
Qed.

(** Outside that range the solver skips a factor.  From [1e10] on, the
    row of the resistor is left as it is and the current of the source is
    0; down from [1e-10], the row of the source is, and the analysis fails
    as singular. *)
Lemma divider_outside_range (c : Circuit Q) (n1 : string) (vs r : Component Q) :
  isDivider c n1 vs r ->
  (10000000000 <= Qabs (convertToOhms (c_value r) (c_unit r)) ->
   exists v crs s,
     analyzeNodalMethod c = Success v crs s "Nodal"
     /\ exists cr, cr ∈ crs /\ r_comp cr = vs /\ current cr == 0)
  /\ (0 < Qabs (convertToOhms (c_value r) (c_unit r)) ->
      Qabs (convertToOhms (c_value r) (c_unit r)) <= 1 # 10000000000 ->
      exists s, analyzeNodalMethod c = Failure singularMessage s).
Proof.
  intros Hdiv. set (R := convertToOhms (c_value r) (c_unit r)).
  assert (Qabs (/ R) == / Qabs R) as Habs by apply Qabs_Qinv.
  split.
  - intros Hbig.
    assert (~ R == 0) as HR.
    { intros HR. rewrite HR in Hbig. vm_compute in Hbig. by apply Hbig. }
    assert (0 < / Qabs R /\ / Qabs R <= 1 # 10000000000) as [Hipos Hile].
    { assert (0 < Qabs R) as Hpos by lra.
      assert (Qabs R * / Qabs R == 1) as Hinv by (apply Qmult_inv_r; lra).
      assert (0 < / Qabs R) by (by apply Qinv_lt_0_compat).
      split; [done | nra]. }
    assert ((Matrix.solve (dividerMatrix (ndiv (ofZ 1) R)) [ofZ 0; c_value vs]).1
            = Some [(c_value vs - ofZ 0 * (ofZ 0 / ofZ 1)) / ofZ 1; ofZ 0 / ofZ 1])%num
      as Hsol.
    { apply solve_divider_swap_skip.
      - cbn [nlt nabs nadd ndiv ofZ tol Q_Number]. apply Qltb_true.
        rewrite !Qred_correct.
        assert (0 + 1 / R == / R) as -> by (field; done).
        rewrite Habs. change (Qabs (inject_Z 1)) with 1. lra.
      - done.
      - cbn [nlt nabs nadd ndiv ofZ tol Q_Number]. apply Qltb_false.
        rewrite !Qred_correct.
        assert ((0 + 1 / R) / 1 == / R) as -> by (field; done).
        by rewrite Habs. }
    destruct (divider_analysis c n1 vs r _ _ Hdiv Hsol)
      as (v & crs & s & Hok & _ & cr & Hcr & Hcomp & Hcur).
    exists v, crs, s. split; [done |]. exists cr. repeat split; try done.
    by rewrite Hcur.
  - intros Hpos Hsmall.
    assert (~ R == 0) as HR.
    { intros HR. rewrite HR in Hpos. vm_compute in Hpos. discriminate. }
    assert (10000000000 <= / Qabs R) as Hibig.
    { assert (Qabs R * / Qabs R == 1) as Hinv by (apply Qmult_inv_r; lra).
      assert (0 < / Qabs R) by (by apply Qinv_lt_0_compat).
      nra. }
    apply (divider_failure c n1 vs r Hdiv).
    apply solve_divider_keep_skip.
    + cbn [nlt nabs nadd ndiv ofZ tol Q_Number]. apply Qltb_false.
      rewrite !Qred_correct. fold R.
      assert (0 + 1 / R == / R) as -> by (field; done).
      rewrite Habs. change (Qabs (inject_Z 1)) with 1. lra.
    + cbn [nlt nabs nadd ndiv ofZ tol Q_Number]. apply Qltb_false.
      rewrite !Qred_correct. fold R.
      assert (0 + 1 / R == / R) as -> by (field; done).
      rewrite Habs. lra.
    + cbn [nlt nabs nadd ndiv ofZ tol Q_Number]. apply Qltb_false.
      rewrite !Qred_correct. fold R.
      assert (1 / (0 + 1 / R) == R) as -> by (field; done).
      done.
    + done.
Qed.

(** In exact arithmetic, a circuit of a ground node and one other node
    [n1], with a 12 V source and a resistor from [n1] to ground whose
    resistance [R] in ohms has [1e-10 < |R| < 1e10], is analysed with
    success: the potential of [n1] is 12 and the current of the source is
    [-12/R]. *)
Lemma divider_exact (c : Circuit Q) (n1 : string) (vs r : Component Q) :
  isDivider c n1 vs r ->
  c_value vs == 12 ->
  (1 # 10000000000) < Qabs (convertToOhms (c_value r) (c_unit r)) ->
  Qabs (convertToOhms (c_value r) (c_unit r)) < 10000000000 ->
  exists v crs s,
    analyzeNodalMethod c = Success v crs s "Nodal"
    /\ (exists x, v !! n1 = Some x /\ x == 12)
    /\ exists cr, cr ∈ crs /\ r_comp cr = vs
                  /\ current cr == - (12) / convertToOhms (c_value r) (c_unit r).
Proof.
  intros Hdiv HV Hlo Hhi.
  destruct (solve_divider_exact _ (c_value vs) Hlo Hhi) as (x0 & x1 & Hsol & Hx0 & Hx1).
  destruct (divider_analysis c n1 vs r x0 x1 Hdiv Hsol)
    as (v & crs & s & Hok & Hv & cr & Hcr & Hcomp & Hcur).
  exists v, crs, s. split; [done |]. split.
  - exists x0. split; [done |]. by rewrite Hx0.
  - exists cr. repeat split; try done. rewrite Hcur, Hx1. by rewrite HV.
Qed.

End ExactDivider.

(** *** The divider in binary64 *)

(** With the row of the source first, a finite current leaves the
    potential at the value of the source: [0] times the current is a zero,
    and [12 - 0] and [12 / 1] are exact. *)
Lemma source_first_potential (G : float) :
  finite (sourceFirstCurrent G 12%float) = true ->
  sourceFirstPotential G 12%float = 12%float.
Proof.
  unfold sourceFirstPotential. set (x := sourceFirstCurrent G 12%float).
  unfold finite. intros Hfin.
  assert (nmul (ofZ 0) x = 0%float \/ nmul (ofZ 0) x = (-0)%float) as [-> | ->].
  { cbn [nmul float_Number].
    rewrite <- (SF2Prim_Prim2SF (PrimFloat.mul _ _)). rewrite mul_spec.
    destruct (Prim2SF x) as [s|s| |s m e]; try discriminate;
      destruct s; vm_compute; auto. }
  - vm_compute. reflexivity.
  - vm_compute. reflexivity.
Qed.


(** ** The energy balance of the verification *)

Section Verification.
Context {num : Type} `{Number num}.
Local Open Scope num_scope.

Lemma last_verification (a b c d e f g m : string) (l1 l2 : list string) :
  last (a :: l1 ++ b :: c :: d :: l2 ++ e :: f :: g :: [m]) = Some m.
Proof.
  replace (a :: l1 ++ b :: c :: d :: l2 ++ e :: f :: g :: [m])
    with ((a :: l1 ++ b :: c :: d :: l2 ++ [e; f; g]) ++ [m]).
  - apply last_snoc.
  - simpl. f_equal. rewrite <- !app_assoc. simpl. do 4 f_equal.
    by rewrite <- !app_assoc.
Qed.

(** The marker of a successful analysis is decided by the signed
    difference of the two sums: the failure marker is shown exactly when
    supplied minus dissipated is not below 0.001. *)
Lemma verification_marker (circuit : Circuit num) (v : gmap string num)
    (r : list (ComponentResult num)) (s : list Step) (m : string) :
  analyzeNodalMethod circuit = Success v r s m ->
  verificationMarker (Success v r s m)
  = Some (balanceMarker (totalPower VoltageSource r) (totalPower Resistor r))
  /\ (balanceMarker (totalPower VoltageSource r) (totalPower Resistor r) = balanceFail
      <-> (totalPower VoltageSource r - totalPower Resistor r <? milli) = false).
Proof.
  intros (A & b & eqs & solution & trace & calcs & _ & _ & _ & _ & _ & -> & _)%analyze_Success.
  split.
  - unfold verificationMarker, step8, mkStep. cbn [last mbind option_bind equations].
    apply last_verification.
  - unfold balanceMarker. destruct (_ <? milli); split; done.
Qed.

End Verification.

(** ** The circuits of the specification, evaluated *)

Section Evaluated.
Local Open Scope Q_scope.



(** C2, the circuit as the specification lists it.  The node [n3] has no
    component: its row and its column are zero, the third stage finds no
    pivot and the analysis returns the singular failure, in exact
    arithmetic and in binary64. *)
Lemma ladder_is_singular :
  succeeded (analyzeNodalMethod (ladder : Circuit Q)) = false
  /\ potentialAt (analyzeNodalMethod (ladder : Circuit Q)) "n1" = None
  /\ map title (stepsOf (analyzeNodalMethod (ladder : Circuit Q))) = take 4 phaseTitles
  /\ succeeded (analyzeNodalMethod (ladder : Circuit float)) = false
  /\ potentialAt (analyzeNodalMethod (ladder : Circuit float)) "n1" = None
  /\ map title (stepsOf (analyzeNodalMethod (ladder : Circuit float)))
     = take 4 phaseTitles.
Proof. repeat split; vm_compute; reflexivity. Qed.

(** C2 as the code has it.  With the unconnected node [n3] listed the
    analysis fails as singular.  Without it (exercise 2 of the program)
    the analysis succeeds with [V(n1) = 10] and [V(n2)] the value of the
    divider formula over 3 kΩ and 2 kΩ in parallel, equal in exact
    arithmetic, and in binary64 equal to four decimals and closer than
    0.00005, half a unit of the fourth. *)
Theorem ladder_solution :
  analyzeNodalMethod (ladder : Circuit Q)
  = Failure singularMessage (stepsOf (analyzeNodalMethod (ladder : Circuit Q)))
  /\ analyzeNodalMethod (ladder : Circuit float)
     = Failure singularMessage (stepsOf (analyzeNodalMethod (ladder : Circuit float)))
  /\ succeeded (analyzeNodalMethod (exercise2 : Circuit Q)) = true
  /\ potentialAt (analyzeNodalMethod (exercise2 : Circuit Q)) "n1" = Some 10
  /\ (exists v2, potentialAt (analyzeNodalMethod (exercise2 : Circuit Q)) "n2" = Some v2
                 /\ v2 == dividerFormula 10 2000 (parallel 3000 2000))
  /\ succeeded (analyzeNodalMethod (exercise2 : Circuit float)) = true
  /\ potentialAt (analyzeNodalMethod (exercise2 : Circuit float)) "n1" = Some 10%float
  /\ (exists v2,
        potentialAt (analyzeNodalMethod (exercise2 : Circuit float)) "n2" = Some v2
        /\ toFixed v2 4 = toFixed (dividerFormula 10 2000 (parallel 3000 2000))%float 4
        /\ PrimFloat.ltb
             (PrimFloat.abs (v2 - dividerFormula 10 2000 (parallel 3000 2000))%float)
             0x1.a36e2eb1c432dp-15%float = true).
Proof.
  split; [vm_compute; reflexivity |]. split; [vm_compute; reflexivity |].
  split; [vm_compute; reflexivity |]. split; [vm_compute; reflexivity |].
  split. { eexists. split; vm_compute; reflexivity. }
  split; [vm_compute; reflexivity |]. split; [vm_compute; reflexivity |].
  eexists. split; [vm_compute; reflexivity |]. split; vm_compute; reflexivity.
Qed.

(** C3 at 10 kV across 20000 MΩ.  The analysis succeeds; the resistor
    dissipates 0.005 W and the source, whose current the solver leaves at
    0, supplies 0 W; the two sums differ by more than 0.001 and the
    verification shows the pass marker, in exact arithmetic and in
    binary64: the test compares the signed difference, supplied minus
    dissipated, with 0.001. *)
Theorem energy_marker_at_deficit :
  succeeded (analyzeNodalMethod (divider "n1" 10000 20000 "MΩ")) = true
  /\ totalPower Resistor (resultsOf (analyzeNodalMethod (divider "n1" 10000 20000 "MΩ")))
     == 5 # 1000
  /\ totalPower VoltageSource
       (resultsOf (analyzeNodalMethod (divider "n1" 10000 20000 "MΩ"))) == 0
  /\ verificationMarker (analyzeNodalMethod (divider "n1" 10000 20000 "MΩ"))
     = Some balanceOk
  /\ succeeded (analyzeNodalMethod (divider "n1" 10000%float 20000%float "MΩ")) = true
  /\ PrimFloat.ltb milli
       (PrimFloat.abs
          (totalPower VoltageSource
             (resultsOf (analyzeNodalMethod (divider "n1" 10000%float 20000%float "MΩ")))
           - totalPower Resistor
               (resultsOf
                  (analyzeNodalMethod (divider "n1" 10000%float 20000%float "MΩ"))))%float)
     = true
  /\ verificationMarker (analyzeNodalMethod (divider "n1" 10000%float 20000%float "MΩ"))
     = Some balanceOk.
Proof. repeat split; vm_compute; reflexivity. Qed.

(** C4, a failure that does not carry the trace of the solver.  On the
    ladder with its unconnected node the solver returns five records (the
    initial matrix, a swap and three eliminations) with its failure, and
    none of them is among the records of the failure that the analysis
    returns. *)
Lemma failure_omits_solver_trace :
  succeeded (analyzeNodalMethod (ladder : Circuit Q)) = false
  /\ length (solverTrace (ladder : Circuit Q)) = 5%nat
  /\ forallb (fun rec => negb (recorded (stepsOf (analyzeNodalMethod (ladder : Circuit Q)))
                                        rec))
             (solverTrace (ladder : Circuit Q)) = true
  /\ succeeded (analyzeNodalMethod (ladder : Circuit float)) = false
  /\ length (solverTrace (ladder : Circuit float)) = 5%nat
  /\ forallb (fun rec =>
                negb (recorded (stepsOf (analyzeNodalMethod (ladder : Circuit float))) rec))
             (solverTrace (ladder : Circuit float)) = true.
Proof. repeat split; vm_compute; reflexivity. Qed.

(** C4, an instance of [singular_failure]: the ladder, singular at its
    third stage. *)
Lemma singular_failure_witness :
  exists A b eqs trace,
    assemble (ladder : Circuit Q) = Some (A, b, eqs)
    /\ Matrix.solve A b = (None, trace)
    /\ analyzeNodalMethod (ladder : Circuit Q)
       = Failure singularMessage [step1 ladder; step2 ladder; step3 eqs; step4 A b].
Proof.
  eexists _, _, _, _. split; [vm_compute; reflexivity |].
  refine (singular_failure (ladder : Circuit Q) _ _ _ 2 _ _ _).
  - vm_compute; reflexivity.
  - split; [vm_compute; lia |]. eexists _, _.
    split; [vm_compute; reflexivity |]. split; vm_compute; reflexivity.
Defined.

(** C5, an instance of [stamping_symmetry]: the nodes [n1] and [n2] of
    exercise 2, joined by the 2 kΩ resistor; two more resistors of 3 kΩ
    and 2 kΩ end at [n2]. *)
Lemma stamping_symmetry_witness :
  exists A bv eqs,
    assemble (exercise2 : Circuit Q) = Some (A, bv, eqs)
    /\ entry A 0 1 = (-1 # 2000)%Q
    /\ entry A 1 0 = (-1 # 2000)%Q
    /\ entry A 0 0 = (1 # 2000)%Q
    /\ entry A 1 1 = (1 # 750)%Q.
Proof.
  eexists _, _, _. split; [vm_compute; reflexivity |].
  destruct (stamping_symmetry (exercise2 : Circuit Q) "n1" "n2" 0 1
              _ _ _ ltac:(done) ltac:(vm_compute; reflexivity)
              ltac:(vm_compute; reflexivity) eq_refl)
    as (H1 & H2 & H3 & H4 & _).
  split; [exact H1 |]. split; [exact H2 |]. split; [exact H3 | exact H4].
Defined.

(** C7, an instance of [ground_potential_zero]: exercise 2. *)
Lemma ground_potential_zero_witness :
  potentialAt (analyzeNodalMethod (exercise2 : Circuit Q)) groundNode = Some 0.
Proof.
  destruct (analyzeNodalMethod (exercise2 : Circuit Q)) as [v r s m| |] eqn:E.
  - exact (ground_potential_zero exercise2 v r s m E).
  - vm_compute in E. discriminate.
  - vm_compute in E. discriminate.
Defined.

(** C8, an instance of [trace_complete]: exercise 2. *)
Lemma trace_complete_witness :
  map title (stepsOf (analyzeNodalMethod (exercise2 : Circuit Q))) = phaseTitles.
Proof.
  destruct (analyzeNodalMethod (exercise2 : Circuit Q)) as [v r s m| |] eqn:E.
  - exact (trace_complete exercise2 v r s m E).
  - vm_compute in E. discriminate.
  - vm_compute in E. discriminate.
Defined.

(** C9, circuits at which the statement fails.  In binary64 a current
    source across a potential that is NaN or between potentials whose
    difference is infinite is reported with the power NaN, not 0: behind
    a resistor of 0 Ω, and between two sources of the largest binary64.
    Both analyses succeed. *)
Lemma current_source_power_nan :
  succeeded (analyzeNodalMethod (shortedLadder : Circuit float)) = true
  /\ map (fun cr => (c_id (r_comp cr), voltage cr, current cr, power cr))
       (filter (fun cr => c_type (r_comp cr) = CurrentSource)
               (resultsOf (analyzeNodalMethod (shortedLadder : Circuit float))))
     = [("I1", PrimFloat.nan, 0%float, PrimFloat.nan)]
  /\ succeeded (analyzeNodalMethod largestSources) = true
  /\ map (fun cr => (c_id (r_comp cr), voltage cr, current cr, power cr))
       (filter (fun cr => c_type (r_comp cr) = CurrentSource)
               (resultsOf (analyzeNodalMethod largestSources)))
     = [("I1", PrimFloat.infinity, 0%float, PrimFloat.nan)]
  /\ PrimFloat.eqb PrimFloat.nan 0 = false.
Proof. repeat split; vm_compute; reflexivity. Qed.

(** C9, an instance of [current_sources_ignored]: exercise 2 with a
    current source across the 3 kΩ resistor. *)
Lemma current_sources_ignored_witness :
  assemble (withCurrentSource : Circuit Q) = assemble (exercise2 : Circuit Q)
  /\ succeeded (analyzeNodalMethod (withCurrentSource : Circuit Q)) = true
  /\ forall cr, cr ∈ resultsOf (analyzeNodalMethod (withCurrentSource : Circuit Q)) ->
                c_type (r_comp cr) = CurrentSource ->
                current cr = 0 /\ power cr = 0.
Proof.
  split; [vm_compute; reflexivity |]. split; [vm_compute; reflexivity |].
  destruct (analyzeNodalMethod (withCurrentSource : Circuit Q)) as [v r s m| |] eqn:E.
  - intros cr Hcr Hty.
    destruct (proj1 current_sources_ignored Q _ withCurrentSource) as [_ Hres].
    destruct (Hres v r s m E) as (Hcs & _ & _).
    destruct (Hcs cr Hcr Hty) as [Hcur Hpow]. split; [done |].
    rewrite Hpow. apply (proj1 (proj2 current_sources_ignored)).
  - vm_compute in E. discriminate.
  - vm_compute in E. discriminate.
Defined.

(** C10, an instance of [ground_is_literal]: a circuit whose node list
    names its reference "0" and has no node "gnd". *)
Lemma ground_is_literal_witness :
  exists v r s m,
    analyzeNodalMethod (groundUnlisted : Circuit Q) = Success v r s m
    /\ ("gnd" ∉ map n_id (nodes (groundUnlisted : Circuit Q)))
    /\ v !! "gnd" = Some 0
    /\ exists A b eqs solution trace,
        assemble (groundUnlisted : Circuit Q) = Some (A, b, eqs)
        /\ Matrix.solve A b = (Some solution, trace)
        /\ length solution
           = (length (unknownNodes (groundUnlisted : Circuit Q))
              + length (voltageSourcesOf (groundUnlisted : Circuit Q)))%nat
        /\ forall n, n ∈ nodes (groundUnlisted : Circuit Q) -> n_id n <> "gnd" ->
             exists i n', unknownNodes (groundUnlisted : Circuit Q) !! i = Some n'
                          /\ n_id n' = n_id n
                          /\ solution !! i = v !! n_id n.
Proof.
  destruct (analyzeNodalMethod (groundUnlisted : Circuit Q)) as [v r s m| |] eqn:E.
  - exists v, r, s, m. split; [done |]. split.
    + intros Hin. vm_compute in Hin.
      repeat (apply elem_of_cons in Hin as [Hin|Hin]; [discriminate |]).
      by apply elem_of_nil in Hin.
    + exact (ground_is_literal groundUnlisted v r s m E).
  - vm_compute in E. discriminate.
  - vm_compute in E. discriminate.
Defined.

End Evaluated.

(** ** The solver and the matrix of its caller *)

Section HeapFacts.
Context {num : Type} `{Number num}.
Import MatrixObj.

Lemma prefix_insert_beyond {A : Type} (l1 l2 : list A) (i : nat) (x : A) :
  l1 `prefix_of` l2 -> (length l1 <= i)%nat -> l1 `prefix_of` <[i := x]> l2.
Proof.
  intros [k ->] Hi. rewrite insert_app_r_alt by done. by eexists.
Qed.

Lemma extends_refl (h : Heap num) : extends h h.
Proof. by split. Qed.

Lemma setCell_fresh (h0 h : Heap num) (a r c : nat) (v : num) :
  fresh h0 a h -> fresh h0 a (setCell h a r c v).
Proof.
  intros ([Hn Hr] & Ha & Hall). unfold setCell.
  destruct (rowsAt h a !! r) as [l|] eqn:Hl; [| done].
  assert (length (numArrays h0) <= l)%nat as Hfresh.
  { rewrite Forall_lookup in Hall. by eapply Hall. }
  split; [split |]; simpl; [by apply prefix_insert_beyond | done |].
  split; [done |]. done.
Qed.

Lemma rowsAt_insert (h : Heap num) (a : nat) (rs : list nat) (P : nat -> Prop) :
  Forall P rs ->
  Forall P (default [] (<[a := rs]> (rowArrays h) !! a)).
Proof.
  intros Hrs. destruct (decide (a < length (rowArrays h))%nat) as [Hlt|Hge].
  - by rewrite list_lookup_insert_eq.
  - rewrite list_insert_ge by lia. rewrite lookup_ge_None_2 by lia. done.
Qed.

Lemma swapRows_fresh (h0 h : Heap num) (a i maxRow : nat) :
  fresh h0 a h -> fresh h0 a (swapRows h a i maxRow).
Proof.
  intros ([Hn Hr] & Ha & Hall). unfold swapRows.
  destruct (rowsAt h a !! i) as [li|] eqn:Hli; [| done].
  destruct (rowsAt h a !! maxRow) as [lm|] eqn:Hlm; [| done].
  rewrite Forall_lookup in Hall.
  split; [split |]; simpl; [done | by apply prefix_insert_beyond |].
  split; [done |]. unfold rowsAt at 1. simpl. apply rowsAt_insert.
  apply Forall_insert; [apply Forall_insert |].
  - by apply Forall_lookup.
  - by eapply Hall.
  - by eapply Hall.
Qed.

Lemma eliminateRow_fresh (h0 h : Heap num) (a i k n : nat) (factor : num) :
  fresh h0 a h -> fresh h0 a (eliminateRow h a i k n factor).
Proof.
  unfold eliminateRow. generalize (seq i (n + 1 - i)) as js.
  intros js. revert h. induction js as [|j js IH]; intros h Hh; simpl; [done |].
  apply IH. by apply setCell_fresh.
Qed.

Lemma eliminate_fresh (h0 : Heap num) (a i n : nat)
    (st : Heap num * list (string * string)) :
  fresh h0 a st.1 -> fresh h0 a (eliminate a i n st).1.
Proof.
  unfold eliminate. generalize (seq (i + 1) (n - (i + 1))) as ks.
  intros ks. revert st. induction ks as [|k ks IH]; intros [h steps] Hh; simpl; [done |].
  apply IH. destruct (nlt _ _); simpl; [| done]. by apply eliminateRow_fresh.
Qed.

Lemma pivot_fresh (h0 : Heap num) (a i n : nat)
    (st : Heap num * list (string * string)) :
  fresh h0 a st.1 -> fresh h0 a (pivot a i n st).1.
Proof.
  destruct st as [h steps]. unfold pivot. intros Hh.
  case_decide; simpl; [| done]. by apply swapRows_fresh.
Qed.

Lemma forward_fresh (h0 : Heap num) (a : nat) (stages : list nat) (n : nat)
    (st : Heap num * list (string * string)) :
  fresh h0 a st.1 ->
  match forward a stages n st with
  | inl st' => fresh h0 a st'.1
  | inr st' => fresh h0 a st'.1
  end.
Proof.
  revert st. induction stages as [|i stages IH]; intros st Hst; simpl; [done |].
  pose proof (pivot_fresh h0 a i n st Hst) as Hp.
  destruct (pivot a i n st) as [h steps]. simpl in Hp.
  destruct (nlt _ _); [done |].
  apply IH. by apply (eliminate_fresh h0 a i n (h, steps)).
Qed.

Lemma augment_fresh (h0 : Heap num) (m : t) (b : list num) :
  fresh h0 (augment h0 m b).1 (augment h0 m b).2.
Proof.
  unfold augment.
  assert (forall (l : list (nat * nat)) (ls : list nat) (h : Heap num),
             extends h0 h ->
             Forall (fun l => (length (numArrays h0) <= l)%nat) ls ->
             let st := fold_left
                         (fun '(ls, h) '(i, l) =>
                            let '(l', h) :=
                              allocNums h (numsAt h l ++ [default nan (b !! i)]) in
                            (ls ++ [l'], h)) l (ls, h) in
             extends h0 st.2
             /\ Forall (fun l => (length (numArrays h0) <= l)%nat) st.1) as Hfold.
  { induction l as [|[i l0] l IH]; intros ls h Hext Hls; simpl; [done |].
    apply IH.
    - destruct Hext as [Hn Hr]. split; simpl; [by apply prefix_app_r | done].
    - apply Forall_app. split; [done |]. apply Forall_singleton.
      destruct Hext as [Hn _]. by apply prefix_length. }
  specialize (Hfold (indexed (rowsAt h0 (data m))) [] h0 (extends_refl h0)
                (Forall_nil_2 _)).
  destruct (fold_left _ _ _) as [ls h]. simpl in Hfold.
  destruct Hfold as [[Hn Hr] Hls]. simpl.
  split; [split |]; simpl; [done | by apply prefix_app_r |].
  split; [by apply prefix_length |].
  unfold rowsAt. simpl. by rewrite list_lookup_middle.
Qed.

(** The heap that [solve] leaves extends the heap it was called in. *)
Lemma solve_extends (h : Heap num) (m : t) (b : list num) :
  extends h (solve h m b).2.
Proof.
  unfold solve. pose proof (augment_fresh h m b) as Haug.
  destruct (augment h m b) as [a h1]. simpl in Haug.
  set (steps := [("Matriz aumentada inicial:", _)]).
  pose proof (forward_fresh h a (seq 0 (rows m)) (rows m) (h1, steps) Haug) as Hf.
  destruct (forward a _ _ _) as [[h2 steps2]|[h2 steps2]]; simpl in *; by destruct Hf.
Qed.

Lemma extends_rowsAt (h h' : Heap num) (a : nat) :
  extends h h' -> (a < length (rowArrays h))%nat -> rowsAt h' a = rowsAt h a.
Proof.
  intros [_ Hr] Ha. unfold rowsAt.
  destruct (lookup_lt_is_Some_2 _ _ Ha) as [rs Hrs].
  by rewrite Hrs, (prefix_lookup_Some _ _ _ _ Hrs Hr).
Qed.

Lemma extends_numsAt (h h' : Heap num) (l : nat) :
  extends h h' -> (l < length (numArrays h))%nat -> numsAt h' l = numsAt h l.
Proof.
  intros [Hn _] Hl. unfold numsAt.
  destruct (lookup_lt_is_Some_2 _ _ Hl) as [row Hrow].
  by rewrite Hrow, (prefix_lookup_Some _ _ _ _ Hrow Hn).
Qed.

(** C6. The solver leaves the matrix of its caller unchanged.  For a
    matrix object that exists in the heap and any right-hand side, the
    heap after [solve] holds every array that was there before, unchanged,
    and every entry of the matrix reads as it did before the call. *)
Theorem solve_leaves_matrix (h : Heap num) (m : t) (b : list num) :
  allocated h m ->
  extends h (solve h m b).2
  /\ load (solve h m b).2 m = load h m
  /\ forall row col, get (solve h m b).2 m row col = get h m row col.
Proof.
  intros [Hdata Hrows]. pose proof (solve_extends h m b) as Hext.
  assert (rowsAt (solve h m b).2 (data m) = rowsAt h (data m)) as Hrs
      by by apply extends_rowsAt.
  split; [done |]. split.
  - unfold load, snapshot. rewrite Hrs. f_equal.
    apply Forall_fmap_ext_1. eapply Forall_impl; [exact Hrows |].
    intros l Hl. by apply extends_numsAt.
  - intros row col. unfold get. rewrite Hrs.
    destruct (rowsAt h (data m) !! row) as [l|] eqn:Hl; [| done]. simpl.
    rewrite (extends_numsAt h); [done | done |].
    rewrite Forall_lookup in Hrows. by eapply Hrows.
Qed.

(** *** The solver in the heap computes what the solver on values does *)

Lemma represents_cell (h : Heap num) (a : nat) (aug : list (list num)) (r c : nat) :
  represents h a aug -> cell h a r c = Matrix.cell aug r c.
Proof.
  intros (<- & _). unfold cell, Matrix.cell, snapshot.
  rewrite list_lookup_fmap. by destruct (rowsAt h a !! r).
Qed.

Lemma represents_setCell (h : Heap num) (a : nat) (aug : list (list num))
    (r c : nat) (v : num) :
  represents h a aug ->
  represents (setCell h a r c v) a (Matrix.setCell aug r c v).
Proof.
  intros (Hsnap & Hnd & Ha & Hall). unfold setCell, Matrix.setCell.
  rewrite <- Hsnap. unfold snapshot at 1. rewrite list_lookup_fmap.
  destruct (rowsAt h a !! r) as [l|] eqn:Hl; simpl; [| done].
  assert (l < length (numArrays h))%nat as Hlt.
  { rewrite Forall_lookup in Hall. by eapply Hall. }
  split; [| split; [done | split; [done |]]].
  - unfold snapshot, rowsAt. simpl. fold (rowsAt h a).
    apply list_eq. intros j. rewrite list_lookup_fmap.
    destruct (decide (j = r)) as [->|Hj].
    + rewrite Hl. simpl. rewrite list_lookup_insert_eq
        by (rewrite length_fmap; by eapply lookup_lt_Some).
      unfold numsAt at 1. simpl. by rewrite list_lookup_insert_eq.
    + rewrite list_lookup_insert_ne by done. rewrite list_lookup_fmap.
      destruct (rowsAt h a !! j) as [l'|] eqn:Hl'; simpl; [| done].
      f_equal. unfold numsAt at 1. simpl. rewrite list_lookup_insert_ne; [done |].
      intros <-. apply Hj. by eapply NoDup_lookup.
  - unfold rowsAt. simpl. fold (rowsAt h a). by rewrite length_insert.
Qed.

Lemma swap_lookup {A : Type} (l : list A) (i j p : nat) (x y : A) :
  l !! i = Some x -> l !! j = Some y ->
  <[j := x]> (<[i := y]> l) !! p
  = l !! (if decide (p = j) then i else if decide (p = i) then j else p).
Proof.
  intros Hi Hj.
  pose proof (lookup_lt_Some _ _ _ Hi). pose proof (lookup_lt_Some _ _ _ Hj).
  destruct (decide (p = j)) as [->|Hpj].
  - by rewrite list_lookup_insert_eq by (by rewrite length_insert).
  - rewrite list_lookup_insert_ne by done.
    destruct (decide (p = i)) as [->|Hpi].
    + by rewrite list_lookup_insert_eq.
    + by rewrite list_lookup_insert_ne.
Qed.

Lemma NoDup_swap {A : Type} (l : list A) (i j : nat) (x y : A) :
  NoDup l -> l !! i = Some x -> l !! j = Some y ->
  NoDup (<[j := x]> (<[i := y]> l)).
Proof.
  intros Hnd Hi Hj. apply NoDup_alt. intros p q z.
  rewrite !(swap_lookup l i j _ x y) by done. intros Hp Hq.
  pose proof (proj1 (NoDup_alt l) Hnd _ _ _ Hp Hq) as Heq.
  repeat case_decide; congruence.
Qed.

Lemma represents_swapRows (h : Heap num) (a : nat) (aug : list (list num))
    (i maxRow : nat) :
  represents h a aug -> (i < length aug)%nat -> (maxRow < length aug)%nat ->
  represents (swapRows h a i maxRow) a (Matrix.swapRows aug i maxRow).
Proof.
  intros (Hsnap & Hnd & Ha & Hall) Hi Hm. unfold swapRows, Matrix.swapRows.
  rewrite <- Hsnap in *. unfold snapshot in *. rewrite length_fmap in Hi, Hm.
  destruct (lookup_lt_is_Some_2 _ _ Hi) as [li Hli].
  destruct (lookup_lt_is_Some_2 _ _ Hm) as [lm Hlm].
  rewrite Hli, Hlm. rewrite !list_lookup_fmap, Hli, Hlm. simpl.
  assert (rowsAt {| numArrays := numArrays h;
                    rowArrays := <[a := <[maxRow := li]> (<[i := lm]> (rowsAt h a))]>
                                   (rowArrays h) |} a
          = <[maxRow := li]> (<[i := lm]> (rowsAt h a))) as Hrs.
  { unfold rowsAt at 1. simpl. by rewrite list_lookup_insert_eq. }
  rewrite Forall_lookup in Hall.
  unfold represents, snapshot. rewrite !Hrs. simpl.
  split; [| split; [| split]].
  - by rewrite !list_fmap_insert.
  - by apply NoDup_swap.
  - by rewrite length_insert.
  - apply Forall_insert; [apply Forall_insert |].
    + by apply Forall_lookup.
    + by eapply Hall.
    + by eapply Hall.
Qed.

Lemma setCell_length (aug : list (list num)) (r c : nat) (v : num) :
  length (Matrix.setCell aug r c v) = length aug.
Proof.
  unfold Matrix.setCell. destruct (aug !! r); [by rewrite length_insert | done].
Qed.

Lemma represents_findPivot (h : Heap num) (a : nat) (aug : list (list num)) (i n : nat) :
  represents h a aug -> findPivot h a i n = Matrix.findPivot aug i n.
Proof.
  intros Hrep. unfold findPivot, Matrix.findPivot.
  apply fold_left_pointwise. intros maxRow k.
  by rewrite !(represents_cell h a aug).
Qed.

Lemma represents_eliminateRow (h : Heap num) (a : nat) (aug : list (list num))
    (i k n : nat) (factor : num) :
  represents h a aug ->
  represents (eliminateRow h a i k n factor) a (Matrix.eliminateRow aug i k n factor).
Proof.
  unfold eliminateRow, Matrix.eliminateRow. generalize (seq i (n + 1 - i)) as js.
  intros js. revert h aug. induction js as [|j js IH]; intros h aug Hrep; simpl; [done |].
  apply IH. rewrite !(represents_cell h a aug) by done. by apply represents_setCell.
Qed.

Lemma eliminateRow_length (aug : list (list num)) (i k n : nat) (factor : num) :
  length (Matrix.eliminateRow aug i k n factor) = length aug.
Proof.
  unfold Matrix.eliminateRow. generalize (seq i (n + 1 - i)) as js.
  intros js. revert aug. induction js as [|j js IH]; intros aug; simpl; [done |].
  by rewrite IH, setCell_length.
Qed.

Lemma agree_eliminate (a i n : nat) (st : Heap num * list (string * string))
    (st' : list (list num) * list (string * string)) :
  agree a st st' ->
  agree a (eliminate a i n st) (Matrix.eliminate i n st')
  /\ length (Matrix.eliminate i n st').1 = length st'.1.
Proof.
  unfold eliminate, Matrix.eliminate. generalize (seq (i + 1) (n - (i + 1))) as ks.
  intros ks. revert st st'.
  induction ks as [|k ks IH]; intros [h steps] [aug steps'] [Hrep Hsteps]; simpl in *.
  { done. }
  subst steps'. rewrite !(represents_cell h a aug) by done.
  destruct (nlt _ _).
  - pose proof (represents_eliminateRow h a aug i k n
                  (ndiv (Matrix.cell aug k i) (Matrix.cell aug i i)) Hrep) as Hrep'.
    destruct (IH (eliminateRow h a i k n
                    (ndiv (Matrix.cell aug k i) (Matrix.cell aug i i)),
                  steps ++ [Matrix.eliminationStep
                              (snapshot (eliminateRow h a i k n
                                           (ndiv (Matrix.cell aug k i)
                                                 (Matrix.cell aug i i))) a)
                              i k (ndiv (Matrix.cell aug k i) (Matrix.cell aug i i))])
                 (Matrix.eliminateRow aug i k n
                    (ndiv (Matrix.cell aug k i) (Matrix.cell aug i i)),
                  steps ++ [Matrix.eliminationStep
                              (Matrix.eliminateRow aug i k n
                                 (ndiv (Matrix.cell aug k i) (Matrix.cell aug i i)))
                              i k (ndiv (Matrix.cell aug k i) (Matrix.cell aug i i))]))
      as [IH1 IH2].
    { split; [done |]. simpl. destruct Hrep' as (-> & _). done. }
    split; [done |]. rewrite IH2. simpl. apply eliminateRow_length.
  - by apply (IH (h, steps) (aug, steps)).
Qed.

Lemma findPivot_lt (aug : list (list num)) (i n : nat) :
  (i < n)%nat -> (Matrix.findPivot aug i n < n)%nat.
Proof.
  intros Hi. unfold Matrix.findPivot.
  assert (forall ks m, Forall (fun k => (k < n)%nat) ks -> (m < n)%nat ->
                       (fold_left
                          (fun maxRow k =>
                             if nlt (nabs (Matrix.cell aug maxRow i))
                                    (nabs (Matrix.cell aug k i))
                             then k else maxRow) ks m < n)%nat) as Hfold.
  { induction ks as [|k ks IH]; intros m Hks Hm; simpl; [done |].
    apply Forall_cons in Hks as [Hk Hks]. apply IH; [done |]. by destruct (nlt _ _). }
  apply Hfold; [| done]. apply Forall_forall. intros k Hk.
  apply elem_of_seq in Hk. lia.
Qed.

Lemma swapRows_length (aug : list (list num)) (i maxRow : nat) :
  length (Matrix.swapRows aug i maxRow) = length aug.
Proof. unfold Matrix.swapRows. by rewrite !length_insert. Qed.

Lemma agree_pivot (a i n : nat) (st : Heap num * list (string * string))
    (st' : list (list num) * list (string * string)) :
  agree a st st' -> (i < n)%nat -> n = length st'.1 ->
  agree a (pivot a i n st) (Matrix.pivot i n st')
  /\ length (Matrix.pivot i n st').1 = length st'.1.
Proof.
  destruct st as [h steps], st' as [aug steps']. intros [Hrep Hsteps] Hi Hn.
  simpl in *. subst steps'. unfold pivot, Matrix.pivot.
  rewrite (represents_findPivot h a aug) by done.
  case_decide; [| done].
  pose proof (findPivot_lt aug i n Hi) as Hlt.
  pose proof (represents_swapRows h a aug i (Matrix.findPivot aug i n) Hrep
                ltac:(lia) ltac:(lia)) as Hrep'.
  split; [| simpl; apply swapRows_length].
  split; [done |]. simpl. by destruct Hrep' as (-> & _).
Qed.

Lemma agree_forward (a : nat) (stages : list nat) (n : nat)
    (st : Heap num * list (string * string))
    (st' : list (list num) * list (string * string)) :
  agree a st st' -> Forall (fun i => (i < n)%nat) stages -> n = length st'.1 ->
  match forward a stages n st, Matrix.forward stages n st' with
  | inl s, inl s' => agree a s s'
  | inr s, inr steps => s.2 = steps
  | _, _ => False
  end.
Proof.
  revert st st'. induction stages as [|i stages IH]; intros st st' Hag Hst Hn; simpl.
  { done. }
  apply Forall_cons in Hst as [Hi Hst].
  destruct (agree_pivot a i n st st' Hag Hi Hn) as [Hp Hlen].
  destruct (pivot a i n st) as [h steps], (Matrix.pivot i n st') as [aug steps'].
  destruct Hp as [Hrep Hsteps]. simpl in *. subst steps'.
  rewrite (represents_cell h a aug) by done.
  destruct (nlt _ _); [done |].
  destruct (agree_eliminate a i n (h, steps) (aug, steps)) as [He Hlen']; [done |].
  apply IH; [done | done |]. simpl in Hlen'. lia.
Qed.

Lemma represents_backSubstitution (h : Heap num) (a : nat) (aug : list (list num))
    (n : nat) :
  represents h a aug -> backSubstitution h a n = Matrix.backSubstitution aug n.
Proof.
  intros Hrep. unfold backSubstitution, Matrix.backSubstitution.
  apply fold_left_pointwise. intros x i. unfold backRow, Matrix.backRow.
  rewrite !(represents_cell h a aug) by done.
  rewrite (fold_left_pointwise
             (fun x0 j => <[i := nsub (Matrix.xval x0 i)
                                   (nmul (cell h a i j) (Matrix.xval x0 j))]> x0)
             (fun x0 j => <[i := nsub (Matrix.xval x0 i)
                                   (nmul (Matrix.cell aug i j) (Matrix.xval x0 j))]> x0));
    [done |].
  intros x' j. by rewrite (represents_cell h a aug).
Qed.

Lemma indexedFrom_lookup_fmap {A : Type} (k : nat) (l : list A) (j : nat) :
  indexedFrom k l !! j = (fun x => ((k + j)%nat, x)) <$> l !! j.
Proof.
  revert k j. induction l as [|x l IH]; intros k j; simpl; [done |].
  destruct j as [|j]; simpl; [by rewrite Nat.add_0_r |].
  rewrite IH. destruct (l !! j); simpl; [| done]. do 2 f_equal. lia.
Qed.

(** The copies that [augment] allocates, one per row. *)
Lemma augment_fold (h0 : Heap num) (b : list num) (rs : list nat) (j : nat)
    (ls : list nat) (hc : Heap num) :
  Forall (fun l => (l < length (numArrays h0))%nat) rs ->
  numArrays h0 `prefix_of` numArrays hc ->
  fold_left
    (fun '(ls, h) '(i, l) =>
       let '(l', h) := allocNums h (numsAt h l ++ [default nan (b !! i)]) in
       (ls ++ [l'], h))
    (indexedFrom j rs) (ls, hc)
  = (ls ++ seq (length (numArrays hc)) (length rs),
     {| numArrays :=
          numArrays hc
          ++ map (fun '(i, l) => numsAt h0 l ++ [default nan (b !! i)]) (indexedFrom j rs);
        rowArrays := rowArrays hc |}).
Proof.
  revert j ls hc. induction rs as [|l rs IH]; intros j ls hc Hrs Hpre; simpl.
  { rewrite !app_nil_r. by destruct hc. }
  apply Forall_cons in Hrs as [Hl Hrs].
  rewrite IH; [| done | by apply prefix_app_r]. simpl.
  rewrite length_app. simpl. rewrite <- !app_assoc. simpl.
  replace (length (numArrays hc) + 1)%nat with (S (length (numArrays hc))) by lia.
  do 4 f_equal. unfold numsAt.
  destruct (lookup_lt_is_Some_2 _ _ Hl) as [row Hrow].
  by rewrite Hrow, (prefix_lookup_Some _ _ _ _ Hrow Hpre).
Qed.

Lemma augment_represents (h : Heap num) (m : t) (b : list num) :
  allocated h m ->
  represents (augment h m b).2 (augment h m b).1 (Matrix.augment (load h m) b).
Proof.
  intros [Hdata Hrows]. unfold augment, indexed.
  rewrite (augment_fold h) by done. simpl.
  set (rs := rowsAt h (data m)) in *.
  set (news := map (fun '(i, l) => numsAt h l ++ [default nan (b !! i)])
                   (indexedFrom 0 rs)).
  assert (length news = length rs) as Hlen.
  { unfold news. by rewrite length_map, indexedFrom_length. }
  assert (rowsAt {| numArrays := numArrays h ++ news;
                    rowArrays := rowArrays h ++ [seq (length (numArrays h)) (length rs)] |}
                 (length (rowArrays h))
          = seq (length (numArrays h)) (length rs)) as Hrs.
  { unfold rowsAt. simpl. by rewrite list_lookup_middle. }
  unfold represents, snapshot. rewrite !Hrs. simpl.
  split; [| split; [apply NoDup_seq | split]].
  - apply list_eq. intros p. unfold Matrix.augment, load, snapshot. simpl.
    fold rs. rewrite list_lookup_fmap, list_lookup_imap, list_lookup_fmap.
    destruct (decide (p < length rs)%nat) as [Hp|Hp].
    + rewrite (proj2 (lookup_seq _ _ p (length (numArrays h) + p)%nat)) by done.
      simpl. unfold numsAt at 1. simpl.
      rewrite lookup_app_r by lia.
      replace (length (numArrays h) + p - length (numArrays h))%nat with p by lia.
      unfold news. rewrite list_lookup_fmap, indexedFrom_lookup_fmap.
      destruct (rs !! p) as [l|] eqn:Hl; simpl; [done |].
      apply lookup_ge_None in Hl. lia.
    + rewrite lookup_ge_None_2 by (rewrite length_seq; lia).
      rewrite (lookup_ge_None_2 rs) by lia. done.
  - rewrite length_app. simpl. lia.
  - apply Forall_forall. intros l Hl. apply elem_of_seq in Hl.
    rewrite length_app. lia.
Qed.

Lemma augment_length (m : Matrix.t num) (b : list num) :
  length (Matrix.augment m b) = length (Matrix.data m).
Proof. unfold Matrix.augment. apply length_imap. Qed.

(** The solver in the heap returns what the solver on values returns for
    the matrix that the object holds. *)
Theorem solve_refines (h : Heap num) (m : t) (b : list num) :
  allocated h m ->
  rows m = length (rowsAt h (data m)) ->
  (solve h m b).1 = Matrix.solve (load h m) b.
Proof.
  intros Halloc Hrows. unfold solve, Matrix.solve.
  pose proof (augment_represents h m b Halloc) as Hrep.
  destruct (augment h m b) as [a h1]. simpl in Hrep.
  change (Matrix.rows (load h m)) with (rows m).
  assert (snapshot h1 a = Matrix.augment (load h m) b) as Hsnap by by destruct Hrep.
  rewrite Hsnap.
  set (st := (h1, [("Matriz aumentada inicial:",
                    Matrix.formatAugmented (Matrix.augment (load h m) b))])).
  set (st' := (Matrix.augment (load h m) b,
               [("Matriz aumentada inicial:",
                 Matrix.formatAugmented (Matrix.augment (load h m) b))])).
  pose proof (agree_forward a (seq 0 (rows m)) (rows m) st st') as Hf.
  destruct (forward a _ _ st) as [[h2 steps2]|[h2 steps2]],
           (Matrix.forward _ _ st') as [[aug2 steps2']|steps2'];
    simpl in *.
  - destruct Hf as [Hrep2 Hsteps]; [by split | | |].
    + apply Forall_forall. intros i Hi. apply elem_of_seq in Hi. lia.
    + rewrite augment_length. unfold load, snapshot. simpl.
      by rewrite length_fmap.
    + simpl in *. subst steps2'.
      rewrite (represents_backSubstitution h2 a aug2) by done.
      by destruct Hrep2 as (-> & _).
  - destruct Hf; [by split | | ].
    + apply Forall_forall. intros i Hi. apply elem_of_seq in Hi. lia.
    + rewrite augment_length. unfold load, snapshot. simpl. by rewrite length_fmap.
  - destruct Hf; [by split | | ].
    + apply Forall_forall. intros i Hi. apply elem_of_seq in Hi. lia.
    + rewrite augment_length. unfold load, snapshot. simpl. by rewrite length_fmap.
  - rewrite Hf; [done | by split | |].
    + apply Forall_forall. intros i Hi. apply elem_of_seq in Hi. lia.
    + rewrite augment_length. unfold load, snapshot. simpl. by rewrite length_fmap.
Qed.

End HeapFacts.

(** C6, an instance of [solve_leaves_matrix]: the system of rows [1 1]
    and [2 3] with right-hand side [3 5], which the solver solves after a
    swap of its two rows. *)
Lemma solve_leaves_matrix_witness :
  (MatrixObj.solve (exampleHeap : MatrixObj.Heap Q) exampleMatrix [3; 5]%Q).1.1
  = Some [4; -1]%Q
  /\ MatrixObj.extends exampleHeap
       (MatrixObj.solve (exampleHeap : MatrixObj.Heap Q) exampleMatrix [3; 5]%Q).2
  /\ MatrixObj.load
       (MatrixObj.solve (exampleHeap : MatrixObj.Heap Q) exampleMatrix [3; 5]%Q).2
       exampleMatrix
     = MatrixObj.load exampleHeap exampleMatrix
  /\ forall row col,
      MatrixObj.get
        (MatrixObj.solve (exampleHeap : MatrixObj.Heap Q) exampleMatrix [3; 5]%Q).2
        exampleMatrix row col
      = MatrixObj.get exampleHeap exampleMatrix row col.
Proof.
  split; [vm_compute; reflexivity |].
  refine (solve_leaves_matrix (exampleHeap : MatrixObj.Heap Q) exampleMatrix [3; 5]%Q _).
  split; [vm_compute; lia |]. vm_compute. repeat constructor.
Defined.

(** ** The solver, stage by stage *)

Section SolverFacts.
Context {num : Type} `{Number num}.
Local Open Scope num_scope.

Lemma cell_setCell (aug : list (list num)) (r c : nat) (v : num) (row : list num)
    (r' c' : nat) :
  aug !! r = Some row -> (c < length row)%nat ->
  Matrix.cell (Matrix.setCell aug r c v) r' c'
  = if decide (r' = r /\ c' = c) then v else Matrix.cell aug r' c'.
Proof.
  intros Hrow Hc. unfold Matrix.setCell. rewrite Hrow.
  rewrite cell_insert_row by (by eapply lookup_lt_Some).
  destruct (decide (r' = r)) as [->|Hr].
  - destruct (decide (c' = c)) as [->|Hc'].
    + rewrite list_lookup_insert_eq by done. by rewrite decide_True.
    + rewrite list_lookup_insert_ne by done. rewrite decide_False by tauto.
      unfold Matrix.cell. by rewrite Hrow.
  - by rewrite decide_False by tauto.
Qed.

Lemma setCell_shape (n : nat) (aug : list (list num)) (r c : nat) (v : num) :
  augmentedShape n aug -> augmentedShape n (Matrix.setCell aug r c v).
Proof.
  intros [Hlen Hrows]. unfold Matrix.setCell.
  destruct (aug !! r) as [row|] eqn:Hrow; [| done].
  split; [by rewrite length_insert |].
  apply Forall_insert; [done |]. rewrite length_insert.
  rewrite Forall_lookup in Hrows. by eapply Hrows.
Qed.

Lemma shape_lookup (n : nat) (aug : list (list num)) (r : nat) :
  augmentedShape n aug -> (r < n)%nat ->
  exists row, aug !! r = Some row /\ length row = S n.
Proof.
  intros [Hlen Hrows] Hr.
  destruct (lookup_lt_is_Some_2 aug r) as [row Hrow]; [lia |].
  exists row. split; [done |]. rewrite Forall_lookup in Hrows. by eapply Hrows.
Qed.

(** The update of row [k] over the columns [js], with the rows as they
    were before it. *)
Lemma eliminateCols_cell (n : nat) (i k : nat) (factor : num) (js : list nat)
    (aug : list (list num)) (r c : nat) :
  augmentedShape n aug -> (k < n)%nat -> i <> k -> NoDup js ->
  Forall (fun j => (j <= n)%nat) js ->
  Matrix.cell
    (fold_left (fun a j => Matrix.setCell a k j
                             (Matrix.cell a k j - factor * Matrix.cell a i j)) js aug)
    r c
  = if decide (r = k /\ c ∈ js)
    then Matrix.cell aug k c - factor * Matrix.cell aug i c
    else Matrix.cell aug r c.
Proof.
  intros Hshape Hk Hik. revert aug Hshape.
  induction js as [|j js IH]; intros aug Hshape Hnd Hjs; simpl.
  - rewrite decide_False; [done |]. intros [_ Hin]. by apply elem_of_nil in Hin.
  - apply NoDup_cons in Hnd as [Hj Hnd]. apply Forall_cons in Hjs as [Hjn Hjs].
    destruct (shape_lookup n aug k Hshape Hk) as (row & Hrow & Hlen).
    rewrite IH; [| by apply setCell_shape | done | done].
    rewrite !(cell_setCell aug k j _ row) by (done || lia).
    destruct (decide (r = k /\ c ∈ js)) as [[-> Hin]|Hno].
    + rewrite (decide_True (P := k = k /\ c ∈ j :: js))
        by (split; [done | apply elem_of_cons; by right]).
      rewrite (decide_False (P := k = k /\ c = j)) by (intros [_ ->]; done).
      rewrite (decide_False (P := i = k /\ c = j)) by (intros [? _]; done). done.
    + destruct (decide (r = k /\ c = j)) as [[-> ->]|Hno'].
      * rewrite (decide_True (P := k = k /\ j ∈ j :: js))
          by (split; [done | apply elem_of_cons; by left]).
        done.
      * rewrite decide_False; [done |].
        intros [-> [->|Hin]%elem_of_cons]; tauto.
Qed.

Lemma eliminateCols_shape (n : nat) (i k : nat) (factor : num) (js : list nat)
    (aug : list (list num)) :
  augmentedShape n aug ->
  augmentedShape n
    (fold_left (fun a j => Matrix.setCell a k j
                             (Matrix.cell a k j - factor * Matrix.cell a i j)) js aug).
Proof.
  revert aug. induction js as [|j js IH]; intros aug Hshape; simpl; [done |].
  apply IH. by apply setCell_shape.
Qed.

Lemma eliminateRow_cell (n : nat) (aug : list (list num)) (i k : nat) (factor : num)
    (r c : nat) :
  augmentedShape n aug -> (k < n)%nat -> i <> k ->
  Matrix.cell (Matrix.eliminateRow aug i k n factor) r c
  = if decide (r = k /\ (i <= c <= n)%nat)
    then Matrix.cell aug k c - factor * Matrix.cell aug i c
    else Matrix.cell aug r c.
Proof.
  intros Hshape Hk Hik. unfold Matrix.eliminateRow.
  rewrite (eliminateCols_cell n); [| done | done | done | apply NoDup_seq |].
  - apply decide_ext. rewrite elem_of_seq. lia.
  - apply Forall_forall. intros j Hj%elem_of_seq. lia.
Qed.

Lemma eliminateRow_shape (n : nat) (aug : list (list num)) (i k : nat) (factor : num) :
  augmentedShape n aug -> augmentedShape n (Matrix.eliminateRow aug i k n factor).
Proof. apply eliminateCols_shape. Qed.

Lemma eliminateRows_cell (n i : nat) (ks : list nat) (aug : list (list num))
    (steps : list (string * string)) :
  augmentedShape n aug -> NoDup ks -> Forall (fun k => (i < k < n)%nat) ks ->
  augmentedShape n (eliminateRows i n ks (aug, steps)).1
  /\ forall r c,
      Matrix.cell (eliminateRows i n ks (aug, steps)).1 r c
      = if decide (r ∈ ks /\ (i <= c <= n)%nat)
        then (if applies aug i r
              then Matrix.cell aug r c - factorOf aug i r * Matrix.cell aug i c
              else Matrix.cell aug r c)
        else Matrix.cell aug r c.
Proof.
  revert aug steps. induction ks as [|k ks IH]; intros aug steps Hshape Hnd Hks.
  - split; [done |]. intros r c. rewrite decide_False; [done |].
    intros [Hin _]. by apply elem_of_nil in Hin.
  - apply NoDup_cons in Hnd as [Hk Hnd]. apply Forall_cons in Hks as [Hkn Hks].
    unfold eliminateRows. simpl.
    fold (factorOf aug i k). fold (applies aug i k).
    set (aug1 := if applies aug i k
                 then Matrix.eliminateRow aug i k n (factorOf aug i k) else aug).
    set (steps1 := if applies aug i k
                   then steps ++ [Matrix.eliminationStep
                                    (Matrix.eliminateRow aug i k n (factorOf aug i k))
                                    i k (factorOf aug i k)]
                   else steps).
    replace (if applies aug i k then _ else (aug, steps)) with (aug1, steps1)
      by (unfold aug1, steps1; by destruct (applies aug i k)).
    fold (eliminateRows i n ks (aug1, steps1)).
    assert (augmentedShape n aug1) as Hshape1.
    { unfold aug1. destruct (applies aug i k); [by apply eliminateRow_shape | done]. }
    assert (forall r c, Matrix.cell aug1 r c
                        = if decide (r = k /\ (i <= c <= n)%nat)
                          then (if applies aug i k
                                then Matrix.cell aug k c
                                     - factorOf aug i k * Matrix.cell aug i c
                                else Matrix.cell aug k c)
                          else Matrix.cell aug r c) as Hcell1.
    { intros r c. unfold aug1. destruct (applies aug i k).
      - apply (eliminateRow_cell n); [done | lia | lia].
      - case_decide as E; [by destruct E as [-> _] | done]. }
    assert (forall r c, r <> k -> Matrix.cell aug1 r c = Matrix.cell aug r c) as Hother.
    { intros r c Hr. rewrite Hcell1. by rewrite decide_False by tauto. }
    destruct (IH aug1 steps1 Hshape1 Hnd Hks) as [Hshape2 Hcell2].
    split; [done |]. intros r c. rewrite Hcell2.
    assert (i <> k) as Hik by lia.
    destruct (decide (r ∈ ks /\ (i <= c <= n)%nat)) as [[Hin Hc]|Hno].
    + assert (r <> k) as Hrk by (intros ->; done).
      rewrite (decide_True (P := r ∈ k :: ks /\ (i <= c <= n)%nat))
        by (split; [apply elem_of_cons; by right | done]).
      unfold applies, factorOf. by rewrite !Hother.
    + rewrite Hcell1.
      destruct (decide (r = k /\ (i <= c <= n)%nat)) as [[-> Hc]|Hno'].
      * rewrite (decide_True (P := k ∈ k :: ks /\ (i <= c <= n)%nat))
          by (split; [apply elem_of_cons; by left | done]). done.
      * rewrite decide_False; [done |].
        intros [[->|Hin]%elem_of_cons Hc]; tauto.
Qed.

Lemma eliminate_cell (n i : nat) (aug : list (list num))
    (steps : list (string * string)) :
  augmentedShape n aug ->
  augmentedShape n (Matrix.eliminate i n (aug, steps)).1
  /\ forall r c,
      Matrix.cell (Matrix.eliminate i n (aug, steps)).1 r c
      = if decide ((i < r < n)%nat /\ (i <= c <= n)%nat)
        then (if applies aug i r
              then Matrix.cell aug r c - factorOf aug i r * Matrix.cell aug i c
              else Matrix.cell aug r c)
        else Matrix.cell aug r c.
Proof.
  intros Hshape.
  destruct (eliminateRows_cell n i (seq (i + 1) (n - (i + 1))) aug steps Hshape)
    as [Hshape' Hcell]; [apply NoDup_seq | |].
  { apply Forall_forall. intros k Hk%elem_of_seq. lia. }
  split; [done |]. intros r c.
  change (Matrix.eliminate i n (aug, steps))
    with (eliminateRows i n (seq (i + 1) (n - (i + 1))) (aug, steps)).
  rewrite Hcell. apply decide_ext. rewrite elem_of_seq. lia.
Qed.

Lemma swapRows_cell (aug : list (list num)) (i m r c : nat) :
  (i < length aug)%nat -> (m < length aug)%nat ->
  Matrix.cell (Matrix.swapRows aug i m) r c = Matrix.cell aug (swapped i m r) c.
Proof.
  intros Hi Hm. unfold Matrix.swapRows, swapped.
  destruct (lookup_lt_is_Some_2 aug i Hi) as [ri Hri].
  destruct (lookup_lt_is_Some_2 aug m Hm) as [rm Hrm].
  rewrite Hri, Hrm. simpl.
  rewrite cell_insert_row by (by rewrite length_insert).
  rewrite cell_insert_row by done.
  destruct (decide (r = m)) as [->|Hrm'].
  - destruct (decide (m = i)) as [->|Hmi].
    + unfold Matrix.cell. by rewrite Hri.
    + unfold Matrix.cell. by rewrite Hri.
  - destruct (decide (r = i)) as [->|Hri']; [| done].
    unfold Matrix.cell. by rewrite Hrm.
Qed.

Lemma swapRows_shape (n : nat) (aug : list (list num)) (i m : nat) :
  augmentedShape n aug -> (i < n)%nat -> (m < n)%nat ->
  augmentedShape n (Matrix.swapRows aug i m).
Proof.
  intros Hshape Hi Hm.
  destruct (shape_lookup n aug i Hshape Hi) as (ri & Hri & Hli).
  destruct (shape_lookup n aug m Hshape Hm) as (rm & Hrm & Hlm).
  destruct Hshape as [Hlen Hrows].
  unfold Matrix.swapRows. rewrite Hri, Hrm. simpl.
  split; [by rewrite !length_insert |].
  apply Forall_insert; [| done]. by apply Forall_insert.
Qed.

Lemma findPivot_ge (aug : list (list num)) (i n : nat) :
  (i <= Matrix.findPivot aug i n)%nat.
Proof.
  unfold Matrix.findPivot.
  assert (forall ks m, Forall (fun k => (i <= k)%nat) ks -> (i <= m)%nat ->
                       (i <= fold_left
                          (fun maxRow k =>
                             if nlt (nabs (Matrix.cell aug maxRow i))
                                    (nabs (Matrix.cell aug k i))
                             then k else maxRow) ks m)%nat) as Hfold.
  { induction ks as [|k ks IH]; intros m Hks Hm; simpl; [done |].
    apply Forall_cons in Hks as [Hk Hks]. apply IH; [done |]. by destruct (nlt _ _). }
  apply Hfold; [| done]. apply Forall_forall. intros k Hk.
  apply elem_of_seq in Hk. lia.
Qed.

(** The pivoting of stage [i] leaves the rows of the matrix with the rows
    [i] and [findPivot] exchanged. *)
Lemma pivot_cell (n i : nat) (aug : list (list num)) (steps : list (string * string)) :
  augmentedShape n aug -> (i < n)%nat ->
  augmentedShape n (Matrix.pivot i n (aug, steps)).1
  /\ forall r c,
      Matrix.cell (Matrix.pivot i n (aug, steps)).1 r c
      = Matrix.cell aug (swapped i (Matrix.findPivot aug i n) r) c.
Proof.
  intros Hshape Hi. unfold Matrix.pivot.
  pose proof (findPivot_lt aug i n Hi) as Hm.
  case_decide as Hne; simpl.
  - split; [by apply swapRows_shape |]. intros r c.
    destruct Hshape as [Hlen _]. apply swapRows_cell; lia.
  - split; [done |]. intros r c.
    assert (Matrix.findPivot aug i n = i) as -> by (destruct (decide (Matrix.findPivot aug i n = i)); tauto).
    unfold swapped. destruct (decide (r = i)) as [->|]; done.
Qed.

Lemma swapped_involutive (i m r : nat) : swapped i m (swapped i m r) = r.
Proof. unfold swapped. repeat case_decide; congruence. Qed.

Lemma swapped_range (n i m r : nat) :
  (i <= m < n)%nat -> (i <= r < n)%nat -> (i <= swapped i m r < n)%nat.
Proof. intros. unfold swapped. repeat case_decide; lia. Qed.

Lemma augment_cell (A : Matrix.t num) (b : list num) (i j : nat) :
  square (Matrix.rows A) A -> (i < Matrix.rows A)%nat ->
  Matrix.cell (Matrix.augment A b) i j
  = if decide (j < Matrix.rows A)%nat then entry A i j
    else if decide (j = Matrix.rows A) then default nan (b !! i) else nan.
Proof.
  intros (_ & _ & Hlen & Hrows) Hi. unfold Matrix.augment, Matrix.cell, entry, Matrix.cell.
  rewrite list_lookup_imap.
  destruct (lookup_lt_is_Some_2 (Matrix.data A) i) as [row Hrow]; [lia |].
  rewrite Hrow. simpl.
  assert (length row = Matrix.rows A) as Hl.
  { rewrite Forall_lookup in Hrows. by eapply Hrows. }
  case_decide as Hj.
  - by rewrite lookup_app_l by lia.
  - rewrite lookup_app_r by lia. case_decide as Hj'.
    + subst j. rewrite Hl, Nat.sub_diag. done.
    + rewrite lookup_ge_None_2; [done |]. simpl. lia.
Qed.

Lemma augment_shape (A : Matrix.t num) (b : list num) :
  square (Matrix.rows A) A ->
  augmentedShape (Matrix.rows A) (Matrix.augment A b).
Proof.
  intros (_ & _ & Hlen & Hrows). unfold Matrix.augment. split.
  - by rewrite length_imap.
  - apply Forall_lookup. intros i row Hrow.
    rewrite list_lookup_imap in Hrow.
    destruct (Matrix.data A !! i) as [row0|] eqn:Hrow0; [| done].
    injection Hrow as <-. rewrite length_app. simpl.
    rewrite Forall_lookup in Hrows. rewrite (Hrows _ _ Hrow0). lia.
Qed.

End SolverFacts.

(** ** The order of the pivot search *)

Lemma Q_ndiv (a b : Q) : (ndiv a b == a / b)%Q.
Proof. apply Qred_correct. Qed.
Lemma Q_nabs (a : Q) : (nabs a == Qabs a)%Q.
Proof. apply Qred_correct. Qed.

Section PivotSearch.
Context {num : Type} `{Number num}.
Local Open Scope num_scope.

(** The comparison [<] of the arithmetic is a strict order; on binary64
    it is one although NaN compares with nothing. *)
Hypothesis nlt_irrefl : forall a : num, nlt a a = false.
Hypothesis nlt_trans :
  forall a b c : num, nlt a b = true -> nlt b c = true -> nlt a c = true.

(** The search keeps a row that no row it has seen exceeds, and leaves
    row [i] only for a row that exceeds it. *)
Lemma findPivot_fold (aug : list (list num)) (i : nat) :
  forall (len s m : nat) (seen : nat -> Prop),
    seen m ->
    (forall k, seen k ->
       nlt (nabs (Matrix.cell aug m i)) (nabs (Matrix.cell aug k i)) = false) ->
    (m = i \/ nlt (nabs (Matrix.cell aug i i)) (nabs (Matrix.cell aug m i)) = true) ->
    (forall k, seen k \/ (s <= k < s + len)%nat ->
       nlt (nabs (Matrix.cell aug
                    (fold_left (fun maxRow k =>
                                  if nlt (nabs (Matrix.cell aug maxRow i))
                                         (nabs (Matrix.cell aug k i))
                                  then k else maxRow) (seq s len) m) i))
           (nabs (Matrix.cell aug k i)) = false)
    /\ (fold_left (fun maxRow k =>
                     if nlt (nabs (Matrix.cell aug maxRow i))
                            (nabs (Matrix.cell aug k i))
                     then k else maxRow) (seq s len) m = i
        \/ nlt (nabs (Matrix.cell aug i i))
               (nabs (Matrix.cell aug
                        (fold_left (fun maxRow k =>
                                      if nlt (nabs (Matrix.cell aug maxRow i))
                                             (nabs (Matrix.cell aug k i))
                                      then k else maxRow) (seq s len) m) i)) = true).
Proof.
  intros len. induction len as [|len IH]; intros s m seen Hm Hseen Hi.
  - simpl. split; [| done]. intros k [Hk|Hk]; [by apply Hseen | lia].
  - cbn [seq fold_left].
    destruct (nlt (nabs (Matrix.cell aug m i)) (nabs (Matrix.cell aug s i))) eqn:Hlt.
    + destruct (IH (S s) s (fun k => seen k \/ k = s)) as [Ha Hb].
      * by right.
      * intros k [Hk | ->]; [| apply nlt_irrefl].
        destruct (nlt (nabs (Matrix.cell aug s i)) (nabs (Matrix.cell aug k i))) eqn:E;
          [| done].
        rewrite <- (Hseen k Hk). symmetry. by apply (nlt_trans _ _ _ Hlt).
      * right. destruct Hi as [-> | Hi]; [done |]. by apply (nlt_trans _ _ _ Hi).
      * split; [| done]. intros k Hk. apply Ha.
        destruct Hk as [Hk|Hk]; [by left; left |].
        destruct (decide (k = s)) as [->|Hne]; [by left; right | right; lia].
    + destruct (IH (S s) m (fun k => seen k \/ k = s)) as [Ha Hb].
      * by left.
      * intros k [Hk | ->]; [by apply Hseen | done].
      * done.
      * split; [| done]. intros k Hk. apply Ha.
        destruct Hk as [Hk|Hk]; [by left; left |].
        destruct (decide (k = s)) as [->|Hne]; [by left; right | right; lia].
Qed.

Lemma findPivot_largest (aug : list (list num)) (i n : nat) :
  (forall k, (i <= k < n)%nat ->
     nlt (nabs (Matrix.cell aug (Matrix.findPivot aug i n) i))
         (nabs (Matrix.cell aug k i)) = false)
  /\ (Matrix.findPivot aug i n = i
      \/ nlt (nabs (Matrix.cell aug i i))
             (nabs (Matrix.cell aug (Matrix.findPivot aug i n) i)) = true).
Proof.
  unfold Matrix.findPivot.
  destruct (findPivot_fold aug i (n - (i + 1)) (i + 1) i (fun k => k = i)) as [Ha Hb].
  - done.
  - intros k ->. apply nlt_irrefl.
  - by left.
  - split; [| done]. intros k Hk. apply Ha.
    destruct (decide (k = i)); [by left | right; lia].
Qed.

Lemma pivot_largest (n i : nat) (aug aug1 : list (list num))
    (steps steps1 : list (string * string)) :
  augmentedShape n aug -> (i < n)%nat ->
  Matrix.pivot i n (aug, steps) = (aug1, steps1) ->
  largestPivot n i aug aug1.
Proof.
  intros Hshape Hi Hp.
  destruct (pivot_cell n i aug steps Hshape Hi) as [_ Hcell].
  rewrite Hp in Hcell. cbn [fst] in Hcell.
  pose proof (findPivot_lt aug i n Hi) as Hm.
  pose proof (findPivot_ge aug i n) as Hge.
  destruct (findPivot_largest aug i n) as [Hmax Hmoved].
  assert (Matrix.cell aug1 i i = Matrix.cell aug (Matrix.findPivot aug i n) i) as Hpiv.
  { rewrite Hcell. unfold swapped. by rewrite decide_True. }
  split; [done |]. split.
  - intros k Hk. rewrite Hpiv, Hcell. apply Hmax.
    unfold swapped. repeat case_decide; lia.
  - intros Hne. rewrite Hpiv. by destruct Hmoved.
Qed.

End PivotSearch.

(** The order of the rationals. *)
Lemma Q_nlt_irrefl (a : Q) : nlt a a = false.
Proof. apply Qltb_false. apply Qle_refl. Qed.

Lemma Q_nlt_trans (a b c : Q) : nlt a b = true -> nlt b c = true -> nlt a c = true.
Proof.
  change (Qltb a b = true -> Qltb b c = true -> Qltb a c = true).
  rewrite !Qltb_true. apply Qlt_trans.
Qed.

(** The order of binary64, read off the sign, the exponent and the
    mantissa; NaN is below nothing and above nothing. *)
Lemma SFcompare_irrefl (a : spec_float) : SFcompare a a <> Some Lt.
Proof.
  destruct a as [s|s| |s m e]; simpl; try destruct s; try discriminate.
  - rewrite Z.compare_refl.
    change (Pos.compare_cont Eq m m) with (Pos.compare m m).
    rewrite Pos.compare_refl. discriminate.
  - rewrite Z.compare_refl.
    change (Pos.compare_cont Eq m m) with (Pos.compare m m).
    rewrite Pos.compare_refl. discriminate.
Qed.

Lemma SFcompare_trans (a b c : spec_float) :
  SFcompare a b = Some Lt -> SFcompare b c = Some Lt -> SFcompare a c = Some Lt.
Proof.
  destruct a as [sa|sa| |sa ma ea], b as [sb|sb| |sb mb eb], c as [sc|sc| |sc mc ec];
    simpl; try destruct sa; try destruct sb; try destruct sc;
    try discriminate; try reflexivity; intros Hab Hbc;
    change (Pos.compare_cont Eq ma mb) with (Pos.compare ma mb) in Hab;
    change (Pos.compare_cont Eq mb mc) with (Pos.compare mb mc) in Hbc;
    change (Pos.compare_cont Eq ma mc) with (Pos.compare ma mc);
    destruct (Z.compare_spec ea eb), (Z.compare_spec eb ec), (Z.compare_spec ea ec);
    subst; try lia; try discriminate; try reflexivity; f_equal;
    destruct (Pos.compare_spec ma mb), (Pos.compare_spec mb mc),
      (Pos.compare_spec ma mc); subst; simpl in *; try lia; try discriminate;
    reflexivity.
Qed.

Lemma float_nlt_irrefl (a : float) : nlt a a = false.
Proof.
  change (PrimFloat.ltb a a = false). rewrite ltb_spec. unfold SFltb.
  pose proof (SFcompare_irrefl (Prim2SF a)) as Hne.
  destruct (SFcompare (Prim2SF a) (Prim2SF a)) as [[]|]; congruence.
Qed.

Lemma float_nlt_trans (a b c : float) :
  nlt a b = true -> nlt b c = true -> nlt a c = true.
Proof.
  change (PrimFloat.ltb a b = true -> PrimFloat.ltb b c = true
          -> PrimFloat.ltb a c = true).
  rewrite !ltb_spec. unfold SFltb. intros Hab Hbc.
  rewrite (SFcompare_trans (Prim2SF a) (Prim2SF b) (Prim2SF c)); [done | |].
  - by destruct (SFcompare (Prim2SF a) (Prim2SF b)) as [[]|].
  - by destruct (SFcompare (Prim2SF b) (Prim2SF c)) as [[]|].
Qed.

(** X2. Partial pivoting, in exact arithmetic and in binary64.  The
    pivoting of stage [i] exchanges row [i] with the row that the search
    returns and moves no other row; afterwards no entry of column [i]
    below the pivot compares larger than the pivot in absolute value,
    and when the rows moved the new pivot compares larger than the entry
    it replaced.  In binary64 an entry that is NaN compares with
    nothing: the search passes over it, as in the column [1, NaN, 5],
    and keeps it when it stands in row [i]. *)
Theorem pivot_is_largest :
  (forall (n i : nat) (aug aug1 : list (list Q)) (steps steps1 : list (string * string)),
     augmentedShape n aug -> (i < n)%nat ->
     Matrix.pivot i n (aug, steps) = (aug1, steps1) ->
     largestPivot n i aug aug1)
  /\ (forall (n i : nat) (aug aug1 : list (list float))
             (steps steps1 : list (string * string)),
        augmentedShape n aug -> (i < n)%nat ->
        Matrix.pivot i n (aug, steps) = (aug1, steps1) ->
        largestPivot n i aug aug1)
  /\ Matrix.findPivot [[1; 0]; [PrimFloat.nan; 0]; [5; 0]]%float 0 3 = 2%nat
  /\ Matrix.findPivot [[PrimFloat.nan; 0]; [1; 0]; [5; 0]]%float 0 3 = 0%nat.
Proof.
  split; [| split; [| split; reflexivity]].
  - intros n i aug aug1 steps steps1.
    apply pivot_largest; [apply Q_nlt_irrefl | apply Q_nlt_trans].
  - intros n i aug aug1 steps steps1.
    apply pivot_largest; [apply float_nlt_irrefl | apply float_nlt_trans].
Qed.

(** X2, an instance of [pivot_is_largest]: the first stage of the system
    [x + y = 3], [2x + 3y = 5], which swaps its two rows, in exact
    arithmetic and in binary64. *)
Lemma pivot_is_largest_witness :
  largestPivot 2 0 [[1; 1; 3]; [2; 3; 5]]%Q [[2; 3; 5]; [1; 1; 3]]%Q
  /\ largestPivot 2 0 [[1; 1; 3]; [2; 3; 5]]%float [[2; 3; 5]; [1; 1; 3]]%float.
Proof.
  split.
  - refine (proj1 pivot_is_largest 2%nat 0%nat [[1; 1; 3]; [2; 3; 5]]%Q
              [[2; 3; 5]; [1; 1; 3]]%Q []
              (Matrix.pivot 0 2 ([[1; 1; 3]; [2; 3; 5]]%Q, [])).2 _ _ _).
    + split; [reflexivity |]. repeat constructor.
    + lia.
    + vm_compute. reflexivity.
  - refine (proj1 (proj2 pivot_is_largest) 2%nat 0%nat [[1; 1; 3]; [2; 3; 5]]%float
              [[2; 3; 5]; [1; 1; 3]]%float []
              (Matrix.pivot 0 2 ([[1; 1; 3]; [2; 3; 5]]%float, [])).2 _ _ _).
    + split; [reflexivity |]. repeat constructor.
    + lia.
    + vm_compute. reflexivity.
Defined.

(** ** What the analysis returns *)

Section AnalysisExtra.
Context {num : Type} `{Number num}.
Local Open Scope num_scope.

Lemma unknownNodes_ids (circuit : Circuit num) (id : string) :
  id ∈ map n_id (unknownNodes circuit)
  <-> id ∈ map n_id (nodes circuit) /\ id <> groundNode.
Proof.
  unfold unknownNodes. rewrite !list_elem_of_fmap. split.
  - intros (n & -> & [Hne Hn]%list_elem_of_filter). split; [| done]. by exists n.
  - intros [(n & -> & Hn) Hne]. exists n. split; [done |].
    by apply list_elem_of_filter.
Qed.

(** The potentials bind the ground and the identifiers of the unknown
    nodes, and nothing else. *)
Lemma voltagesOf_is_Some (circuit : Circuit num) (solution : list num) (id : string) :
  is_Some (voltagesOf (unknownNodes circuit) solution !! id) <-> known circuit id.
Proof.
  rewrite voltagesOf_insertNodes. unfold known.
  destruct (decide (id ∈ map n_id (unknownNodes circuit))) as [Hin|Hnot].
  - destruct (insertNodes_present (solutionAt solution) 0 (unknownNodes circuit)
                (<[groundNode := ofZ 0]> ∅) id Hin) as (j & n & _ & _ & ->).
    split; [| by eauto]. intros _. right. by apply unknownNodes_ids in Hin as [? _].
  - rewrite insertNodes_absent by done.
    destruct (decide (id = groundNode)) as [->|Hne].
    + rewrite lookup_insert_eq. split; [by left | by eauto].
    + rewrite lookup_insert_ne by done. rewrite lookup_empty. split.
      * by intros [? ?].
      * intros [?|Hin]; [done |]. destruct Hnot. by apply unknownNodes_ids.
Qed.

(** X3. The potentials of a successful analysis are those of the ground
    and of the listed nodes: an identifier has a potential exactly when it
    is "gnd" or the identifier of a node of the circuit. *)
Theorem potentials_domain (circuit : Circuit num) (v : gmap string num)
    (r : list (ComponentResult num)) (s : list Step) (m : string) :
  analyzeNodalMethod circuit = Success v r s m ->
  forall id, is_Some (v !! id) <-> id = "gnd" \/ id ∈ map n_id (nodes circuit).
Proof.
  intros (A & b & eqs & solution & trace & calcs & _ & _ & -> & _)%analyze_Success id.
  apply voltagesOf_is_Some.
Qed.

Lemma componentCalc_None (circuit : Circuit num) (v : gmap string num)
    (solution : list num) (comp : Component num) :
  componentCalc v (componentResult circuit v solution comp) = None
  <-> c_type comp = Resistor
      /\ ~ (is_Some (v !! (c_nodes comp).1) /\ is_Some (v !! (c_nodes comp).2)).
Proof.
  unfold componentCalc. rewrite r_comp_componentResult.
  destruct (c_type comp) eqn:Hty.
  - destruct (c_nodes comp) as [nA nB]. simpl.
    destruct (v !! nA) as [vA|] eqn:HA; simpl.
    + destruct (v !! nB) as [vB|] eqn:HB; simpl.
      * split; [done |]. intros [_ Hno]. destruct Hno. by eauto.
      * split; [| done]. intros _. split; [done |]. intros [_ [? ?]]. done.
    + split; [| done]. intros _. split; [done |]. intros [[? ?] _]. done.
  - split; [done | by intros [? _]].
  - split; [done | by intros [? _]].
Qed.

(** X4. The analysis raises a TypeError exactly when the system was
    solved and some resistor has a terminal that is neither the ground
    nor a listed node: step 7 then formats a potential that is
    [undefined].  Nothing else in the analysis raises. *)
Theorem analysis_raises_iff (circuit : Circuit num) :
  analyzeNodalMethod circuit = TypeError
  <-> is_Some (solutionOf circuit)
      /\ exists comp, comp ∈ components circuit /\ dangling circuit comp.
Proof.
  unfold analyzeNodalMethod, solutionOf.
  destruct (assemble_total circuit) as (A & b & eqs & -> & _ & _).
  destruct (Matrix.solve A b) as [[solution|] trace]; simpl.
  2: { split; [done |]. by intros [[? ?] _]. }
  set (v := voltagesOf (unknownNodes circuit) solution).
  destruct (mapM (componentCalc v) _) as [calcs|] eqn:Hcalcs.
  - split; [done |]. intros [_ (comp & Hin & Hty & Hdang)].
    assert (is_Some (mapM (componentCalc v)
                       (map (componentResult circuit v solution) (components circuit))))
      as Hsome by (rewrite Hcalcs; eauto).
    rewrite mapM_is_Some, Forall_fmap, Forall_forall in Hsome.
    specialize (Hsome comp Hin). simpl in Hsome.
    destruct Hsome as [calc Hcalc].
    assert (componentCalc v (componentResult circuit v solution comp) = None) as Hnone.
    { apply componentCalc_None. split; [done |].
      unfold v. by rewrite !voltagesOf_is_Some. }
    congruence.
  - split; [| done]. intros _. split; [by eauto |].
    assert (~ is_Some (mapM (componentCalc v)
                         (map (componentResult circuit v solution) (components circuit))))
      as Hnone by (rewrite Hcalcs; by intros [? ?]).
    rewrite mapM_is_Some, Forall_fmap in Hnone.
    apply not_Forall_Exists in Hnone; [| intros x; apply _].
    apply Exists_exists in Hnone as (comp & Hin & Hno). simpl in Hno.
    exists comp. split; [done |].
    assert (componentCalc v (componentResult circuit v solution comp) = None) as Hcalc.
    { destruct (componentCalc v _); [by destruct Hno; eauto | done]. }
    apply componentCalc_None in Hcalc as [Hty Hdang]. split; [done |].
    unfold v in Hdang. by rewrite !voltagesOf_is_Some in Hdang.
Qed.

(** [findIndex] returns the index of the first component of the
    identifier, if there is one. *)
Lemma findIndex_Some (id : string) (l : list (Component num)) (k : nat) :
  findIndex id l = Some k
  <-> (exists vs, l !! k = Some vs /\ c_id vs = id)
      /\ forall k' vs', (k' < k)%nat -> l !! k' = Some vs' -> c_id vs' <> id.
Proof.
  revert k. induction l as [|x l IH]; intros k; simpl.
  - split; [done |]. by intros [(vs & ? & _) _].
  - case_decide as Hx.
    + split.
      * intros [= <-]. split; [by exists x |]. intros k' vs' Hk'. lia.
      * intros [_ Hfirst]. destruct k as [|k]; [done |].
        destruct (Hfirst 0%nat x); [lia | done | done].
    + destruct k as [|k].
      * split.
        -- by destruct (findIndex id l).
        -- intros [(vs & [= <-] & Hid) _]. done.
      * split.
        -- destruct (findIndex id l) as [k0|] eqn:Hfi; [| done].
           intros [= <-]. destruct (proj1 (IH k0) eq_refl) as [Hhere Hfirst].
           split; [done |]. intros [|k'] vs' Hk' Hvs'.
           ++ by injection Hvs' as <-.
           ++ apply (Hfirst k' vs'); [lia | done].
        -- intros [Hhere Hfirst].
           assert (findIndex id l = Some k) as ->; [| done].
           apply IH. split; [done |]. intros k' vs' Hk' Hvs'.
           apply (Hfirst (S k') vs'); [lia | done].
Qed.

Lemma findIndex_None (id : string) (l : list (Component num)) :
  findIndex id l = None -> forall vs, vs ∈ l -> c_id vs <> id.
Proof.
  induction l as [|x l IH]; simpl; intros Hnone vs Hin.
  - by apply elem_of_nil in Hin.
  - case_decide as Hx; [done |].
    destruct (findIndex id l); [done |].
    apply elem_of_cons in Hin as [->|Hin]; [done | by apply IH].
Qed.

(** X5. The current reported for a voltage source is an entry of the
    solution, never the default 0: the branch current of the first
    voltage source of the circuit that carries its identifier, which is
    its own when the identifiers are distinct. *)
Theorem source_current (circuit : Circuit num) (v : gmap string num)
    (r : list (ComponentResult num)) (s : list Step) (m : string)
    (cr : ComponentResult num) :
  analyzeNodalMethod circuit = Success v r s m ->
  cr ∈ r -> c_type (r_comp cr) = VoltageSource ->
  exists solution k vs,
    solutionOf circuit = Some solution
    /\ voltageSourcesOf circuit !! k = Some vs
    /\ c_id vs = c_id (r_comp cr)
    /\ (forall k' vs', (k' < k)%nat -> voltageSourcesOf circuit !! k' = Some vs' ->
                       c_id vs' <> c_id (r_comp cr))
    /\ current cr = solutionAt solution (length (unknownNodes circuit) + k).
Proof.
  intros Hok Hcr Hty.
  apply analyze_Success in Hok
    as (A & b & eqs & solution & trace & calcs & Hasm & Hsolve & -> & -> & _).
  apply list_elem_of_fmap in Hcr as (comp & -> & Hcomp).
  rewrite r_comp_componentResult in Hty |- *.
  assert (comp ∈ voltageSourcesOf circuit) as Hvs.
  { unfold voltageSourcesOf. by apply list_elem_of_filter. }
  destruct (findIndex (c_id comp) (voltageSourcesOf circuit)) as [k|] eqn:Hfi.
  - apply findIndex_Some in Hfi as Hk. destruct Hk as [(vs & Hvsk & Hid) Hfirst].
    exists solution, k, vs. unfold solutionOf. rewrite Hasm, Hsolve.
    repeat split; try done.
    unfold componentResult. destruct (c_nodes comp). simpl. by rewrite Hty, Hfi.
  - by destruct (findIndex_None _ _ Hfi comp Hvs).
Qed.

(** X6. The results of a successful analysis follow the components: one
    result per component, in the order of the circuit.  The power of each
    is the absolute value of its voltage times its current; a resistor has
    a potential at both terminals, its voltage is their difference and its
    current that voltage over its resistance in ohms. *)
Theorem results_follow_components (circuit : Circuit num) (v : gmap string num)
    (r : list (ComponentResult num)) (s : list Step) (m : string) :
  analyzeNodalMethod circuit = Success v r s m ->
  map r_comp r = components circuit
  /\ forall cr, cr ∈ r ->
       power cr = nabs (voltage cr * current cr)
       /\ (c_type (r_comp cr) = Resistor ->
           exists vA vB,
             v !! (c_nodes (r_comp cr)).1 = Some vA
             /\ v !! (c_nodes (r_comp cr)).2 = Some vB
             /\ voltage cr = vA - vB
             /\ current cr
                = voltage cr / convertToOhms (c_value (r_comp cr)) (c_unit (r_comp cr))).
Proof.
  intros Hok.
  apply analyze_Success in Hok
    as (A & b & eqs & solution & trace & calcs & Hasm & Hsolve & Hv & -> & Hcalcs & _).
  split.
  { rewrite map_map. rewrite <- (map_id (components circuit)) at 2.
    apply map_ext. intros comp. apply r_comp_componentResult. }
  intros cr Hcr.
  apply list_elem_of_fmap in Hcr as (comp & -> & Hcomp).
  split.
  { unfold componentResult. by destruct (c_nodes comp). }
  rewrite r_comp_componentResult. intros Hty.
  assert (is_Some (mapM (componentCalc v)
                     (map (componentResult circuit v solution) (components circuit))))
    as Hsome by (rewrite Hcalcs; eauto).
  rewrite mapM_is_Some, Forall_fmap, Forall_forall in Hsome.
  specialize (Hsome comp Hcomp). simpl in Hsome.
  unfold componentCalc in Hsome. rewrite r_comp_componentResult, Hty in Hsome.
  unfold componentResult. destruct (c_nodes comp) as [nA nB] eqn:Hnodes. simpl in *.
  destruct (v !! nA) as [vA|]; [| by destruct Hsome].
  destruct (v !! nB) as [vB|]; [| by destruct Hsome].
  exists vA, vB. by rewrite Hty.
Qed.

(** X7. A circuit with nothing to solve, no node but the ground and no
    voltage source, is never reported as singular: the solver returns the
    empty solution, and an analysis that succeeds knows the potential of
    the ground and no other. *)
Theorem nothing_to_solve (circuit : Circuit num) :
  unknownNodes circuit = [] -> voltageSourcesOf circuit = [] ->
  solutionOf circuit = Some []
  /\ (forall e steps, analyzeNodalMethod circuit <> Failure e steps)
  /\ forall v r s m, analyzeNodalMethod circuit = Success v r s m ->
       v = {[ groundNode := ofZ 0 ]}.
Proof.
  intros Hun Hvs.
  assert (solutionOf circuit = Some []) as Hsol.
  { unfold solutionOf.
    destruct (assemble_total circuit) as (A & b & eqs & -> & (Hrows & _) & _).
    rewrite Hun, Hvs in Hrows. simpl in Hrows.
    unfold Matrix.solve. rewrite Hrows. done. }
  split; [done |]. split.
  - intros e steps Hfail. unfold solutionOf, analyzeNodalMethod in *.
    destruct (assemble circuit) as [[[A b] eqs]|]; [| done].
    destruct (Matrix.solve A b) as [[x|] trace]; [| done].
    by destruct (mapM _ _).
  - intros v r s m (A & b & eqs & x & trace & calcs & Hasm & Hsolve & -> & _)%analyze_Success.
    unfold solutionOf in Hsol. rewrite Hasm, Hsolve in Hsol. simpl in Hsol.
    injection Hsol as ->. rewrite Hun. unfold voltagesOf. simpl.
    by rewrite insert_empty.
Qed.

End AnalysisExtra.

(** X3, an instance of [potentials_domain]: exercise 2 has a potential
    at its node [n2] and none at a node [n3]. *)
Lemma potentials_domain_witness :
  is_Some (potentialAt (analyzeNodalMethod (exercise2 : Circuit Q)) "n2")
  /\ potentialAt (analyzeNodalMethod (exercise2 : Circuit Q)) "n3" = None.
Proof.
  destruct (analyzeNodalMethod (exercise2 : Circuit Q)) as [v r s m| |] eqn:E.
  - pose proof (potentials_domain exercise2 v r s m E) as Hdom. simpl. split.
    + apply Hdom. right. vm_compute. apply elem_of_cons. right.
      apply elem_of_cons. by left.
    + apply eq_None_not_Some. intros [Hgnd|Hin]%Hdom; [discriminate |].
      vm_compute in Hin.
      repeat (apply elem_of_cons in Hin as [Hin|Hin]; [discriminate |]).
      by apply elem_of_nil in Hin.
  - vm_compute in E. discriminate.
  - vm_compute in E. discriminate.
Defined.

(** X4, an instance of [analysis_raises_iff]: a resistor to a node that
    the circuit does not list. *)
Lemma analysis_raises_iff_witness :
  analyzeNodalMethod (unlistedTerminal : Circuit Q) = TypeError.
Proof.
  refine (proj2 (analysis_raises_iff (unlistedTerminal : Circuit Q)) _).
  split.
  - vm_compute. by eexists.
  - exists (component "R1" Resistor "n1" "n2" (ofZ 100) "Ω"). split.
    + apply elem_of_cons. right. apply elem_of_cons. by left.
    + split; [reflexivity |]. intros [_ [Hgnd|Hin]]; [discriminate |].
      vm_compute in Hin.
      repeat (apply elem_of_cons in Hin as [Hin|Hin]; [discriminate |]).
      by apply elem_of_nil in Hin.
Defined.

(** X5, an instance of [source_current]: the source of exercise 2,
    whose current is the third entry of the solution. *)
Lemma source_current_witness :
  exists solution k vs,
    solutionOf (exercise2 : Circuit Q) = Some solution
    /\ voltageSourcesOf (exercise2 : Circuit Q) !! k = Some vs
    /\ c_id vs = "V1"
    /\ (forall k' vs', (k' < k)%nat ->
          voltageSourcesOf (exercise2 : Circuit Q) !! k' = Some vs' ->
          c_id vs' <> "V1")
    /\ (-1 # 320)%Q = solutionAt solution (2 + k).
Proof.
  refine (source_current (exercise2 : Circuit Q) _ _ _ _
            {| r_comp := component "V1" VoltageSource "n1" "gnd" 10%Q "V";
               voltage := 10%Q; current := (-1 # 320)%Q; power := (1 # 32)%Q |}
            _ _ _).
  - vm_compute. reflexivity.
  - apply elem_of_cons. left. reflexivity.
  - reflexivity.
Defined.

(** X6, an instance of [results_follow_components]: exercise 2. *)
Lemma results_follow_components_witness :
  map r_comp (resultsOf (analyzeNodalMethod (exercise2 : Circuit Q)))
  = components (exercise2 : Circuit Q).
Proof.
  destruct (analyzeNodalMethod (exercise2 : Circuit Q)) as [v r s m| |] eqn:E.
  - exact (proj1 (results_follow_components exercise2 v r s m E)).
  - vm_compute in E. discriminate.
  - vm_compute in E. discriminate.
Defined.

(** X7, an instance of [nothing_to_solve]: the ground alone, with a
    current source across it. *)
Lemma nothing_to_solve_witness :
  solutionOf (groundOnly : Circuit Q) = Some []
  /\ (forall e steps, analyzeNodalMethod (groundOnly : Circuit Q) <> Failure e steps)
  /\ forall v r s m, analyzeNodalMethod (groundOnly : Circuit Q) = Success v r s m ->
       v = {[ groundNode := ofZ 0 ]}.
Proof.
  refine (nothing_to_solve (groundOnly : Circuit Q) _ _); reflexivity.
Defined.

(** ** Sources at terminals that are not nodes *)

Section NotANumber.

Lemma nan_add_l (x : float) : PrimFloat.add PrimFloat.nan x = PrimFloat.nan.
Proof.
  rewrite <- (SF2Prim_Prim2SF (PrimFloat.add _ _)). rewrite add_spec.
  destruct (Prim2SF x) as [s|s| |s m e]; try destruct s; reflexivity.
Qed.

Lemma nan_add_r (x : float) : PrimFloat.add x PrimFloat.nan = PrimFloat.nan.
Proof.
  rewrite <- (SF2Prim_Prim2SF (PrimFloat.add _ _)). rewrite add_spec.
  destruct (Prim2SF x) as [s|s| |s m e]; try destruct s; reflexivity.
Qed.

Lemma nan_power (x : float) :
  PrimFloat.abs (PrimFloat.mul PrimFloat.nan x) = PrimFloat.nan.
Proof.
  rewrite <- (SF2Prim_Prim2SF (PrimFloat.abs _)). rewrite abs_spec, mul_spec.
  destruct (Prim2SF x) as [s|s| |s m e]; try destruct s; reflexivity.
Qed.

Lemma nan_difference (x y : float) :
  PrimFloat.ltb (PrimFloat.sub PrimFloat.nan x) y = false.
Proof.
  rewrite ltb_spec, sub_spec.
  destruct (Prim2SF x) as [s|s| |s m e]; try destruct s; reflexivity.
Qed.

(** A sum that meets NaN is NaN. *)
Lemma totalPower_nan (ty : ComponentType) (r : list (ComponentResult float))
    (cr : ComponentResult float) :
  cr ∈ r -> c_type (r_comp cr) = ty -> power cr = PrimFloat.nan ->
  totalPower ty r = PrimFloat.nan.
Proof.
  intros Hcr Hty Hnan. unfold totalPower.
  assert (cr ∈ filter (fun c => c_type (r_comp c) = ty) r) as Hin
    by (by apply list_elem_of_filter).
  assert (forall (l : list (ComponentResult float)) (acc : float),
            acc = PrimFloat.nan \/ cr ∈ l ->
            fold_left (fun sum c => nadd sum (power c)) l acc = PrimFloat.nan) as Hfold.
  { induction l as [|c l IH]; intros acc [Hacc|Hl]; simpl.
    - done.
    - by apply elem_of_nil in Hl.
    - apply IH. left. rewrite Hacc. apply nan_add_l.
    - apply elem_of_cons in Hl as [<-|Hl].
      + apply IH. left. rewrite Hnan. apply nan_add_r.
      + apply IH. by right. }
  apply Hfold. by right.
Qed.

(** X8. A source at a terminal that the circuit does not list, in
    binary64.  Where a resistor at such a terminal makes the analysis
    raise, a voltage source or a current source does not: a successful
    analysis reports NaN for its voltage and for its power, and with a
    voltage source the total supplied is NaN and the verification shows
    the marker of a balance to review. *)
Theorem unlisted_source_terminal (circuit : Circuit float) (v : gmap string float)
    (r : list (ComponentResult float)) (s : list Step) (m : string)
    (cr : ComponentResult float) :
  analyzeNodalMethod circuit = Success v r s m ->
  cr ∈ r -> c_type (r_comp cr) <> Resistor ->
  ~ (known circuit (c_nodes (r_comp cr)).1 /\ known circuit (c_nodes (r_comp cr)).2) ->
  voltage cr = PrimFloat.nan
  /\ power cr = PrimFloat.nan
  /\ (c_type (r_comp cr) = VoltageSource ->
      verificationMarker (Success v r s m) = Some balanceFail).
Proof.
  intros Hok Hcr Hty Hunknown.
  destruct (verification_marker circuit v r s m Hok) as [Hmarker _].
  pose proof Hok as Hok'.
  apply analyze_Success in Hok'
    as (A & b & eqs & x & trace & calcs & _ & _ & Hv & Hr & _).
  assert (voltage cr = PrimFloat.nan /\ power cr = PrimFloat.nan) as [Hvolt Hpow].
  { rewrite Hr in Hcr. apply list_elem_of_fmap in Hcr as (comp & -> & Hcomp).
    rewrite r_comp_componentResult in Hunknown.
    unfold componentResult. destruct (c_nodes comp) as [p q]. simpl in *.
    assert (difference (v !! p) (v !! q) = PrimFloat.nan) as ->.
    { destruct (v !! p) as [vp|] eqn:Hp; [| done].
      destruct (v !! q) as [vq|] eqn:Hq; [| done].
      destruct Hunknown. rewrite Hv in Hp, Hq. split.
      - apply (voltagesOf_is_Some circuit x). by rewrite Hp.
      - apply (voltagesOf_is_Some circuit x). by rewrite Hq. }
    split; [done | apply nan_power]. }
  split; [done |]. split; [done |]. intros Hvs.
  rewrite Hmarker. f_equal. unfold balanceMarker.
  rewrite (totalPower_nan VoltageSource r cr Hcr Hvs Hpow).
  simpl. by rewrite nan_difference.
Qed.

End NotANumber.

(** X8, an instance of [unlisted_source_terminal]: a source from [n1] to
    a node [n9] that the circuit does not list. *)
Lemma unlisted_source_terminal_witness :
  succeeded (analyzeNodalMethod unlistedSourceTerminal) = true
  /\ exists cr, cr ∈ resultsOf (analyzeNodalMethod unlistedSourceTerminal)
       /\ c_id (r_comp cr) = "V1"
       /\ voltage cr = PrimFloat.nan
       /\ power cr = PrimFloat.nan
       /\ verificationMarker (analyzeNodalMethod unlistedSourceTerminal)
          = Some balanceFail.
Proof.
  split; [vm_compute; reflexivity |].
  destruct (analyzeNodalMethod unlistedSourceTerminal) as [v r s m| |] eqn:E.
  - pose proof E as (A & b & eqs & x & trace & calcs & _ & _ & _ & Hr & _)%analyze_Success.
    exists (componentResult unlistedSourceTerminal v x
              (component "V1" VoltageSource "n1" "n9" (ofZ 12) "V")).
    assert (componentResult unlistedSourceTerminal v x
              (component "V1" VoltageSource "n1" "n9" (ofZ 12) "V") ∈ r) as Hin.
    { rewrite Hr. apply elem_of_cons. left. reflexivity. }
    split; [exact Hin |]. split; [reflexivity |].
    destruct (unlisted_source_terminal unlistedSourceTerminal v r s m _ E Hin)
      as (Hvolt & Hpow & Hmark).
    + discriminate.
    + intros [_ [Hgnd|Hn9]]; [discriminate |].
      vm_compute in Hn9.
      repeat (apply elem_of_cons in Hn9 as [Hn9|Hn9]; [discriminate |]).
      by apply elem_of_nil in Hn9.
    + split; [exact Hvolt |]. split; [exact Hpow |]. exact (Hmark eq_refl).
  - vm_compute in E. discriminate.
  - vm_compute in E. discriminate.
Defined.

(** ** The rows and columns of the voltage sources *)

Section SourceRows.
Context {num : Type} `{Number num}.
Local Open Scope num_scope.

Lemma stampSourceRow_cells (nodeMap : gmap string nat) (numNodes : nat)
    (A A' : Matrix.t num) (b b' : list num) (eqs eqs' : list string)
    (i : nat) (vs : Component num) :
  stampSourceRow nodeMap numNodes (A, b, eqs) (i, vs) = Some (A', b', eqs') ->
  (forall r col,
     entry A' r col
     = if decide (r = (numNodes + i)%nat)
       then sourceRowEntry nodeMap (c_nodes vs).1 (c_nodes vs).2 col (entry A r col)
       else entry A r col)
  /\ b' = <[(numNodes + i)%nat := c_value vs]> b.
Proof.
  unfold stampSourceRow, sourceRowEntry.
  destruct (c_nodes vs) as [posNode negNode]. cbn [fst snd].
  destruct (terminalIndex nodeMap posNode) as [posIdx|],
           (terminalIndex nodeMap negNode) as [negIdx|]; cbn [mbind option_bind].
  - destruct (Matrix.set A _ posIdx _) as [A1|] eqn:E1; cbn [mbind option_bind]; [| done].
    destruct (Matrix.set A1 _ negIdx _) as [A2|] eqn:E2; cbn [mbind option_bind]; [| done].
    destruct (writeAt b _ _) as [b1|] eqn:Eb; cbn [mbind option_bind]; [| done].
    intros [= <- <- <-]. apply writeAt_Some in Eb as [_ ->]. split; [| done].
    intros r col. rewrite (set_entry _ _ _ _ _ E2), (set_entry _ _ _ _ _ E1).
    repeat case_decide; destruct_and?; simplify_eq; first [done | tauto | congruence].
  - destruct (Matrix.set A _ posIdx _) as [A1|] eqn:E1; cbn [mbind option_bind]; [| done].
    destruct (writeAt b _ _) as [b1|] eqn:Eb; cbn [mbind option_bind]; [| done].
    intros [= <- <- <-]. apply writeAt_Some in Eb as [_ ->]. split; [| done].
    intros r col. rewrite (set_entry _ _ _ _ _ E1).
    repeat case_decide; destruct_and?; simplify_eq; first [done | tauto | congruence].
  - destruct (Matrix.set A _ negIdx _) as [A1|] eqn:E1; cbn [mbind option_bind]; [| done].
    destruct (writeAt b _ _) as [b1|] eqn:Eb; cbn [mbind option_bind]; [| done].
    intros [= <- <- <-]. apply writeAt_Some in Eb as [_ ->]. split; [| done].
    intros r col. rewrite (set_entry _ _ _ _ _ E1).
    repeat case_decide; destruct_and?; simplify_eq; first [done | tauto | congruence].
  - destruct (writeAt b _ _) as [b1|] eqn:Eb; cbn [mbind option_bind]; [| done].
    intros [= <- <- <-]. apply writeAt_Some in Eb as [_ ->]. split; [| done].
    intros r col. repeat case_decide; destruct_and?; simplify_eq; first [done | tauto | congruence].
Qed.

(** After the rows of the sources [vss], numbered from [k], are stamped. *)
Lemma stampSourceRows_cells (nodeMap : gmap string nat) (numNodes : nat)
    (vss : list (Component num)) (k : nat)
    (A A' : Matrix.t num) (b b' : list num) (eqs eqs' : list string) :
  foldM (stampSourceRow nodeMap numNodes) (A, b, eqs) (indexedFrom k vss)
  = Some (A', b', eqs') ->
  forall i vs, vss !! i = Some vs ->
    (forall col,
       entry A' (numNodes + (k + i)) col
       = sourceRowEntry nodeMap (c_nodes vs).1 (c_nodes vs).2 col
           (entry A (numNodes + (k + i)) col))
    /\ ((numNodes + (k + i) < length b)%nat ->
        b' !! (numNodes + (k + i))%nat = Some (c_value vs)).
Proof.
  revert k A b eqs. induction vss as [|x vss IH]; intros k A b eqs; simpl; [done |].
  destruct (stampSourceRow nodeMap numNodes (A, b, eqs) (k, x))
    as [[[A1 b1] eqs1]|] eqn:E1; simpl; [| done].
  intros Hrest i vs Hvs.
  destruct (stampSourceRow_cells _ _ _ _ _ _ _ _ _ _ E1) as [Hcells1 ->].
  destruct i as [|i]; simpl in Hvs.
  - injection Hvs as ->. rewrite Nat.add_0_r. split.
    + intros col.
      assert (entry A' (numNodes + k) col = entry A1 (numNodes + k) col) as ->.
      { refine (foldM_preserves
                  (fun st => entry st.1.1 (numNodes + k) col = entry A1 (numNodes + k) col)
                  _ (indexedFrom (S k) vss) (A1, <[(numNodes + k)%nat := c_value vs]> b, eqs1)
                  (A', b', eqs') eq_refl _ Hrest).
        intros [[A0 b0] e0] [j v] [[A2 b2] e2] Hin HP Hstep. simpl in *.
        apply indexedFrom_elem in Hin as [Hj _].
        destruct (stampSourceRow_cells _ _ _ _ _ _ _ _ _ _ Hstep) as [Hc _].
        rewrite Hc. rewrite decide_False by lia. done. }
      rewrite Hcells1. by rewrite decide_True.
    + intros Hlt.
      refine (foldM_preserves
                (fun st => st.1.2 !! (numNodes + k)%nat = Some (c_value vs))
                _ (indexedFrom (S k) vss) (A1, <[(numNodes + k)%nat := c_value vs]> b, eqs1)
                (A', b', eqs') _ _ Hrest).
      * simpl. by apply list_lookup_insert_eq.
      * intros [[A0 b0] e0] [j v] [[A2 b2] e2] Hin HP Hstep. simpl in *.
        apply indexedFrom_elem in Hin as [Hj _].
        destruct (stampSourceRow_cells _ _ _ _ _ _ _ _ _ _ Hstep) as [_ ->].
        rewrite list_lookup_insert_ne by lia. done.
  - replace (k + S i)%nat with (S k + i)%nat by lia.
    destruct (IH _ _ _ _ Hrest i vs Hvs) as [Hc Hb]. split.
    + intros col. rewrite Hc. rewrite Hcells1. rewrite decide_False by lia. done.
    + intros Hlt. apply Hb. by rewrite length_insert.
Qed.

(** The row of the voltage source of index [k] in the assembled system:
    [1] in the column of its positive terminal, [-1] in the column of its
    negative terminal, [0] elsewhere, and its value on the right. *)
Lemma assemble_source_row (circuit : Circuit num) (A : Matrix.t num) (b : list num)
    (eqs : list string) (k : nat) (vs : Component num) :
  assemble circuit = Some (A, b, eqs) ->
  voltageSourcesOf circuit !! k = Some vs ->
  (forall col,
     (col < length (unknownNodes circuit) + length (voltageSourcesOf circuit))%nat ->
     entry A (length (unknownNodes circuit) + k) col
     = sourceRowEntry (nodeMapOf (unknownNodes circuit)) (c_nodes vs).1 (c_nodes vs).2
         col (ofZ 0))
  /\ b !! (length (unknownNodes circuit) + k)%nat = Some (c_value vs).
Proof.
  unfold assemble.
  set (ns := unknownNodes circuit). set (vss := voltageSourcesOf circuit).
  set (N := (length ns + length vss)%nat).
  destruct (foldM _ (Matrix.new N N (ofZ 0), []) (indexed ns))
    as [[A1 eqs1]|] eqn:E1; simpl; [| done].
  intros Hrows Hvs. apply lookup_lt_Some in Hvs as Hk.
  destruct (stampSourceRows_cells _ _ _ _ _ _ _ _ _ _ Hrows k vs Hvs) as [Hc Hb].
  simpl in Hc, Hb. split.
  - intros col Hcol. rewrite Hc.
    destruct (stampNodes_entry _ _ _ _ _ _ _ _ _ _ E1 (length ns + k)%nat col) as [Hsame _].
    rewrite Hsame by lia. rewrite entry_new by (unfold N; lia). done.
  - apply Hb. rewrite length_replicate. unfold N. lia.
Qed.

Lemma stampSourceColumn_cells (numNodes : nat) (node : Node) (idx : nat)
    (A A' : Matrix.t num) (terms terms' : list string) (vsIdx : nat)
    (vs : Component num) :
  stampSourceColumn numNodes node idx (A, terms) (vsIdx, vs) = Some (A', terms') ->
  forall r col,
    entry A' r col
    = if decide (r = idx /\ col = (numNodes + vsIdx)%nat)
      then sourceColumnEntry (n_id node) vs (entry A r col)
      else entry A r col.
Proof.
  unfold stampSourceColumn, sourceColumnEntry.
  destruct (c_nodes vs) as [posNode negNode]. cbn [fst snd].
  case_decide as Hp.
  - destruct (Matrix.set A idx _ _) as [A1|] eqn:E1; cbn [mbind option_bind]; [| done].
    intros [= <- <-] r col. rewrite (set_entry _ _ _ _ _ E1). done.
  - case_decide as Hn.
    + destruct (Matrix.set A idx _ _) as [A1|] eqn:E1; cbn [mbind option_bind]; [| done].
      intros [= <- <-] r col. rewrite (set_entry _ _ _ _ _ E1). done.
    + intros [= <- <-] r col. by case_decide.
Qed.

Lemma stampSourceColumns_cells (numNodes : nat) (node : Node) (idx : nat)
    (vss : list (Component num)) (k : nat)
    (A A' : Matrix.t num) (terms terms' : list string) :
  foldM (stampSourceColumn numNodes node idx) (A, terms) (indexedFrom k vss)
  = Some (A', terms') ->
  forall i vs, vss !! i = Some vs ->
    entry A' idx (numNodes + (k + i))
    = sourceColumnEntry (n_id node) vs (entry A idx (numNodes + (k + i))).
Proof.
  revert k A terms. induction vss as [|x vss IH]; intros k A terms; simpl; [done |].
  destruct (stampSourceColumn numNodes node idx (A, terms) (k, x))
    as [[A1 terms1]|] eqn:E1; simpl; [| done].
  intros Hrest i vs Hvs.
  pose proof (stampSourceColumn_cells _ _ _ _ _ _ _ _ _ E1) as Hcells1.
  destruct i as [|i]; simpl in Hvs.
  - injection Hvs as ->. rewrite Nat.add_0_r.
    assert (entry A' idx (numNodes + k) = entry A1 idx (numNodes + k)) as ->.
    { refine (foldM_preserves
                (fun st => entry st.1 idx (numNodes + k) = entry A1 idx (numNodes + k))
                _ (indexedFrom (S k) vss) (A1, terms1) (A', terms') eq_refl _ Hrest).
      intros [A0 t0] [j v] [A2 t2] Hin HP Hstep. simpl in *.
      apply indexedFrom_elem in Hin as [Hj _].
      rewrite (stampSourceColumn_cells _ _ _ _ _ _ _ _ _ Hstep).
      rewrite decide_False by lia. done. }
    rewrite Hcells1. by rewrite decide_True.
  - replace (k + S i)%nat with (S k + i)%nat by lia.
    rewrite (IH _ _ _ Hrest i vs Hvs). rewrite Hcells1.
    rewrite decide_False by lia. done.
Qed.

(** A conductance leaves the columns of the sources as they are. *)
Lemma conductanceStamp_outside (nodeMap : gmap string nat) (node : Node)
    (idx col : nat) (acc : num) (c : Conductance num) :
  col <> idx -> (forall o i, nodeMap !! o = Some i -> i <> col) ->
  conductanceStamp nodeMap node idx col acc c = acc.
Proof.
  intros Hcol Hmap. unfold conductanceStamp.
  destruct (c_nodes (g_comp c)) as [nodeA nodeB].
  case_decide; [| done]. rewrite (decide_False (P := col = idx)) by done.
  case_decide; [done |].
  destruct (nodeMap !! _) as [o|] eqn:Ho; [| done].
  rewrite decide_False; [done |]. intros ->. by eapply Hmap.
Qed.

Lemma stampNode_source_column (nodeMap : gmap string nat) (numNodes : nat)
    (cs : list (Conductance num)) (vss : list (Component num))
    (A A' : Matrix.t num) (eqs eqs' : list string) (idx : nat) (node : Node)
    (k : nat) (vs : Component num) :
  (idx < numNodes)%nat ->
  (forall o i, nodeMap !! o = Some i -> (i < numNodes)%nat) ->
  stampNode nodeMap numNodes cs vss (A, eqs) (idx, node) = Some (A', eqs') ->
  vss !! k = Some vs ->
  entry A' idx (numNodes + k)
  = sourceColumnEntry (n_id node) vs (entry A idx (numNodes + k)).
Proof.
  intros Hidx Hmap. unfold stampNode.
  destruct (foldM (stampConductance nodeMap node idx) (A, []) cs)
    as [[A1 t1]|] eqn:E1; simpl; [| done].
  destruct (foldM (stampSourceColumn numNodes node idx) (A1, t1) (indexed vss))
    as [[A2 t2]|] eqn:E2; simpl; [| done].
  intros [= <- <-] Hvs.
  pose proof (stampSourceColumns_cells _ _ _ _ 0 _ _ _ _ E2 k vs Hvs) as Hcol.
  cbn [Nat.add] in Hcol. rewrite Hcol.
  rewrite (stampConductances_entry _ _ _ _ _ _ _ _ E1). rewrite decide_True by done.
  f_equal. generalize (entry A idx (numNodes + k)) as acc. clear E1 E2 Hcol.
  induction cs as [|c cs' IHcs]; intros acc; simpl; [done |].
  rewrite conductanceStamp_outside; [apply IHcs | lia |].
  intros o i Ho. apply Hmap in Ho. lia.
Qed.

(** The row of a node in the columns of the sources. *)
Lemma assemble_source_column (circuit : Circuit num) (A : Matrix.t num) (b : list num)
    (eqs : list string) (idx : nat) (node : Node) (k : nat) (vs : Component num) :
  assemble circuit = Some (A, b, eqs) ->
  unknownNodes circuit !! idx = Some node ->
  voltageSourcesOf circuit !! k = Some vs ->
  entry A idx (length (unknownNodes circuit) + k)
  = sourceColumnEntry (n_id node) vs (ofZ 0).
Proof.
  unfold assemble.
  set (ns := unknownNodes circuit). set (vss := voltageSourcesOf circuit).
  set (N := (length ns + length vss)%nat).
  destruct (foldM _ (Matrix.new N N (ofZ 0), []) (indexed ns))
    as [[A1 eqs1]|] eqn:E1; simpl; [| done].
  intros Hrows Hnode Hvs.
  apply lookup_lt_Some in Hnode as Hi. apply lookup_lt_Some in Hvs as Hk.
  assert (entry A idx (length ns + k) = entry A1 idx (length ns + k)) as ->.
  { refine (foldM_preserves
              (fun st => entry st.1.1 idx (length ns + k) = entry A1 idx (length ns + k))
              _ (indexed vss) (A1, replicate N (ofZ 0), eqs1) (A, b, eqs)
              eq_refl _ Hrows).
    intros [[A0 b0] e0] v [[A' b'] e'] _ HP Hstep. simpl in *.
    by rewrite (stampSourceRow_entry _ _ _ _ _ _ _ _ _ Hstep). }
  clear Hrows.
  assert (forall (l : list Node) (j : nat) (A0 A2 : Matrix.t num) (e0 e2 : list string),
            foldM (stampNode (nodeMapOf ns) (length ns) (conductancesOf circuit) vss)
                  (A0, e0) (indexedFrom j l) = Some (A2, e2) ->
            (j + length l <= length ns)%nat ->
            entry A2 idx (length ns + k)
            = match l !! (idx - j)%nat with
              | Some nd => if decide (j <= idx)%nat
                           then sourceColumnEntry (n_id nd) vs (entry A0 idx (length ns + k))
                           else entry A0 idx (length ns + k)
              | None => entry A0 idx (length ns + k)
              end) as Hfold.
  { induction l as [|x l IH]; intros j A0 A2 e0 e2; simpl.
    - intros [= <- <-] _. done.
    - destruct (stampNode _ _ _ _ (A0, e0) (j, x)) as [[A3 e3]|] eqn:E3; simpl; [| done].
      intros Hrest Hlen. rewrite (IH _ _ _ _ _ Hrest) by lia.
      destruct (decide (idx = j)) as [->|Hne].
      + rewrite Nat.sub_diag. simpl.
        rewrite (decide_True (P := (j <= j)%nat)) by done.
        rewrite <- (stampNode_source_column (nodeMapOf ns) (length ns)
                      (conductancesOf circuit) vss A0 A3 e0 e3 j x k vs Hi
                      (nodeMapOf_lt ns) E3 Hvs).
        destruct (l !! (j - S j)%nat); [| done]. by rewrite decide_False by lia.
      + destruct (stampNode_entry _ _ _ _ _ _ _ _ _ _ E3 idx (length ns + k)%nat)
          as [Hsame _].
        rewrite Hsame by done.
        destruct (decide (j < idx)%nat) as [Hlt|Hge].
        * replace (idx - j)%nat with (S (idx - S j)) by lia. simpl.
          destruct (l !! (idx - S j)%nat); [| done].
          rewrite decide_True by lia. by rewrite decide_True by lia.
        * replace (idx - j)%nat with 0%nat by lia.
          replace (idx - S j)%nat with 0%nat by lia.
          simpl. rewrite (decide_False (P := (j <= idx)%nat)) by lia.
          destruct (l !! 0%nat); [| done]. by rewrite decide_False by lia. }
  rewrite (Hfold ns 0%nat _ _ _ _ E1) by lia.
  rewrite Nat.sub_0_r, Hnode. rewrite decide_True by lia.
  rewrite entry_new by (unfold N; lia). done.
Qed.

(** The right-hand side is zero in the rows of the nodes. *)
Lemma assemble_rhs_node (circuit : Circuit num) (A : Matrix.t num) (b : list num)
    (eqs : list string) (idx : nat) :
  assemble circuit = Some (A, b, eqs) ->
  (idx < length (unknownNodes circuit))%nat ->
  b !! idx = Some (ofZ 0).
Proof.
  unfold assemble.
  set (ns := unknownNodes circuit). set (vss := voltageSourcesOf circuit).
  set (N := (length ns + length vss)%nat).
  destruct (foldM _ (Matrix.new N N (ofZ 0), []) (indexed ns))
    as [[A1 eqs1]|] eqn:E1; simpl; [| done].
  intros Hrows Hidx.
  refine (foldM_preserves (fun st => st.1.2 !! idx = Some (ofZ 0))
            _ (indexed vss) (A1, replicate N (ofZ 0), eqs1) (A, b, eqs) _ _ Hrows).
  - simpl. apply lookup_replicate_2. unfold N. lia.
  - intros [[A0 b0] e0] [j v] [[A' b'] e'] _ HP Hstep. simpl in *.
    destruct (stampSourceRow_cells _ _ _ _ _ _ _ _ _ _ Hstep) as [_ ->].
    rewrite list_lookup_insert_ne by lia. done.
Qed.

End SourceRows.

(** ** Nodes that nothing connects *)

Section ZeroRow.
Context {num : Type} `{Number num}.
Local Open Scope num_scope.

(** What the solver needs of the numbers: zero is below the tolerance,
    and zero over any pivot is not above it. *)
Hypothesis zero_below : (nabs (ofZ 0) <? tol) = true.
Hypothesis zero_factor : forall p : num, (nabs (ofZ 0 / p) >? tol) = false.

(** A zero row at or below the current stage stops the elimination. *)
Lemma forward_zero_row (n m : nat) :
  forall (i : nat) (aug : list (list num)) (steps : list (string * string)),
    (i + m = n)%nat -> augmentedShape n aug ->
    (exists z, (i <= z < n)%nat /\ zeroRow n aug z) ->
    exists steps', Matrix.forward (seq i m) n (aug, steps) = inr steps'.
Proof.
  induction m as [|m IH]; intros i aug steps Him Hshape (z & Hz & Hzero).
  - lia.
  - cbn [Matrix.forward seq].
    destruct (pivot_cell n i aug steps Hshape ltac:(lia)) as [Hshape1 Hcell1].
    pose proof (findPivot_lt aug i n ltac:(lia)) as Hm.
    pose proof (findPivot_ge aug i n) as Hge.
    destruct (Matrix.pivot i n (aug, steps)) as [aug1 steps1] eqn:Hp.
    cbn [fst] in Hshape1, Hcell1.
    set (z' := swapped i (Matrix.findPivot aug i n) z).
    assert ((i <= z' < n)%nat) as Hz' by (apply swapped_range; lia).
    assert (zeroRow n aug1 z') as Hzero1.
    { intros c Hc. rewrite Hcell1. unfold z'. rewrite swapped_involutive. by apply Hzero. }
    destruct (nabs (Matrix.cell aug1 i i) <? tol) eqn:Htol; [by eauto |].
    assert (z' <> i) as Hne.
    { intros Heq. rewrite Heq in Hzero1. rewrite (Hzero1 i) in Htol by lia. congruence. }
    destruct (eliminate_cell n i aug1 steps1 Hshape1) as [Hshape2 Hcell2].
    destruct (Matrix.eliminate i n (aug1, steps1)) as [aug2 steps2] eqn:He.
    cbn [fst] in Hshape2, Hcell2.
    apply (IH (S i) aug2 steps2); [lia | done |].
    exists z'. split; [lia |]. intros c Hc. rewrite Hcell2.
    assert (applies aug1 i z' = false) as Happ.
    { unfold applies, factorOf. rewrite (Hzero1 i) by lia. apply zero_factor. }
    rewrite Happ. case_decide; by apply Hzero1.
Qed.

(** A system with a zero equation has no solution for the solver. *)
Lemma solve_zero_row (A : Matrix.t num) (b : list num) (z : nat) :
  square (Matrix.rows A) A -> (z < Matrix.rows A)%nat ->
  (forall c, (c < Matrix.rows A)%nat -> entry A z c = ofZ 0) ->
  b !! z = Some (ofZ 0) ->
  (Matrix.solve A b).1 = None.
Proof.
  intros Hsq Hz Hrow Hb. unfold Matrix.solve.
  destruct (forward_zero_row (Matrix.rows A) (Matrix.rows A) 0 (Matrix.augment A b)
              [("Matriz aumentada inicial:", Matrix.formatAugmented (Matrix.augment A b))])
    as [steps' ->]; [lia | by apply augment_shape | | done].
  exists z. split; [lia |]. intros c Hc. rewrite augment_cell by done.
  case_decide; [by apply Hrow |]. rewrite decide_True by lia. by rewrite Hb.
Qed.

(** The equation of an isolated node is zero. *)
Lemma isolated_row (circuit : Circuit num) (id : string) (A : Matrix.t num)
    (b : list num) (eqs : list string) :
  isolated circuit id -> assemble circuit = Some (A, b, eqs) ->
  exists z, (z < length (unknownNodes circuit))%nat
            /\ (forall c, (c < length (unknownNodes circuit)
                               + length (voltageSourcesOf circuit))%nat ->
                          entry A z c = ofZ 0)
            /\ b !! z = Some (ofZ 0).
Proof.
  intros (Hgnd & Hin & Hfree) Hasm.
  assert (id ∈ map n_id (unknownNodes circuit)) as Hun by (by apply unknownNodes_ids).
  apply list_elem_of_fmap in Hun as (node & -> & Hnode).
  apply list_elem_of_lookup in Hnode as [z Hz].
  apply lookup_lt_Some in Hz as Hlt.
  exists z. split; [done |]. split; [| by eapply assemble_rhs_node].
  intros c Hc. destruct (decide (c < length (unknownNodes circuit))%nat) as [Hnode|Hsrc].
  - rewrite (assemble_node_entry circuit A b eqs z c node Hasm Hz Hnode).
    unfold conductancesOf. generalize (ofZ 0) as acc.
    assert (Forall (fun r => r ∈ components circuit /\ c_type r = Resistor)
                   (resistorsOf circuit)) as Hres.
    { apply Forall_forall. intros r Hr. unfold resistorsOf in Hr.
      apply list_elem_of_filter in Hr as [? ?]. done. }
    induction Hres as [|r rs [Hr Hty] _ IH]; intros acc; simpl; [done |].
    rewrite <- IH. f_equal. unfold conductanceStamp. simpl.
    destruct (Hfree r Hr) as [H1 H2]; [congruence |].
    destruct (c_nodes r) as [nodeA nodeB]. simpl in *.
    rewrite decide_False; [done | tauto].
  - assert (exists k, c = (length (unknownNodes circuit) + k)%nat
                      /\ (k < length (voltageSourcesOf circuit))%nat) as (k & -> & Hk).
    { exists (c - length (unknownNodes circuit))%nat. lia. }
    destruct (lookup_lt_is_Some_2 (voltageSourcesOf circuit) k Hk) as [vs Hvs].
    rewrite (assemble_source_column circuit A b eqs z node k vs Hasm Hz Hvs).
    assert (vs ∈ components circuit /\ c_type vs = VoltageSource) as [Hvin Hty].
    { apply list_elem_of_lookup_2 in Hvs. unfold voltageSourcesOf in Hvs.
      apply list_elem_of_filter in Hvs as [? ?]. done. }
    destruct (Hfree vs Hvin) as [H1 H2]; [congruence |].
    unfold sourceColumnEntry. by rewrite !decide_False.
Qed.

(** A circuit with an isolated node has no solution for the solver, and
    its analysis is the singular failure. *)
Lemma isolated_fails (circuit : Circuit num) (id : string) :
  isolated circuit id ->
  exists steps, analyzeNodalMethod circuit = Failure singularMessage steps.
Proof.
  intros Hiso.
  destruct (assemble_total circuit) as (A & b & eqs & Hasm & Hsq & Hb).
  destruct (isolated_row circuit id A b eqs Hiso Hasm) as (z & Hz & Hrow & Hbz).
  assert (Matrix.rows A
          = (length (unknownNodes circuit) + length (voltageSourcesOf circuit))%nat)
    as Hrows by (by destruct Hsq).
  assert ((Matrix.solve A b).1 = None) as Hnone.
  { apply (solve_zero_row A b z); rewrite ?Hrows; (done || lia). }
  unfold analyzeNodalMethod. rewrite Hasm.
  destruct (Matrix.solve A b) as [[sol|] trace]; [done | eauto].
Qed.

End ZeroRow.

Lemma Q_zero_factor (p : Q) : nlt tol (nabs (ndiv (ofZ 0) p)) = false.
Proof.
  apply Qltb_false. rewrite Q_nabs, Q_ndiv.
  change (ofZ 0) with 0%Q.
  assert (0 / p == 0)%Q as -> by (unfold Qdiv; ring).
  vm_compute. discriminate.
Qed.

Lemma float_zero_factor (p : float) :
  nlt tol (nabs (ndiv (ofZ 0) p)) = false.
Proof.
  simpl. rewrite ltb_spec, abs_spec, div_spec.
  destruct (Prim2SF p) as [s|s| |s m e]; try destruct s; reflexivity.
Qed.

(** X10. A listed node that no resistor and no voltage source touches
    makes the analysis fail: its equation is zero, the solver finds no
    pivot for it and the analysis returns the singular failure.  A node
    that only a current source touches is such a node.  It holds in exact
    arithmetic and in binary64. *)
Theorem isolated_node_fails :
  (forall (circuit : Circuit Q) (id : string),
     isolated circuit id ->
     exists steps, analyzeNodalMethod circuit = Failure singularMessage steps)
  /\ (forall (circuit : Circuit float) (id : string),
        isolated circuit id ->
        exists steps, analyzeNodalMethod circuit = Failure singularMessage steps).
Proof.
  split; intros circuit id.
  - apply isolated_fails; [reflexivity | apply Q_zero_factor].
  - apply isolated_fails; [reflexivity | apply float_zero_factor].
Qed.

(** X10, an instance of [isolated_node_fails]: the ladder, whose node
    [n3] no component touches. *)
Lemma isolated_node_fails_witness :
  (exists steps,
     analyzeNodalMethod (ladder : Circuit Q) = Failure singularMessage steps)
  /\ (exists steps,
        analyzeNodalMethod (ladder : Circuit float) = Failure singularMessage steps).
Proof.
  split.
  - refine (proj1 isolated_node_fails (ladder : Circuit Q) "n3" _).
    split; [discriminate |]. split.
    + do 2 (apply elem_of_cons; right). apply elem_of_cons. left. reflexivity.
    + intros comp Hin Hty. unfold ladder, exercise2 in Hin. cbn [components] in Hin.
      repeat (apply elem_of_cons in Hin as [->|Hin]); try (split; discriminate).
      by apply elem_of_nil in Hin.
  - refine (proj2 isolated_node_fails (ladder : Circuit float) "n3" _).
    split; [discriminate |]. split.
    + do 2 (apply elem_of_cons; right). apply elem_of_cons. left. reflexivity.
    + intros comp Hin Hty. unfold ladder, exercise2 in Hin. cbn [components] in Hin.
      repeat (apply elem_of_cons in Hin as [->|Hin]); try (split; discriminate).
      by apply elem_of_nil in Hin.
Defined.

(** ** The symmetry of the whole matrix *)

Section Symmetry.
Context {num : Type} `{Number num}.
Local Open Scope num_scope.

(** When the identifiers are distinct the node map gives each node its
    own index. *)
Lemma nodeMapOf_NoDup (ns : list Node) (i : nat) (n : Node) :
  NoDup (map n_id ns) -> ns !! i = Some n -> nodeMapOf ns !! n_id n = Some i.
Proof.
  intros Hnd Hn. rewrite nodeMapOf_insertNodes.
  destruct (insertNodes_present (fun i => i) 0 ns ∅ (n_id n)) as (j & n' & Hj & Hid & ->).
  { apply list_elem_of_fmap. exists n. split; [done |]. by eapply list_elem_of_lookup_2. }
  simpl. f_equal.
  apply (NoDup_lookup (map n_id ns) j i (n_id n)); [done | |].
  - rewrite list_lookup_fmap, Hj. simpl. by rewrite Hid.
  - by rewrite list_lookup_fmap, Hn.
Qed.

Lemma terminalIndex_NoDup (ns : list Node) (i : nat) (n : Node) (t : string) :
  NoDup (map n_id ns) -> groundNode ∉ map n_id ns -> ns !! i = Some n ->
  terminalIndex (nodeMapOf ns) t = Some i <-> t = n_id n.
Proof.
  intros Hnd Hg Hn. unfold terminalIndex. split.
  - case_decide; [done |]. intros (n' & Hn' & <-)%nodeMapOf_Some. congruence.
  - intros ->. rewrite decide_False.
    + by apply nodeMapOf_NoDup.
    + intros Heq. apply Hg. rewrite <- Heq. apply list_elem_of_fmap.
      exists n. split; [done |]. by eapply list_elem_of_lookup_2.
Qed.

(** X11. The matrix of the modified nodal analysis is symmetric, the rows
    and columns of the voltage sources included, when the unknown nodes
    have distinct identifiers and no voltage source has both terminals at
    the same node. *)
Theorem mna_matrix_symmetric (circuit : Circuit num) (A : Matrix.t num)
    (b : list num) (eqs : list string) (r c : nat) :
  assemble circuit = Some (A, b, eqs) ->
  NoDup (map n_id (unknownNodes circuit)) ->
  (forall vs, vs ∈ voltageSourcesOf circuit -> (c_nodes vs).1 <> (c_nodes vs).2) ->
  (r < length (unknownNodes circuit) + length (voltageSourcesOf circuit))%nat ->
  (c < length (unknownNodes circuit) + length (voltageSourcesOf circuit))%nat ->
  entry A r c = entry A c r.
Proof.
  intros Hasm Hnd Hloop.
  pose proof (unknownNodes_not_ground circuit) as Hg.
  assert (forall i k node vs, (unknownNodes circuit) !! i = Some node -> (voltageSourcesOf circuit) !! k = Some vs ->
            entry A i (length (unknownNodes circuit) + k) = entry A (length (unknownNodes circuit) + k) i) as Hmixed.
  { intros i k node vs Hnode Hvs.
    apply lookup_lt_Some in Hnode as Hi. apply lookup_lt_Some in Hvs as Hk.
    rewrite (assemble_source_column circuit A b eqs i node k vs Hasm Hnode Hvs).
    destruct (assemble_source_row circuit A b eqs k vs Hasm Hvs) as [Hrow _].
    rewrite Hrow by lia.
    unfold sourceColumnEntry, sourceRowEntry.
    pose proof (Hloop vs ltac:(by eapply list_elem_of_lookup_2)) as Hpq.
    destruct (c_nodes vs) as [p q]. simpl in *.
    pose proof (terminalIndex_NoDup (unknownNodes circuit) i node p Hnd Hg Hnode) as Hp.
    pose proof (terminalIndex_NoDup (unknownNodes circuit) i node q Hnd Hg Hnode) as Hq.
    repeat case_decide; intuition congruence. }
  assert (forall k k' vs vs', (voltageSourcesOf circuit) !! k = Some vs -> (voltageSourcesOf circuit) !! k' = Some vs' ->
            entry A (length (unknownNodes circuit) + k) (length (unknownNodes circuit) + k') = ofZ 0) as Hzero.
  { intros k k' vs vs' Hvs Hvs'. apply lookup_lt_Some in Hvs' as Hk'.
    destruct (assemble_source_row circuit A b eqs k vs Hasm Hvs) as [Hrow _].
    rewrite Hrow by lia. unfold sourceRowEntry.
    rewrite !decide_False; [done | |].
    - intros Ht. unfold terminalIndex in Ht. case_decide; [done |].
      apply nodeMapOf_lt in Ht. lia.
    - intros Ht. unfold terminalIndex in Ht. case_decide; [done |].
      apply nodeMapOf_lt in Ht. lia. }
  intros Hr Hc.
  destruct (decide (r < length (unknownNodes circuit))%nat) as [Hrn|Hrs],
           (decide (c < length (unknownNodes circuit))%nat) as [Hcn|Hcs].
  - destruct (decide (r = c)) as [->|Hne]; [done |].
    destruct (lookup_lt_is_Some_2 (unknownNodes circuit) r Hrn) as [na Hna].
    destruct (lookup_lt_is_Some_2 (unknownNodes circuit) c Hcn) as [nb Hnb].
    assert (n_id na <> n_id nb) as Hab.
    { intros Heq. apply Hne.
      apply (NoDup_lookup (map n_id (unknownNodes circuit)) r c (n_id na)); [done | |].
      - by rewrite list_lookup_fmap, Hna.
      - rewrite list_lookup_fmap, Hnb. simpl. by rewrite Heq. }
    assert (forall x n, (unknownNodes circuit) !! x = Some n -> n_id n <> groundNode) as Hgn.
    { intros x n Hx Hid. apply Hg. rewrite <- Hid. apply list_elem_of_fmap.
      exists n. split; [done |]. by eapply list_elem_of_lookup_2. }
    pose proof (nodeMapOf_index _ _ _ (nodeMapOf_NoDup (unknownNodes circuit) r na Hnd Hna)) as Hla.
    pose proof (nodeMapOf_index _ _ _ (nodeMapOf_NoDup (unknownNodes circuit) c nb Hnd Hnb)) as Hlb.
    rewrite (assemble_node_entry _ _ _ _ r c na Hasm Hna Hcn).
    rewrite (assemble_node_entry _ _ _ _ c r nb Hasm Hnb Hrn).
    apply fold_left_pointwise. intros acc cd.
    rewrite (mutual_stamp _ na (n_id na) (n_id nb) r c) by (done || by eapply Hgn).
    rewrite (mutual_stamp _ nb (n_id nb) (n_id na) c r) by (done || by eapply Hgn).
    unfold joins. apply decide_ext. tauto.
  - destruct (lookup_lt_is_Some_2 (unknownNodes circuit) r Hrn) as [na Hna].
    destruct (lookup_lt_is_Some_2 (voltageSourcesOf circuit) (c - length (unknownNodes circuit))) as [vs Hvs]; [lia |].
    replace c with (length (unknownNodes circuit) + (c - length (unknownNodes circuit)))%nat by lia.
    by eapply Hmixed.
  - destruct (lookup_lt_is_Some_2 (unknownNodes circuit) c Hcn) as [nb Hnb].
    destruct (lookup_lt_is_Some_2 (voltageSourcesOf circuit) (r - length (unknownNodes circuit))) as [vs Hvs]; [lia |].
    replace r with (length (unknownNodes circuit) + (r - length (unknownNodes circuit)))%nat by lia.
    symmetry. by eapply Hmixed.
  - destruct (lookup_lt_is_Some_2 (voltageSourcesOf circuit) (r - length (unknownNodes circuit))) as [vs Hvs]; [lia |].
    destruct (lookup_lt_is_Some_2 (voltageSourcesOf circuit) (c - length (unknownNodes circuit))) as [vs' Hvs']; [lia |].
    replace r with (length (unknownNodes circuit) + (r - length (unknownNodes circuit)))%nat by lia.
    replace c with (length (unknownNodes circuit) + (c - length (unknownNodes circuit)))%nat by lia.
    rewrite (Hzero _ _ vs vs') by done. by rewrite (Hzero _ _ vs' vs).
Qed.

End Symmetry.

(** X11, an instance of [mna_matrix_symmetric]: in the matrix of exercise
    2, the entry of the node [n1] in the column of the source and the
    entry of the source in the column of the node. *)
Lemma mna_matrix_symmetric_witness :
  exists A b eqs,
    assemble (exercise2 : Circuit Q) = Some (A, b, eqs)
    /\ entry A 0 2 = entry A 2 0.
Proof.
  eexists _, _, _. split; [vm_compute; reflexivity |].
  refine (mna_matrix_symmetric (exercise2 : Circuit Q) _ _ _ 0 2 _ _ _ _ _).
  - vm_compute. reflexivity.
  - vm_compute. apply NoDup_cons. split.
    + intros Hin. apply elem_of_cons in Hin as [Hin|Hin]; [discriminate |].
      by apply elem_of_nil in Hin.
    + apply NoDup_singleton.
  - intros vs Hvs. vm_compute in Hvs.
    apply elem_of_cons in Hvs as [->|Hvs]; [discriminate |].
    by apply elem_of_nil in Hvs.
  - vm_compute. lia.
  - vm_compute. lia.
Defined.

(** ** The page and its report *)

Lemma append_assoc (s t u : string) : (s +:+ t) +:+ u = s +:+ (t +:+ u).
Proof.
  induction s as [|c s IH]; [done |].
  change (String c ((s +:+ t) +:+ u) = String c (s +:+ (t +:+ u))). by f_equal.
Qed.

Lemma utf16Length_app (s t : string) :
  utf16Length (s +:+ t) = (utf16Length s + utf16Length t)%nat.
Proof.
  induction s as [|c s IH]; [done |].
  change (String c s +:+ t) with (String c (s +:+ t)). simpl. rewrite IH. lia.
Qed.

Lemma utf16Length_spaces (n : nat) : utf16Length (spaces n) = n.
Proof.
  unfold spaces. induction n as [|n IH]; [done |].
  destruct n as [|n]; [done |].
  change (utf16Length (" " +:+ "" +:+ String.concat "" (replicate (S n) " ")) = S (S n)).
  rewrite !utf16Length_app, IH. done.
Qed.

(** [padEnd] fills up to the width and never cuts. *)
Lemma padEnd_length (n : nat) (s : string) :
  utf16Length (padEnd n s) = (n `max` utf16Length s)%nat.
Proof. unfold padEnd. rewrite utf16Length_app, utf16Length_spaces. lia. Qed.

Section PresentationFacts.
Context {num : Type} `{Number num}.
Local Open Scope num_scope.

(** [formatValue] treats every unit but the ampere and the
    milliampere alike: the value with four decimals, a space and the unit
    as given, so its branches for "V" and "W" add nothing.  A current is
    shown in milliamperes or in amperes, and a value in "mA" is shown as
    its thousandth in "A" is. *)
Lemma formatValue_units (value : num) (unit : string) :
  (unit <> "A" -> unit <> "mA" ->
   formatValue value unit = toFixed value 4 +:+ " " +:+ unit)
  /\ formatValue value "mA" = formatValue (value / ofZ 1000) "A"
  /\ (formatValue value "A" = toFixed (value * ofZ 1000) 4 +:+ " mA"
      /\ (nabs value <? milli) = true
      \/ formatValue value "A" = toFixed value 4 +:+ " A"
         /\ (nabs value <? milli) = false).
Proof.
  split; [| split].
  - intros HA HmA. unfold formatValue.
    destruct (decide (unit = "V")) as [->|HV]; [done |].
    rewrite decide_False by tauto.
    destruct (decide (unit = "W")) as [->|HW]; done.
  - done.
  - unfold formatValue. simpl.
    destruct (nabs value <? milli); [left | right]; done.
Qed.

(** X14. The rows of the exported table line up with its header: the
    fields start at the columns 0, 8, 26, 42 and 58 of both, provided the
    identifier has at most 8 characters and the voltage and the current
    at most 16 as formatted. *)
Theorem report_columns (comp : ComponentResult num) :
  reportRow comp = String.concat "" (rowFields comp) +:+ nl
  /\ tableHeader = String.concat "" headerFields
  /\ map (fun k => columnOf k headerFields) [0; 1; 2; 3; 4]%nat = [0; 8; 26; 42; 58]%nat
  /\ ((utf16Length (c_id (r_comp comp)) <= 8)%nat ->
      (utf16Length (formatValue (voltage comp) "V") <= 16)%nat ->
      (utf16Length (formatValue (current comp) "A") <= 16)%nat ->
      map (fun k => columnOf k (rowFields comp)) [0; 1; 2; 3; 4]%nat
      = [0; 8; 26; 42; 58]%nat).
Proof.
  split; [| split; [done | split; [done |]]].
  - unfold reportRow, rowFields. simpl.
    rewrite !append_assoc. done.
  - intros Hid Hv Hi. unfold columnOf, rowFields. cbn [map take String.concat].
    assert (utf16Length (typeName (c_type (r_comp comp))) <= 18)%nat as Hty
      by (destruct (c_type (r_comp comp)); simpl; lia).
    rewrite !utf16Length_app, !padEnd_length. simpl.
    repeat f_equal; lia.
Qed.

Lemma exercises_length : length (exercises (num := num)) = 5%nat.
Proof. done. Qed.

(** What every state of the page satisfies. *)
Lemma reachable_invariant (s : AppState num) :
  reachable s ->
  (1 <= selectedExercise s <= 5)%nat
  /\ (results s = None
      \/ exists circuit,
           currentCircuit s = Some circuit
           /\ results s = Some (analyzeNodalMethod circuit)
           /\ analyzeNodalMethod circuit <> TypeError).
Proof.
  induction 1 as [|s e Hs [Hsel Hres] Hoff].
  - split; [simpl; lia | by left].
  - destruct e as [idx| | |]; cbn [click offered] in *.
    + apply bool_decide_eq_true in Hoff. rewrite exercises_length in Hoff.
      split; [simpl; lia | by left].
    + unfold handleAnalyze.
      destruct (currentCircuit s) as [circuit|] eqn:Hc;
        [| rewrite Hc; by split].
      destruct (analyzeNodalMethod circuit) eqn:Ha;
        [| | rewrite Hc; by split].
      * split; [done |]. right. exists circuit.
        unfold currentCircuit in *. cbn [selectedExercise results].
        rewrite Hc, Ha. done.
      * split; [done |]. right. exists circuit.
        unfold currentCircuit in *. cbn [selectedExercise results].
        rewrite Hc, Ha. done.
    + split; [done |]. destruct Hres as [Hnone|(c & Hc & Hr & Hne)]; [by left |].
      right. by exists c.
    + by split.
Qed.

(** X15. The results on the page are those of the exercise selected.  In
    every state that clicks can reach, the selected exercise is one of
    the five and the results, when there are any, are what the analysis
    returns for that exercise: selecting another exercise clears them. *)
Theorem results_of_selection (s : AppState num) :
  reachable s ->
  (1 <= selectedExercise s <= 5)%nat
  /\ forall r, results s = Some r ->
       exists circuit,
         exercises !! (selectedExercise s - 1)%nat = Some circuit
         /\ r = analyzeNodalMethod circuit.
Proof.
  intros [Hsel Hres]%reachable_invariant. split; [done |].
  intros r Hr. destruct Hres as [Hnone|(c & Hc & Hr' & _)]; [congruence |].
  exists c. unfold currentCircuit in Hc. rewrite decide_True in Hc by lia.
  split; [done | congruence].
Qed.

(** X16. The export, when the page offers it, downloads the report of
    the exercise selected under the name of that exercise. *)
Theorem export_of_selection (s : AppState num) (date : string) :
  reachable s -> offered s ClickExport = true ->
  exists circuit v componentResults steps m,
    exercises !! (selectedExercise s - 1)%nat = Some circuit
    /\ analyzeNodalMethod circuit = Success v componentResults steps m
    /\ handleExport s date
       = Some ("Ejercicio_" +:+ pretty (selectedExercise s) +:+ "_Desarrollo_Completo.txt",
               report circuit (Success v componentResults steps m) date).
Proof.
  intros [Hsel Hres]%reachable_invariant Hoff. simpl in Hoff.
  unfold resultsShown in Hoff.
  destruct Hres as [Hnone|(c & Hc & Hr & _)]; [by rewrite Hnone in Hoff |].
  rewrite Hr in Hoff.
  destruct (analyzeNodalMethod c) as [v crs steps m| |] eqn:Ha; try done.
  exists c, v, crs, steps, m. split; [| split; [done |]].
  - unfold currentCircuit in Hc. by rewrite decide_True in Hc by lia.
  - unfold handleExport. rewrite Hr, Hc. done.
Qed.

End PresentationFacts.

(** The five exercises of the program are solved, in binary64. *)
Lemma exercises_succeed :
  Forall (fun circuit : Circuit float => succeeded (analyzeNodalMethod circuit) = true)
         exercises.
Proof. repeat constructor; vm_compute; reflexivity. Qed.

(** X17. The page never shows the error panel.  In binary64, as the
    program computes, the analysis of each of the five exercises
    succeeds, so in every state that clicks can reach the results are
    absent or shown, with the export offered. *)
Theorem analysis_always_shown (s : AppState float) :
  reachable s ->
  results s = None \/ resultsShown s = true /\ offered s ClickExport = true.
Proof.
  intros [Hsel Hres]%reachable_invariant.
  destruct Hres as [Hnone|(c & Hc & Hr & _)]; [by left |]. right.
  unfold currentCircuit in Hc. rewrite decide_True in Hc by lia.
  assert (succeeded (analyzeNodalMethod c) = true) as Hok.
  { pose proof exercises_succeed as Hall. rewrite Forall_forall in Hall.
    apply Hall. by eapply list_elem_of_lookup_2. }
  simpl. unfold resultsShown. rewrite Hr.
  by destruct (analyzeNodalMethod c).
Qed.

(** X14, an instance of [report_columns]: the row of the resistor [R1]
    of exercise 2. *)
Lemma report_columns_witness :
  map (fun k => columnOf k
                  (rowFields
                     {| r_comp := component "R1" Resistor "n1" "n2" 2%Q "kΩ";
                        voltage := (25 # 4)%Q; current := (1 # 320)%Q;
                        power := (5 # 256)%Q |}))
      [0; 1; 2; 3; 4]%nat
  = [0; 8; 26; 42; 58]%nat.
Proof.
  refine (proj2 (proj2 (proj2 (report_columns
            {| r_comp := component "R1" Resistor "n1" "n2" 2%Q "kΩ";
               voltage := (25 # 4)%Q; current := (1 # 320)%Q;
               power := (5 # 256)%Q |}))) _ _ _).
  - vm_compute. lia.
  - vm_compute. lia.
  - vm_compute. lia.
Defined.

(** X15, an instance of [results_of_selection]: exercise 2 selected and
    analysed. *)
Lemma results_of_selection_witness :
  (1 <= selectedExercise
          (click (click (initialState (num := Q)) (ClickExercise 1)) ClickAnalyze)
   <= 5)%nat
  /\ forall r,
       results (click (click (initialState (num := Q)) (ClickExercise 1)) ClickAnalyze)
       = Some r ->
       exists circuit,
         exercises
           !! (selectedExercise
                 (click (click (initialState (num := Q)) (ClickExercise 1)) ClickAnalyze)
               - 1)%nat
         = Some circuit
         /\ r = analyzeNodalMethod circuit.
Proof.
  refine (results_of_selection
            (click (click (initialState (num := Q)) (ClickExercise 1)) ClickAnalyze) _).
  refine (reachable_click _ ClickAnalyze _ _); [| reflexivity].
  refine (reachable_click _ (ClickExercise 1) _ _); [| reflexivity].
  exact reachable_initial.
Defined.

(** X16, an instance of [export_of_selection]: the export of exercise 2. *)
Lemma export_of_selection_witness :
  exists circuit v componentResults steps m,
    exercises (num := Q) !! 1%nat = Some circuit
    /\ analyzeNodalMethod circuit = Success v componentResults steps m
    /\ handleExport
         (click (click (initialState (num := Q)) (ClickExercise 1)) ClickAnalyze)
         "1/1/2025, 12:00:00 p. m."
       = Some ("Ejercicio_2_Desarrollo_Completo.txt",
               report circuit (Success v componentResults steps m)
                      "1/1/2025, 12:00:00 p. m.").
Proof.
  refine (export_of_selection
            (click (click (initialState (num := Q)) (ClickExercise 1)) ClickAnalyze)
            "1/1/2025, 12:00:00 p. m." _ _).
  - refine (reachable_click _ ClickAnalyze _ _); [| reflexivity].
    refine (reachable_click _ (ClickExercise 1) _ _); [| reflexivity].
    exact reachable_initial.
  - vm_compute. reflexivity.
Defined.

(** X17, an instance of [analysis_always_shown]: the exercise of the
    initial state, analysed in binary64. *)
Lemma analysis_always_shown_witness :
  results (click (initialState (num := float)) ClickAnalyze) = None
  \/ resultsShown (click (initialState (num := float)) ClickAnalyze) = true
     /\ offered (click (initialState (num := float)) ClickAnalyze) ClickExport = true.
Proof.
  refine (analysis_always_shown (click (initialState (num := float)) ClickAnalyze) _).
  refine (reachable_click _ ClickAnalyze _ _); [| reflexivity].
  exact reachable_initial.
Defined.

(** ** The methods of the matrix object *)

Section HeapClass.
Context {num : Type} `{Number num}.
Local Open Scope num_scope.
Import MatrixObj.

Lemma extends_trans (h1 h2 h3 : Heap num) :
  extends h1 h2 -> extends h2 h3 -> extends h1 h3.
Proof. intros [? ?] [? ?]. split; by etrans. Qed.

Lemma extends_allocNums (h : Heap num) (a : list num) : extends h (allocNums h a).2.
Proof. split; simpl; [by apply prefix_app_r | done]. Qed.

Lemma extends_allocRows (h : Heap num) (a : list nat) : extends h (allocRows h a).2.
Proof. split; simpl; [done | by apply prefix_app_r]. Qed.

(** The rows that a loop allocates one after another, each with the
    content [content h l] read in the heap of its turn: they are new,
    distinct, and hold that content; the arrays that were there stay. *)
Lemma allocate_rows {X : Type} (content : Heap num -> X -> list num)
    (xs : list X) (h0 : Heap num) :
  (forall h x, extends h0 h -> x ∈ xs -> content h x = content h0 x) ->
  forall (ls : list nat) (h : Heap num),
    extends h0 h ->
    NoDup ls ->
    Forall (fun l => (length (numArrays h0) <= l < length (numArrays h))%nat) ls ->
    let st := fold_left
                (fun '(ls, h) x =>
                   let '(l, h) := allocNums h (content h x) in (ls ++ [l], h))
                xs (ls, h) in
    extends h0 st.2
    /\ rowArrays st.2 = rowArrays h
    /\ NoDup st.1
    /\ Forall (fun l => (length (numArrays h0) <= l < length (numArrays st.2))%nat) st.1
    /\ map (numsAt st.2) st.1 = map (numsAt h) ls ++ map (content h0) xs.
Proof.
  intros Hcontent. induction xs as [|x xs IH]; intros ls h Hext Hnd Hls; simpl.
  - split; [done |]. split; [done |]. split; [done |]. split; [done |].
    by rewrite app_nil_r.
  - assert (forall h x', extends h0 h -> x' ∈ xs -> content h x' = content h0 x')
      as Hcontent' by (intros h' x' He Hx; apply Hcontent; [done | by right]).
    destruct (IH Hcontent' (ls ++ [length (numArrays h)])
                {| numArrays := numArrays h ++ [content h x];
                   rowArrays := rowArrays h |})
      as (E1 & E2 & E3 & E4 & E5).
    + eapply extends_trans; [done |]. apply (extends_allocNums h).
    + apply NoDup_app. split; [done |]. split; [| apply NoDup_singleton].
      intros l Hl Hl'%list_elem_of_singleton. subst.
      rewrite Forall_forall in Hls. apply Hls in Hl. lia.
    + apply Forall_app. split.
      * eapply Forall_impl; [done |]. intros l Hl. simpl in *.
        rewrite length_app. simpl. lia.
      * apply Forall_singleton. simpl. rewrite length_app. simpl.
        destruct Hext as [Hn _]. apply prefix_length in Hn. lia.
    + split; [done |]. split; [done |]. split; [done |]. split; [done |].
      etrans; [exact E5 |]. rewrite map_app. simpl.
      rewrite <- app_assoc. simpl. f_equal.
      * apply Forall_fmap_ext_1. eapply Forall_impl; [exact Hls |].
        intros l Hl. simpl in Hl. unfold numsAt. simpl.
        by rewrite lookup_app_l by lia.
      * f_equal. unfold numsAt. simpl. rewrite list_lookup_middle by done. simpl.
        apply Hcontent; [done | by left].
Qed.

(** X18. The constructor builds rows that no matrix shares.  In the heap
    after [new Matrix(rows, cols, v)] every array that existed before is
    there unchanged, the new matrix reads as [rows] rows of [cols] times
    [v], and its rows are distinct new arrays. *)
Theorem constructor_rows_distinct (h : Heap num) (rows cols : nat) (v : num) :
  extends h (new h rows cols v).2
  /\ load (new h rows cols v).2 (new h rows cols v).1 = Matrix.new rows cols v
  /\ represents (new h rows cols v).2 (data (new h rows cols v).1)
       (replicate rows (replicate cols v))
  /\ (length (rowArrays h) <= data (new h rows cols v).1)%nat
  /\ Forall (fun l => (length (numArrays h) <= l)%nat)
            (rowsAt (new h rows cols v).2 (data (new h rows cols v).1)).
Proof.
  unfold new. simpl.
  set (h1 := {| numArrays := numArrays h ++ [replicate rows (ofZ 0)];
                rowArrays := rowArrays h |}).
  destruct (allocate_rows (fun _ (_ : num) => replicate cols v)
              (replicate rows (ofZ 0)) h1 ltac:(done) [] h1)
    as (E1 & E2 & E3 & E4 & E5); [by split | constructor | constructor |].
  destruct (fold_left _ _ _) as [ls h2]. simpl in *.
  assert (extends h h1) as Hh1 by apply (extends_allocNums h).
  assert (rowsAt {| numArrays := numArrays h2; rowArrays := rowArrays h2 ++ [ls] |}
                 (length (rowArrays h2)) = ls) as Hrs.
  { unfold rowsAt. simpl. by rewrite list_lookup_middle. }
  assert (map (numsAt {| numArrays := numArrays h2;
                          rowArrays := rowArrays h2 ++ [ls] |}) ls
          = replicate rows (replicate cols v)) as Hsnap.
  { change (map (numsAt h2) ls = replicate rows (replicate cols v)).
    rewrite E5. simpl. clear. induction rows as [|n IH]; simpl; [done | by rewrite IH]. }
  split; [| split; [| split; [| split]]].
  - eapply extends_trans; [done |]. eapply extends_trans; [done |].
    apply (extends_allocRows h2).
  - unfold load, snapshot. simpl. rewrite Hrs, Hsnap. done.
  - unfold represents, snapshot. rewrite Hrs. split; [done |]. split; [done |].
    split; [simpl; rewrite length_app; simpl; lia |].
    eapply Forall_impl; [done |]. intros l Hl. simpl in *. lia.
  - rewrite E2. simpl. done.
  - rewrite Hrs. eapply Forall_impl; [done |]. intros l Hl. simpl in *.
    rewrite length_app in Hl. simpl in Hl. lia.
Qed.

Lemma extends_load (h h' : Heap num) (m : t) :
  extends h h' -> allocated h m -> load h' m = load h m.
Proof.
  intros Hext [Hdata Hrows]. unfold load, snapshot.
  rewrite (extends_rowsAt h h') by done. f_equal.
  apply Forall_fmap_ext_1. eapply Forall_impl; [exact Hrows |].
  intros l Hl. by apply extends_numsAt.
Qed.

(** X20. [toArray] hands out a copy.  The array it returns and its rows
    are new, they hold the entries of the matrix, and a write into one of
    them leaves the matrix as it is. *)
Theorem toArray_copies (h : Heap num) (m : t) :
  allocated h m ->
  extends h (toArray h m).2
  /\ snapshot (toArray h m).2 (toArray h m).1 = Matrix.toArray (load h m)
  /\ fresh h (toArray h m).1 (toArray h m).2
  /\ forall r c v,
       load (setCell (toArray h m).2 (toArray h m).1 r c v) m = load h m.
Proof.
  intros Halloc. pose proof Halloc as [Hdata Hrows]. unfold toArray.
  destruct (allocate_rows numsAt (rowsAt h (data m)) h) with (ls := @nil nat) (h := h)
    as (E1 & E2 & E3 & E4 & E5); [| by split | constructor | constructor |].
  { intros h1 l Hext Hl. apply extends_numsAt; [done |].
    rewrite Forall_forall in Hrows. by apply Hrows. }
  destruct (fold_left _ _ _) as [ls h2]. simpl in *.
  assert (rowsAt {| numArrays := numArrays h2; rowArrays := rowArrays h2 ++ [ls] |}
                 (length (rowArrays h2)) = ls) as Hrs.
  { unfold rowsAt. simpl. by rewrite list_lookup_middle. }
  assert (fresh h (length (rowArrays h2))
            {| numArrays := numArrays h2; rowArrays := rowArrays h2 ++ [ls] |})
    as Hfresh.
  { split; [| split].
    - eapply extends_trans; [done |]. apply (extends_allocRows h2).
    - by rewrite E2.
    - rewrite Hrs. eapply Forall_impl; [done |]. intros l Hl. simpl in Hl. lia. }
  split; [by destruct Hfresh |]. split; [| split; [done |]].
  - unfold snapshot. rewrite Hrs.
    change (map (numsAt h2) ls = map (numsAt h) (rowsAt h (data m))). by rewrite E5.
  - intros r c v. apply extends_load; [| done].
    by destruct (setCell_fresh h _ _ r c v Hfresh).
Qed.

End HeapClass.

(** X20, an instance of [toArray_copies]: the copy of the example
    matrix. *)
Lemma toArray_copies_witness :
  MatrixObj.extends (exampleHeap : MatrixObj.Heap Q)
    (MatrixObj.toArray (exampleHeap : MatrixObj.Heap Q) exampleMatrix).2
  /\ MatrixObj.snapshot (MatrixObj.toArray (exampleHeap : MatrixObj.Heap Q) exampleMatrix).2
       (MatrixObj.toArray (exampleHeap : MatrixObj.Heap Q) exampleMatrix).1
     = Matrix.toArray (MatrixObj.load (exampleHeap : MatrixObj.Heap Q) exampleMatrix)
  /\ MatrixObj.fresh (exampleHeap : MatrixObj.Heap Q)
       (MatrixObj.toArray (exampleHeap : MatrixObj.Heap Q) exampleMatrix).1
       (MatrixObj.toArray (exampleHeap : MatrixObj.Heap Q) exampleMatrix).2
  /\ forall r c v,
       MatrixObj.load
         (MatrixObj.setCell
            (MatrixObj.toArray (exampleHeap : MatrixObj.Heap Q) exampleMatrix).2
            (MatrixObj.toArray (exampleHeap : MatrixObj.Heap Q) exampleMatrix).1 r c v)
         exampleMatrix
       = MatrixObj.load (exampleHeap : MatrixObj.Heap Q) exampleMatrix.
Proof.
  refine (toArray_copies (exampleHeap : MatrixObj.Heap Q) exampleMatrix _).
  split; [vm_compute; lia |]. vm_compute. repeat constructor.
Defined.
